(** * Typo.js: a shallow embedding of the spell-checking engine

    The development follows [src/typo/typo.js]: the bloom filter and the LRU
    cache of the paged backend, the in-memory dictionary table, the lookup
    engine ([checkExact], [check], [hasFlag]), the export of an in-memory
    dictionary to the paged layout, and the suggestion engine ([suggest]).

    JavaScript strings are modelled as [string] (sequences of code units below
    256).  A JavaScript object used as a map is a [gmap]; an object whose
    enumeration order is observable, and the [Map] inside the LRU cache, are
    association lists in insertion order.  Where the code reads such an
    object under a key that its caller chooses ([dictionaryTable[word]],
    [flag in this.flags], [_edit in rv], ...), the model follows the
    properties that the object inherits from [Object.prototype]: a key that
    is no own key and names one of them is found by [in] and reads a method
    (or, for [__proto__], the prototype object), and an assignment to
    [__proto__] creates no own key.  A call of [hasOwnProperty] on such an
    object is modelled with the case in which an own key of that name
    shadows the method.  The tables of an instance are taken to hold no own
    key [__proto__].  Methods that mutate the instance or throw are written
    in a state-and-exception monad over the instance. *)

From Stdlib Require Import ZArith Ascii String List Lia Bool Permutation Sorted.
From Stdlib Require Import DecimalString.
From stdpp Require Import base tactics option list gmap strings sorting.

Local Open Scope Z_scope.

(** ** JavaScript primitives *)

Module JS.

(** Code unit of a character, as [charCodeAt] returns it. *)
Definition charCode (c : ascii) : Z := Z.of_N (N_of_ascii c).

Definition length (s : string) : Z := Z.of_nat (String.length s).

(** [s.substring(0, n)] *)
Fixpoint take (n : nat) (s : string) : string :=
  match n, s with
  | S n', String c s' => String c (take n' s')
  | _, _ => EmptyString
  end.

(** [s.substring(n)] *)
Fixpoint drop (n : nat) (s : string) : string :=
  match n, s with
  | S n', String c s' => drop n' s'
  | _, _ => s
  end.

(** [s[0]]: [None] stands for [undefined] *)
Definition head (s : string) : option ascii :=
  match s with
  | String c _ => Some c
  | EmptyString => None
  end.

Definition char (c : ascii) : string := String c EmptyString.

(** [s.split("")] *)
Fixpoint chars (s : string) : list ascii :=
  match s with
  | EmptyString => []
  | String c s' => c :: chars s'
  end.

(** The class [\s] of regular expressions, on code units below 256:
    tab, line feed, vertical tab, form feed, carriage return, space and
    the no-break space. *)
Definition isSpace (c : ascii) : bool :=
  let n := charCode c in
  ((9 <=? n) && (n <=? 13)) || (n =? 32) || (n =? 160).

(** [s.replace(/^\s\s*/, '')] *)
Fixpoint trimStart (s : string) : string :=
  match s with
  | String c s' => if isSpace c then trimStart s' else s
  | EmptyString => EmptyString
  end.

(** [s.replace(/\s\s*$/, '')] *)
Fixpoint trimEnd (s : string) : string :=
  match s with
  | String c s' =>
      match trimEnd s' with
      | EmptyString => if isSpace c then EmptyString else char c
      | t => String c t
      end
  | EmptyString => EmptyString
  end.

(** No character of [s] is in the class [\s]. *)
Definition spaceFree (s : string) : bool :=
  forallb (fun c => negb (isSpace c)) (chars s).

Fixpoint isPrefix (p s : string) : bool :=
  match p, s with
  | EmptyString, _ => true
  | String a p', String b s' => if Ascii.eqb a b then isPrefix p' s' else false
  | String _ _, EmptyString => false
  end.

(** [s.indexOf(p) !== -1] *)
Fixpoint includes (p s : string) : bool :=
  isPrefix p s ||
  match s with
  | String _ s' => includes p s'
  | EmptyString => false
  end.

(** The replacement text of [s.replace(p, r)] for a string pattern: in [r]
    the pattern [$$] stands for a dollar sign, [$&] for the matched text,
    [$`] for the text before the match and [$'] for the text after it.  A
    string pattern has no captures, so every other dollar sign stands for
    itself. *)
Fixpoint expand (r matched before after : string) : string :=
  match r with
  | EmptyString => EmptyString
  | String c r' =>
      if Ascii.eqb c "$" then
        match r' with
        | String d r'' =>
            if Ascii.eqb d "$" then String "$" (expand r'' matched before after)
            else if Ascii.eqb d "&" then matched +:+ expand r'' matched before after
            else if Ascii.eqb d "`" then before +:+ expand r'' matched before after
            else if Ascii.eqb d "'" then after +:+ expand r'' matched before after
            else String c (expand r' matched before after)
        | EmptyString => String c EmptyString
        end
      else String c (expand r' matched before after)
  end.

(** [s.replace(p, r)] for a string pattern [p]: the first occurrence of
    [p] is replaced by the expansion of [r]; [before] is the text already
    passed. *)
Fixpoint replaceFrom (p r before s : string) : string :=
  if isPrefix p s then
    let after := drop (String.length p) s in
    before +:+ expand r p before after +:+ after
  else match s with
       | String c s' => replaceFrom p r (before +:+ char c) s'
       | EmptyString => before
       end.

Definition replace (p r s : string) : string := replaceFrom p r "" s.

(** The text of an integer, as [+] with a string operand converts it *)
Definition numberText (n : Z) : string := NilZero.string_of_int (Z.to_int n).

(** [a < b] on strings: code units compared lexicographically. *)
Definition lt (a b : string) : bool := String.ltb a b.

(** ToInt32 and ToUint32 of an integral number. *)
Definition toUint32 (z : Z) : Z := z mod 2 ^ 32.
Definition toInt32 (z : Z) : Z := (z + 2 ^ 31) mod 2 ^ 32 - 2 ^ 31.

(** [x << n] *)
Definition shl (x n : Z) : Z := toInt32 (Z.shiftl x (n mod 32)).

(** [a % b] for integral operands: the remainder takes the sign of the
    dividend; [None] is NaN (division by zero). *)
Definition rem (a b : Z) : option Z :=
  if b =? 0 then None else Some (Z.rem a b).

(** [Array.prototype.sort] with a comparison function: a stable insertion
    sort.  [cmp a b < 0] places [a] before [b]. *)
Fixpoint sortInsert {A} (cmp : A -> A -> Z) (x : A) (l : list A) : list A :=
  match l with
  | [] => [x]
  | y :: l' => if cmp y x <=? 0 then y :: sortInsert cmp x l' else x :: l
  end.

Definition sort {A} (cmp : A -> A -> Z) (l : list A) : list A :=
  fold_left (fun acc x => sortInsert cmp x acc) l [].

(** [a.slice(0, n)]: a negative [n] counts from the end. *)
Definition slice0 {A} (n : Z) (l : list A) : list A :=
  if n <? 0 then List.firstn (Z.to_nat (Z.of_nat (List.length l) + n)) l
  else List.firstn (Z.to_nat n) l.

(** *** Objects whose enumeration order matters

    The own properties in insertion order.  [for (k in o)] visits the keys
    that are array indices first, in ascending numeric order, and then the
    other keys in insertion order. *)

Definition Obj (V : Type) : Type := list (string * V).

Fixpoint objGet {V} (key : string) (o : Obj V) : option V :=
  match o with
  | [] => None
  | (k, v) :: o' => if String.eqb k key then Some v else objGet key o'
  end.

(** [o[key] = v] *)
Fixpoint objSet {V} (key : string) (v : V) (o : Obj V) : Obj V :=
  match o with
  | [] => [(key, v)]
  | (k, v') :: o' =>
      if String.eqb k key then (k, v) :: o' else (k, v') :: objSet key v o'
  end.

Definition isDigit (c : ascii) : bool :=
  (48 <=? charCode c) && (charCode c <=? 57).

Fixpoint digitsValue (s : string) (acc : Z) : option Z :=
  match s with
  | EmptyString => Some acc
  | String c s' =>
      if isDigit c then digitsValue s' (acc * 10 + (charCode c - 48)) else None
  end.

(** The array index that a property key denotes: a canonical decimal
    numeral below [2^32 - 1]. *)
Definition arrayIndex (key : string) : option Z :=
  match key with
  | EmptyString => None
  | String c s' =>
      if Ascii.eqb c "0" && negb (String.eqb s' "") then None
      else match digitsValue key 0 with
           | Some n => if n <? 2 ^ 32 - 1 then Some n else None
           | None => None
           end
  end.

Definition indexOrder {V} (a b : string * V) : Z :=
  default 0 (arrayIndex (fst a)) - default 0 (arrayIndex (fst b)).

(** The entries of [o] in the order of [for (k in o)] *)
Definition forIn {V} (o : Obj V) : list (string * V) :=
  sort indexOrder (List.filter (fun e => bool_decide (is_Some (arrayIndex (fst e)))) o)
  ++ List.filter (fun e => negb (bool_decide (is_Some (arrayIndex (fst e))))) o.

(** No key of [o] holds white space. *)
Definition spaceFreeKeys {V} (o : Obj V) : Prop :=
  Forall (fun e => spaceFree (fst e) = true) o.

End JS.

(** ** The properties that every object inherits *)

Module JSObject.

(** The property names of [Object.prototype].  In an object that has no
    own property of such a name, [in] finds the name and a read gives the
    inherited value: a method, or for ["__proto__"] the prototype object.
    An assignment of a value that is no object to ["__proto__"] is
    ignored. *)
Definition inheritedNames : list string :=
  ["constructor"; "__defineGetter__"; "__defineSetter__"; "hasOwnProperty";
   "__lookupGetter__"; "__lookupSetter__"; "isPrototypeOf";
   "propertyIsEnumerable"; "toString"; "valueOf"; "__proto__"; "toLocaleString"].

Definition inherited (name : string) : bool :=
  existsb (String.eqb name) inheritedNames.

(** The [length] of the inherited value, read as an array-like: the number
    of parameters of the method; the prototype object has no [length]. *)
Definition arity (name : string) : nat :=
  if existsb (String.eqb name) ["__defineGetter__"; "__defineSetter__"] then 2
  else if existsb (String.eqb name)
            ["constructor"; "hasOwnProperty"; "__lookupGetter__"; "__lookupSetter__";
             "isPrototypeOf"; "propertyIsEnumerable"]
       then 1
       else 0.

End JSObject.

(** ** The weight of a candidate

    A weight starts as a number; the operator [+=] on the value inherited
    under the name of the candidate makes it a text. *)

Inductive Weight :=
| Num (n : Z)
| Text (s : string).

Definition weightText (w : Weight) : string :=
  match w with
  | Num n => JS.numberText n
  | Text s => s
  end.

(** [a + b]: numbers are added; with a text operand the texts are
    concatenated. *)
Definition addWeights (a b : Weight) : Weight :=
  match a, b with
  | Num x, Num y => Num (x + y)
  | _, _ => Text (weightText a +:+ weightText b)
  end.

(** [a < b]: numbers by value and texts by code units; a text that starts
    or ends with the text of an inherited value is NaN as a number, and no
    number is below or above it. *)
Definition lessThan (a b : Weight) : bool :=
  match a, b with
  | Num x, Num y => x <? y
  | Text s, Text u => JS.lt s u
  | _, _ => false
  end.

(** The built-in operations whose result depends on the platform's Unicode
    and locale tables, and the regular-expression engine. *)
Class Builtins := {
  toUpperCase : string -> string;
  toLowerCase : string -> string;
  (** [a.localeCompare(b)] *)
  localeCompare : string -> string -> Z;
  (** ToNumber of a string; [None] is NaN.  [Some n] stands for a number
      [x] with [len >= x] exactly when [n <= len], for every integer [len]. *)
  toNumber : string -> option Z;
  RegExp : Type;
  (** [word.match(re)] is not [null] *)
  regexMatch : string -> RegExp -> bool;
  (** The text that [+] converts the value inherited under a name of
      [Object.prototype] to: the source text of the native method, or the
      text of the prototype object for ["__proto__"].  As a number this
      text, with anything appended or prepended, is NaN. *)
  inheritedText : string -> string
}.

(** [compareStrings(a, b)] *)
Definition compareStrings (a b : string) : Z :=
  if JS.lt a b then -1
  else if JS.lt b a then 1
  else 0.

(** ** BloomFilter *)

Module BloomFilter.

Record t := mk { size : Z; numHashes : Z; bits : list Z }.

(** [new BloomFilter(size, numHashes)], for a size above -8:
    [Math.ceil(size / 8)] zero bytes.  For a smaller size the length of the
    array is negative and the constructor throws a RangeError: it builds no
    filter. *)
Definition new (size numHashes : Z) : t :=
  {| size := size;
     numHashes := if numHashes =? 0 then 3 else numHashes;
     bits := replicate (Z.to_nat ((size + 7) / 8)) 0 |}.

(** The constructor with its failure: [None] stands for the RangeError
    that [new Uint8Array] throws for a negative length. *)
Definition construct (size numHashes : Z) : option t :=
  if size <=? -8 then None else Some (new size numHashes).

(** [_hash(str, seed)] *)
Definition hashStep (hash : Z) (c : ascii) : Z :=
  JS.toUint32 ((JS.shl hash 5 + hash) + JS.charCode c).

Definition _hash (str : string) (seed : Z) : Z :=
  fold_left hashStep (JS.chars str) (5381 + seed * 1000).

(** The loop variable [i] of [add] and [mightContain] *)
Definition probes (f : t) : list Z :=
  map Z.of_nat (seq 0 (Z.to_nat (numHashes f))).

(** [this.bits[byteIndex]], read as an operand of a bit operation: a read
    outside the array gives [undefined], which converts to [0]. *)
Definition readByte (bs : list Z) (byteIndex : Z) : Z :=
  default 0 (bs !! Z.to_nat byteIndex).

(** One iteration of the loop of [add].  When [size] is zero the bit index
    is NaN and the assignment to the typed array has no effect. *)
Definition addProbe (word : string) (f : t) (i : Z) : t :=
  let hash := _hash word i in
  match JS.rem hash (size f) with
  | None => f
  | Some bitIndex =>
      let byteIndex := bitIndex / 8 in
      let bitOffset := Z.rem bitIndex 8 in
      {| size := size f; numHashes := numHashes f;
         bits := <[Z.to_nat byteIndex :=
                    Z.lor (readByte (bits f) byteIndex) (JS.shl 1 bitOffset) mod 256]>
                 (bits f) |}
  end.

Definition add (f : t) (word : string) : t :=
  fold_left (addProbe word) (probes f) f.

(** The test of one iteration of [mightContain] *)
Definition probeSet (word : string) (f : t) (i : Z) : bool :=
  let hash := _hash word i in
  match JS.rem hash (size f) with
  | None => false
  | Some bitIndex =>
      let byteIndex := bitIndex / 8 in
      let bitOffset := Z.rem bitIndex 8 in
      negb (Z.land (readByte (bits f) byteIndex) (JS.shl 1 bitOffset) =? 0)
  end.

Definition mightContain (f : t) (word : string) : bool :=
  forallb (probeSet word f) (probes f).

(** The bit [k] of the bit array *)
Definition bitAt (bs : list Z) (k : Z) : bool :=
  Z.testbit (readByte bs (k / 8)) (k mod 8).

(** A filter with at least one bit whose array holds [Math.ceil(size / 8)]
    bytes, as [new] allocates it *)
Definition wellSized (f : t) : Prop :=
  0 < size f /\ (size f + 7) / 8 <= Z.of_nat (List.length (bits f)).

End BloomFilter.

(** ** LRUCache

    The [Map] of the cache is an association list in insertion order: the
    first entry is the oldest one. *)

Module LRUCache.

Record t (V : Type) := mk { maxSize : Z; cache : list (string * V) }.
Arguments mk {V}.
Arguments maxSize {V}.
Arguments cache {V}.

Definition new {V} (maxSize : Z) : t V := {| maxSize := maxSize; cache := [] |}.

Section Ops.
Context {V : Type}.

(** [Map.prototype.has], [get], [delete] *)
Definition mapHas (key : string) (m : list (string * V)) : bool :=
  existsb (fun e => String.eqb (fst e) key) m.

Fixpoint mapGet (key : string) (m : list (string * V)) : option V :=
  match m with
  | [] => None
  | (k, v) :: m' => if String.eqb k key then Some v else mapGet key m'
  end.

Definition mapDelete (key : string) (m : list (string * V)) : list (string * V) :=
  List.filter (fun e => negb (String.eqb (fst e) key)) m.

Definition keys (c : t V) : list string := map fst (cache c).

(** [has(key)] *)
Definition has (c : t V) (key : string) : bool := mapHas key (cache c).

(** [get(key)]: the value ([None] is [null]) and the cache afterwards *)
Definition get (c : t V) (key : string) : option V * t V :=
  if negb (mapHas key (cache c)) then (None, c)
  else
    let value := mapGet key (cache c) in
    match value with
    | Some v =>
        (value, {| maxSize := maxSize c; cache := mapDelete key (cache c) ++ [(key, v)] |})
    | None => (None, c)
    end.

(** [set(key, value)] *)
Definition set (c : t V) (key : string) (value : V) : t V :=
  let m1 := if mapHas key (cache c) then mapDelete key (cache c) else cache c in
  let m2 := m1 ++ [(key, value)] in
  let m3 :=
    if Z.of_nat (List.length m2) >? maxSize c then
      match m2 with
      | (oldestKey, _) :: _ => mapDelete oldestKey m2
      | [] => m2
      end
    else m2 in
  {| maxSize := maxSize c; cache := m3 |}.

End Ops.

(** [add(key)] *)
Definition add (c : t bool) (key : string) : t bool := set c key true.

(** Sequences of calls *)
Inductive Op (V : Type) :=
| OpGet (key : string)
| OpSet (key : string) (value : V).
Arguments OpGet {V}.
Arguments OpSet {V}.

Definition step {V} (c : t V) (o : Op V) : t V :=
  match o with
  | OpGet key => snd (get c key)
  | OpSet key value => set c key value
  end.

Definition runOps {V} (c : t V) (ops : list (Op V)) : t V := fold_left step ops c.

(** The keys in the order of their last use: a call of [set], or a call of
    [get] that finds the key, makes the key the most recently used one. *)
Definition differs (key : string) (k : string) : bool := negb (String.eqb k key).

Definition touch (key : string) (order : list string) : list string :=
  List.filter (differs key) order ++ [key].

Fixpoint recency {V} (c : t V) (ops : list (Op V)) (order : list string)
    : list string :=
  match ops with
  | [] => order
  | o :: ops' =>
      let order' :=
        match o with
        | OpSet key _ => touch key order
        | OpGet key => if has c key then touch key order else order
        end in
      recency (step c o) ops' order'
  end.

(** The last [n] elements of [l] *)
Definition lastn {A} (n : nat) (l : list A) : list A :=
  skipn (List.length l - n) l.

End LRUCache.

(** ** The dictionary instance *)

(** An entry [{w, r}] of a partition; [r] is [null] or the rule-code sets. *)
Record WordData := { wd_w : string; wd_r : option (list (list string)) }.

(** An entry [{file, count}] of the partition index *)
Record PartitionInfo := { pi_file : string; pi_count : Z }.

Inductive Exception :=
| DictionaryNotLoaded   (* throw "Dictionary not loaded." *)
| TypeError             (* a property of undefined or null is read *)
| SyntaxError           (* JSON.parse of the text of an unreadable file *)
| UnsupportedVersion.   (* throw "Unsupported pre-calculated dictionary version: ..." *)

Inductive Result (A : Type) :=
| Ret (a : A)
| Throw (e : Exception).
Arguments Ret {A}.
Arguments Throw {A}.

Section Engine.
Context `{Builtins}.

(** The fields of a [Typo] instance that the lookup and suggestion engines
    use, with the partition files the instance reads ([files], by path)
    and the log of the paths read so far ([reads]). *)
Record Typo := {
  dictionary : string;
  dictionaryTable : gmap string (option (list (list string)));
  compoundRules : list RegExp;
  replacementTable : list (string * string);
  flags : gmap string (option string);
  memoized : gmap string (list string * Z);
  loaded : bool;
  alphabet : string;
  preCalculated : bool;
  preCalculatedPath : string;
  bloomFilter : BloomFilter.t;
  partitionIndex : gmap string PartitionInfo;
  partitionCache : LRUCache.t (list WordData);
  notFoundCache : LRUCache.t bool;
  files : gmap string (list WordData);
  reads : list string
}.

Definition set_partitionCache (c : LRUCache.t (list WordData)) (t : Typo) : Typo :=
  {| dictionary := dictionary t; dictionaryTable := dictionaryTable t;
     compoundRules := compoundRules t; replacementTable := replacementTable t;
     flags := flags t; memoized := memoized t; loaded := loaded t;
     alphabet := alphabet t; preCalculated := preCalculated t;
     preCalculatedPath := preCalculatedPath t; bloomFilter := bloomFilter t;
     partitionIndex := partitionIndex t; partitionCache := c;
     notFoundCache := notFoundCache t; files := files t; reads := reads t |}.

Definition set_notFoundCache (c : LRUCache.t bool) (t : Typo) : Typo :=
  {| dictionary := dictionary t; dictionaryTable := dictionaryTable t;
     compoundRules := compoundRules t; replacementTable := replacementTable t;
     flags := flags t; memoized := memoized t; loaded := loaded t;
     alphabet := alphabet t; preCalculated := preCalculated t;
     preCalculatedPath := preCalculatedPath t; bloomFilter := bloomFilter t;
     partitionIndex := partitionIndex t; partitionCache := partitionCache t;
     notFoundCache := c; files := files t; reads := reads t |}.

Definition set_reads (r : list string) (t : Typo) : Typo :=
  {| dictionary := dictionary t; dictionaryTable := dictionaryTable t;
     compoundRules := compoundRules t; replacementTable := replacementTable t;
     flags := flags t; memoized := memoized t; loaded := loaded t;
     alphabet := alphabet t; preCalculated := preCalculated t;
     preCalculatedPath := preCalculatedPath t; bloomFilter := bloomFilter t;
     partitionIndex := partitionIndex t; partitionCache := partitionCache t;
     notFoundCache := notFoundCache t; files := files t; reads := r |}.

Definition set_memoized (m : gmap string (list string * Z)) (t : Typo) : Typo :=
  {| dictionary := dictionary t; dictionaryTable := dictionaryTable t;
     compoundRules := compoundRules t; replacementTable := replacementTable t;
     flags := flags t; memoized := m; loaded := loaded t;
     alphabet := alphabet t; preCalculated := preCalculated t;
     preCalculatedPath := preCalculatedPath t; bloomFilter := bloomFilter t;
     partitionIndex := partitionIndex t; partitionCache := partitionCache t;
     notFoundCache := notFoundCache t; files := files t; reads := reads t |}.

Definition set_alphabet (a : string) (t : Typo) : Typo :=
  {| dictionary := dictionary t; dictionaryTable := dictionaryTable t;
     compoundRules := compoundRules t; replacementTable := replacementTable t;
     flags := flags t; memoized := memoized t; loaded := loaded t;
     alphabet := a; preCalculated := preCalculated t;
     preCalculatedPath := preCalculatedPath t; bloomFilter := bloomFilter t;
     partitionIndex := partitionIndex t; partitionCache := partitionCache t;
     notFoundCache := notFoundCache t; files := files t; reads := reads t |}.

(** *** Methods: computations over the instance that return or throw *)

Definition M (A : Type) : Type := Typo -> Result A * Typo.

Definition ret {A} (a : A) : M A := fun t => (Ret a, t).
Definition throw {A} (e : Exception) : M A := fun t => (Throw e, t).
Definition bind {A B} (m : M A) (k : A -> M B) : M B :=
  fun t => match m t with
           | (Ret a, t') => k a t'
           | (Throw e, t') => (Throw e, t')
           end.
Definition this : M Typo := fun t => (Ret t, t).
Definition update (f : Typo -> Typo) : M unit := fun t => (Ret tt, f t).

Notation "'do' x <- m ; k" := (bind m (fun x => k))
  (at level 10, x name, m at level 100, k at level 200).
Notation "'run' m ; k" := (bind m (fun _ => k))
  (at level 10, m at level 100, k at level 200).

(** A [for] loop over the elements of [l] that threads the value [b] *)
Fixpoint foldM {A B} (f : B -> A -> M B) (l : list A) (b : B) : M B :=
  match l with
  | [] => ret b
  | x :: l' => do b' <- f b x; foldM f l' b'
  end.

(** A [for] loop that returns [true] at the first element satisfying [f] *)
Fixpoint existsM {A} (f : A -> M bool) (l : list A) : M bool :=
  match l with
  | [] => ret false
  | x :: l' => do b <- f x; if b then ret true else existsM f l'
  end.

Definition requireLoaded : M unit :=
  do t <- this; if loaded t then ret tt else throw DictionaryNotLoaded.

(** *** The paged backend *)

(** [_getPartitionPrefix(word)] *)
Definition _getPartitionPrefix (word : string) : string :=
  if JS.length word >=? 2 then toLowerCase (JS.take 2 word)
  else toLowerCase ("_" +:+ word).

(** [_readFile(path)] followed by [JSON.parse]: an unreadable file gives
    the empty text, which [JSON.parse] rejects. *)
Definition readPartitionFile (path : string) : M (list WordData) :=
  do t <- this;
  run update (set_reads (reads t ++ [path]));
  match files t !! path with
  | Some words => ret words
  | None => throw SyntaxError
  end.

(** [basePath + '/' + partitionInfo.file] *)
Definition partitionPath (t : Typo) (partitionInfo : PartitionInfo) : string :=
  (preCalculatedPath t +:+ "/" +:+ dictionary t) +:+ "/" +:+ pi_file partitionInfo.

(** [_loadPartition(prefix)] *)
Definition _loadPartition (prefix : string) : M (list WordData) :=
  do t <- this;
  if LRUCache.has (partitionCache t) prefix then
    let '(value, c) := LRUCache.get (partitionCache t) prefix in
    run update (set_partitionCache c);
    match value with
    | Some words => ret words
    | None => throw TypeError   (* [null] is used as an array by the caller *)
    end
  else
    match partitionIndex t !! prefix with
    | None => ret []
    | Some partitionInfo =>
        do words <- readPartitionFile (partitionPath t partitionInfo);
        do t' <- this;
        run update (set_partitionCache (LRUCache.set (partitionCache t') prefix words));
        ret words
    end.

(** The [while (left <= right)] loop shared by [_binarySearch] and
    [_findWordRules]; [fuel] bounds the number of iterations and the
    result is the entry found.  An index outside the array cannot be
    reached when [0 <= left] and [right < words.length]. *)
Fixpoint searchLoop (fuel : nat) (words : list WordData) (target : string)
    (left right : Z) : option WordData :=
  match fuel with
  | O => None
  | S fuel' =>
      if left <=? right then
        let mid := (left + right) / 2 in
        match words !! Z.to_nat mid with
        | None => None
        | Some wordData =>
            let comparison := compareStrings (wd_w wordData) target in
            if comparison =? 0 then Some wordData
            else if comparison <? 0 then searchLoop fuel' words target (mid + 1) right
            else searchLoop fuel' words target left (mid - 1)
        end
      else None
  end.

Definition search (words : list WordData) (target : string) : option WordData :=
  searchLoop (S (List.length words)) words target 0 (Z.of_nat (List.length words) - 1).

(** [_binarySearch(words, target)] *)
Definition _binarySearch (words : list WordData) (target : string) : bool :=
  match search words target with
  | Some _ => true
  | None => false
  end.

(** [_findWordRules(words, target)]: [None] is [null], returned both for a
    word that is not found and for a word registered without rule codes. *)
Definition _findWordRules (words : list WordData) (target : string)
    : option (list (list string)) :=
  match search words target with
  | Some wordData => wd_r wordData
  | None => None
  end.

(** The test ["COMPOUNDMIN" in this.flags && word.length >=
    this.flags.COMPOUNDMIN] followed by the loop over the compound rules *)
Definition meetsCompoundMin (t : Typo) (word : string) : bool :=
  match flags t !! "COMPOUNDMIN" with
  | Some (Some v) =>
      match toNumber v with
      | Some n => n <=? JS.length word
      | None => false
      end
  | Some None => false      (* the directive has no value: [undefined] *)
  | None => false
  end.

Definition matchesCompoundRule (t : Typo) (word : string) : bool :=
  existsb (regexMatch word) (compoundRules t).

(** [_checkPreCalculated(word)] *)
Definition _checkPreCalculated (word : string) : M bool :=
  do t <- this;
  if LRUCache.has (notFoundCache t) word then ret false
  else if negb (BloomFilter.mightContain (bloomFilter t) word) then
    run update (set_notFoundCache (LRUCache.add (notFoundCache t) word));
    ret false
  else
    let prefix := _getPartitionPrefix word in
    do words <- _loadPartition prefix;
    let found := _binarySearch words word in
    if negb found then
      do t' <- this;
      if meetsCompoundMin t' word && matchesCompoundRule t' word then ret true
      else
        run update (set_notFoundCache (LRUCache.add (notFoundCache t') word));
        ret found
    else ret found.

(** *** The lookup engine *)

(** [Array.prototype.concat.apply([], x)] for [x] the value of
    [dictionaryTable[word]]; an element [None] is [undefined].  An own
    entry gives its codes, and [null] the empty array.  When the word is no
    own key, [x] is [undefined], which gives the empty array, or the value
    inherited under that name: a method, read as an array-like of as many
    elements [undefined] as it has parameters. *)
Definition concatCodes (word : string) (x : option (option (list (list string))))
    : list (option string) :=
  match x with
  | Some (Some ruleCodes) => map Some (concat ruleCodes)
  | Some None => []
  | None => replicate (JSObject.arity word) None
  end.

(** [wordFlags.indexOf(this.flags[flag]) !== -1]; the value [None] is
    [undefined], the value of a directive without argument. *)
Definition hasCode (value : option string) (wordFlags : list (option string)) : bool :=
  bool_decide (value ∈ wordFlags).

(** The value of [wordFlags] in [hasFlag] before the test; [None] is
    [undefined]. *)
Definition wordFlagsFor (word : string) (wordFlags : option (list string))
    : M (option (list (option string))) :=
  match wordFlags with
  | Some wf => ret (Some (map Some wf))
  | None =>
      do t <- this;
      if preCalculated t then
        let prefix := _getPartitionPrefix word in
        do words <- _loadPartition prefix;
        match _findWordRules words word with
        | Some rules => ret (Some (map Some (concat rules)))
        | None => ret None
        end
      else ret (Some (concatCodes word (dictionaryTable t !! word)))
  end.

(** [hasFlag(word, flag, wordFlags)]; [wordFlags = None] when the third
    argument is omitted. *)
Definition hasFlag (word flag : string) (wordFlags : option (list string)) : M bool :=
  run requireLoaded;
  do t <- this;
  match flags t !! flag with
  | Some value =>
      do wordFlags' <- wordFlagsFor word wordFlags;
      match wordFlags' with
      | Some wf => ret (hasCode value wf)
      | None => ret false
      end
  | None =>
      (* [flag in this.flags] also finds the name of an inherited property;
         its value is a method or the prototype object, which is no element
         of [wordFlags] *)
      if JSObject.inherited flag then
        run wordFlagsFor word wordFlags;
        ret false
      else ret false
  end.

(** [checkExact(word)] *)
Definition checkExact (word : string) : M bool :=
  run requireLoaded;
  do t <- this;
  if preCalculated t then _checkPreCalculated word
  else
    match dictionaryTable t !! word with
    | None =>
        (* [ruleCodes] is [undefined], or the value inherited under the
           name [word]: a method, for which no branch is taken, or the
           prototype object, which has no [length] *)
        if JSObject.inherited word then ret false
        else if meetsCompoundMin t word && matchesCompoundRule t word then ret true
        else ret false
    | Some None => ret true
    | Some (Some ruleCodes) =>
        existsM (fun codes =>
                   do b <- hasFlag word "ONLYINCOMPOUND" (Some codes);
                   ret (negb b))
                ruleCodes
    end.

(** [trimmedWord[0] + rest]: an [undefined] first character is converted to
    the text ["undefined"]. *)
Definition headText (s : string) : string :=
  match JS.head s with
  | Some c => JS.char c
  | None => "undefined"
  end.

(** [check(aWord)] *)
Definition check (aWord : string) : M bool :=
  run requireLoaded;
  if String.eqb aWord "" then ret false
  else
    let trimmedWord := JS.trimEnd (JS.trimStart aWord) in
    do exact <- checkExact trimmedWord;
    if exact then ret true
    else
      do stop <-
        (if String.eqb (toUpperCase trimmedWord) trimmedWord then
           let capitalizedWord :=
             headText trimmedWord +:+ toLowerCase (JS.drop 1 trimmedWord) in
           do keep <- hasFlag capitalizedWord "KEEPCASE" None;
           if keep then ret (Some false)
           else
             do b1 <- checkExact capitalizedWord;
             if b1 then ret (Some true)
             else
               do b2 <- checkExact (toLowerCase trimmedWord);
               if b2 then ret (Some true) else ret None
         else ret None);
      match stop with
      | Some b => ret b
      | None =>
          match JS.head trimmedWord with
          | None => throw TypeError     (* [undefined.toLowerCase()] *)
          | Some c =>
              let uncapitalizedWord :=
                toLowerCase (JS.char c) +:+ JS.drop 1 trimmedWord in
              if negb (String.eqb uncapitalizedWord trimmedWord) then
                do keep <- hasFlag uncapitalizedWord "KEEPCASE" None;
                if keep then ret false
                else
                  do b3 <- checkExact uncapitalizedWord;
                  if b3 then ret true else ret false
              else ret false
          end
      end.

(** *** Export to the paged layout and import *)

(** The value that [exportPreCalculated] returns: the index, the bloom
    filter, the partitions by prefix and the compound data. *)
Record Exported := {
  ex_version : Z;
  ex_language : string;
  ex_totalWords : Z;
  ex_partitionCount : Z;
  ex_bloomFilterSize : Z;
  ex_index : gmap string PartitionInfo;
  ex_bloom : BloomFilter.t;
  ex_partitions : gmap string (list WordData);
  ex_compoundRules : list RegExp;
  ex_flags : gmap string (option string);
  ex_replacementTable : list (string * string)
}.

Definition PRECALC_FORMAT_VERSION : Z := 1.

(** [allWords] after the collecting and the sorting phase *)
Definition allWords (t : Typo) : list WordData :=
  JS.sort (fun a b => compareStrings (wd_w a) (wd_w b))
    (map (fun e => {| wd_w := fst e; wd_r := snd e |})
         (map_to_list (dictionaryTable t))).

(** The bloom filter of the export: ten bits per word, three probes *)
Definition exportBloom (words : list WordData) : BloomFilter.t :=
  fold_left (fun bloom wordData => BloomFilter.add bloom (wd_w wordData)) words
    (BloomFilter.new (Z.of_nat (List.length words) * 10) 3).

(** The partitioning loop: [partitions[prefix].push({w, r})] *)
Definition exportPartitions (words : list WordData) : gmap string (list WordData) :=
  fold_left
    (fun partitions wordData =>
       let prefix := _getPartitionPrefix (wd_w wordData) in
       <[prefix := default [] (partitions !! prefix) ++ [wordData]]> partitions)
    words ∅.

Inductive ExportError :=
| MustBeLoaded          (* throw "Dictionary must be loaded before exporting" *)
| CannotExportPreCalculated
| ExportTypeError.      (* [this.dictionaryTable.hasOwnProperty] is shadowed *)

(** [exportPreCalculated()] *)
Definition exportPreCalculated (t : Typo) : ExportError + Exported :=
  if negb (loaded t) then inl MustBeLoaded
  else if preCalculated t then inl CannotExportPreCalculated
  else if bool_decide (is_Some (dictionaryTable t !! "hasOwnProperty"))
  then inl ExportTypeError
  else
    let words := allWords t in
    let totalWords := Z.of_nat (List.length words) in
    let partitions := exportPartitions words in
    inr {| ex_version := PRECALC_FORMAT_VERSION;
           ex_language := dictionary t;
           ex_totalWords := totalWords;
           ex_partitionCount := Z.of_nat (size partitions);
           ex_bloomFilterSize := totalWords * 10;
           ex_index :=
             map_imap (fun prefix ws =>
                         Some {| pi_file := "words/" +:+ prefix +:+ ".json";
                                 pi_count := Z.of_nat (List.length ws) |})
                      partitions;
           ex_bloom := exportBloom words;
           ex_partitions := partitions;
           ex_compoundRules := compoundRules t;
           ex_flags := flags t;
           ex_replacementTable := replacementTable t |}.

(** The partition files that the generator script writes for an export
    under [path]: [path/language/words/prefix.json] holds the words of
    the partition of [prefix]. *)
Definition writtenFiles (path : string) (e : Exported) : gmap string (list WordData) :=
  list_to_map
    (map (fun p => ((path +:+ "/" +:+ ex_language e) +:+ "/" +:+
                    ("words/" +:+ fst p +:+ ".json"), snd p))
         (map_to_list (ex_partitions e))).

(** The instance that [new Typo(language, null, null, {preCalculated:
    true, preCalculatedPath: path, ...})] is after [_loadPreCalculated]
    has read the files written for the export [e].  The flags go through
    JSON, which drops the directives whose value is [undefined]; a cache
    size of zero selects the default size. *)
Definition importPreCalculated (path : string) (e : Exported)
    (partitionCacheSize notFoundCacheSize : Z) : Result Typo :=
  if negb (ex_version e =? PRECALC_FORMAT_VERSION) then Throw UnsupportedVersion
  else
    Ret {| dictionary := ex_language e;
           dictionaryTable := ∅;
           compoundRules := ex_compoundRules e;
           replacementTable := ex_replacementTable e;
           flags := filter (fun kv => is_Some (snd kv)) (ex_flags e);
           memoized := ∅;
           loaded := true;
           alphabet := "";
           preCalculated := true;
           preCalculatedPath := path;
           bloomFilter := ex_bloom e;
           partitionIndex := ex_index e;
           partitionCache :=
             LRUCache.new (if partitionCacheSize =? 0 then 20 else partitionCacheSize);
           notFoundCache :=
             LRUCache.new (if notFoundCacheSize =? 0 then 10000 else notFoundCacheSize);
           files := writtenFiles path e;
           reads := [] |}.

(** *** What the lookups return

    The caches of the paged backend change with every lookup; the values
    below are the answers in terms of the data that does not change: the
    dictionary table, or the bloom filter and the partition files. *)

(** The words of the partition of [prefix], as the index and the files
    give them *)
Definition partitionOf (t : Typo) (prefix : string) : list WordData :=
  match partitionIndex t !! prefix with
  | None => []
  | Some partitionInfo => default [] (files t !! partitionPath t partitionInfo)
  end.

(** The value of [wordFlags] in [hasFlag] when the third argument is
    omitted; [None] is [undefined]. *)
Definition wordFlagsOf (t : Typo) (word : string) : option (list (option string)) :=
  if preCalculated t then
    match _findWordRules (partitionOf t (_getPartitionPrefix word)) word with
    | Some rules => Some (map Some (concat rules))
    | None => None
    end
  else Some (concatCodes word (dictionaryTable t !! word)).

(** The answer of [hasFlag(word, flag)] *)
Definition flagged (t : Typo) (word flag : string) : bool :=
  match flags t !! flag with
  | Some value =>
      match wordFlagsOf t word with
      | Some wf => hasCode value wf
      | None => false
      end
  | None => false
  end.

(** The answer of [hasFlag(word, flag, codes)] *)
Definition hasFlagIn (t : Typo) (flag : string) (codes : list string) : bool :=
  match flags t !! flag with
  | Some value => hasCode value (map Some codes)
  | None => false
  end.

Definition validCompound (t : Typo) (word : string) : bool :=
  meetsCompoundMin t word && matchesCompoundRule t word.

(** The answer of [checkExact(word)] *)
Definition exact (t : Typo) (word : string) : bool :=
  if preCalculated t then
    BloomFilter.mightContain (bloomFilter t) word
    && (_binarySearch (partitionOf t (_getPartitionPrefix word)) word
        || validCompound t word)
  else
    match dictionaryTable t !! word with
    | None => negb (JSObject.inherited word) && validCompound t word
    | Some None => true
    | Some (Some ruleCodes) =>
        existsb (fun codes => negb (hasFlagIn t "ONLYINCOMPOUND" codes)) ruleCodes
    end.

(** Two instances with the same data: they differ at most in the two
    caches of the paged backend and in the log of the files read. *)
Definition sameData (t t' : Typo) : Prop :=
  set_reads [] (set_partitionCache (LRUCache.new 0) (set_notFoundCache (LRUCache.new 0) t))
  = set_reads [] (set_partitionCache (LRUCache.new 0) (set_notFoundCache (LRUCache.new 0) t')).

(** The caches hold what the data gives: a cached partition is the
    partition of its prefix, and a word in the not-found cache is not an
    exact hit. *)
Definition cachesSound (t : Typo) : Prop :=
  (forall prefix words,
      LRUCache.mapGet prefix (LRUCache.cache (partitionCache t)) = Some words ->
      partitionOf t prefix = words)
  /\ (forall word, LRUCache.has (notFoundCache t) word = true -> exact t word = false).

(** Every partition file of the index can be read. *)
Definition filesReadable (t : Typo) : Prop :=
  forall prefix partitionInfo,
    partitionIndex t !! prefix = Some partitionInfo ->
    is_Some (files t !! partitionPath t partitionInfo).

(** An instance that has reached Ready *)
Definition Ready (t : Typo) : Prop :=
  loaded t = true
  /\ (preCalculated t = true -> cachesSound t /\ filesReadable t).

(** [m] run from [t] gives [r] and leaves an instance that is Ready and
    holds the same data. *)
Definition Returns {A} (m : M A) (t : Typo) (r : Result A) : Prop :=
  exists t', m t = (r, t') /\ sameData t t' /\ Ready t'.

(** Two instances of the same dictionary: they differ at most in the
    caches, the log, the memo of the suggestions and the alphabet. *)
Definition sameDict (t t' : Typo) : Prop :=
  set_alphabet "" (set_memoized ∅
    (set_reads [] (set_partitionCache (LRUCache.new 0)
                     (set_notFoundCache (LRUCache.new 0) t))))
  = set_alphabet "" (set_memoized ∅
      (set_reads [] (set_partitionCache (LRUCache.new 0)
                       (set_notFoundCache (LRUCache.new 0) t')))).

(** The same dictionary with the same alphabet *)
Definition sameAlphabet (t t' : Typo) : Prop :=
  sameDict t t' /\ alphabet t = alphabet t'.

(** A relation between instances that is symmetric and transitive and
    relates the instances with the same data *)
Class Coarse (R : Typo -> Typo -> Prop) : Prop := {
  coarse_sym : forall t t', R t t' -> R t' t;
  coarse_trans : forall t1 t2 t3, R t1 t2 -> R t2 t3 -> R t1 t3;
  coarse_data : forall t t', sameData t t' -> R t t'
}.

(** The result of [m] is the same on instances related by [R], and [m]
    keeps the instance Ready and its data unchanged. *)
Definition Stable (R : Typo -> Typo -> Prop) {A} (m : M A) : Prop :=
  forall t1 t2, Ready t1 -> Ready t2 -> R t1 t2 ->
    fst (m t1) = fst (m t2) /\ Ready (snd (m t1)) /\ sameData t1 (snd (m t1)).

(** [m] returns a value that satisfies [P] on every Ready instance that
    holds the data of [t0]. *)
Definition Yields (t0 : Typo) {A} (m : M A) (P : A -> Prop) : Prop :=
  forall t, sameData t0 t -> Ready t -> exists a, Returns m t (Ret a) /\ P a.

(** *** The suggestion engine *)

(** The default alphabet extended by the [TRY] and [WORDCHARS] flags; a
    directive without a value appends the text of [undefined]. *)
Definition flagText (t : Typo) (flag : string) : string :=
  match flags t !! flag with
  | Some (Some v) => v
  | Some None => "undefined"
  | None => ""
  end.

Definition rawAlphabet (t : Typo) : string :=
  "abcdefghijklmnopqrstuvwxyzABCDEFGHIJKLMNOPQRSTUVWXYZ"
  +:+ flagText t "TRY" +:+ flagText t "WORDCHARS".

(** [alphaArray.sort()], the collection of the characters as keys of
    [alphaHash], and the concatenation of the keys in enumeration order *)
Definition initAlphabet (t : Typo) : string :=
  let alphaArray :=
    JS.sort (fun a b => JS.charCode a - JS.charCode b) (JS.chars (rawAlphabet t)) in
  let alphaHash :=
    fold_left (fun h c => JS.objSet (JS.char c) true h) alphaArray [] in
  fold_left (fun a e => a +:+ fst e) (JS.forIn alphaHash) "".

(** [o[key] += w] for a key that is no own key of [o] and names an
    inherited property: the inherited value is converted to its text, and
    the sum becomes an own property, except under the key ["__proto__"],
    where the assignment of a text is ignored. *)
Definition addToInherited (key : string) (w : Weight) (o : JS.Obj Weight)
    : JS.Obj Weight :=
  if String.eqb key "__proto__" then o
  else JS.objSet key (Text (inheritedText key +:+ weightText w)) o.

(** [if (!(_edit in rv)) rv[_edit] = 1; else rv[_edit] += 1;] *)
Definition countEdit (_edit : string) (rv : JS.Obj Weight) : JS.Obj Weight :=
  match JS.objGet _edit rv with
  | Some w => JS.objSet _edit (addWeights w (Num 1)) rv
  | None =>
      if JSObject.inherited _edit then addToInherited _edit (Num 1) rv
      else JS.objSet _edit (Num 1) rv
  end.

(** [if (!known_only || self.check(_edit)) { ... }] *)
Definition addEdit (known_only : bool) (_edit : string) (rv : JS.Obj Weight)
    : M (JS.Obj Weight) :=
  if negb known_only then ret (countEdit _edit rv)
  else
    do known <- check _edit;
    if known then ret (countEdit _edit rv) else ret rv.

Definition isUpper (s : string) : bool := String.eqb (toUpperCase s) s.

(** The body of the loop over the split positions [i] of [word_1];
    [letters] are the characters of [self.alphabet]. *)
Definition editsAt (letters : list string) (known_only : bool) (word_1 : string)
    (rv : JS.Obj Weight) (i : nat) : M (JS.Obj Weight) :=
  let s0 := JS.take i word_1 in
  let s1 := JS.drop i word_1 in
  (* Remove a letter. *)
  do rv <- (if negb (String.eqb s1 "") then
              addEdit known_only (s0 +:+ JS.drop 1 s1) rv
            else ret rv);
  (* Transpose letters, unless they are identical. *)
  do rv <- (match s1 with
            | String a (String b rest) =>
                if negb (Ascii.eqb b a) then
                  addEdit known_only (s0 +:+ JS.char b +:+ JS.char a +:+ rest) rv
                else ret rv
            | _ => ret rv
            end);
  (* Replace a letter with another letter. *)
  do rv <- (if negb (String.eqb s1 "") then
              let uppercase := isUpper (JS.take 1 s1) in
              foldM (fun rv letter =>
                       let replacementLetter :=
                         if uppercase then toUpperCase letter else letter in
                       if negb (String.eqb replacementLetter (JS.take 1 s1)) then
                         addEdit known_only
                           (s0 +:+ replacementLetter +:+ JS.drop 1 s1) rv
                       else ret rv)
                    letters rv
            else ret rv);
  (* Add a letter between each letter; [s[0].substring(-1)] is [s[0]]. *)
  if negb (String.eqb s1 "") then
    foldM (fun rv letter =>
             let uppercase := isUpper s0 && isUpper (JS.take 1 s1) in
             let replacementLetter :=
               if uppercase then toUpperCase letter else letter in
             addEdit known_only (s0 +:+ replacementLetter +:+ s1) rv)
          letters rv
  else ret rv.

(** [edits1(words, known_only)] *)
Definition edits1 {V} (words : JS.Obj V) (known_only : bool) : M (JS.Obj Weight) :=
  do t <- this;
  let letters := map JS.char (JS.chars (alphabet t)) in
  foldM (fun rv e =>
           let word_1 := fst e in
           foldM (editsAt letters known_only word_1)
                 (seq 0 (S (String.length word_1))) rv)
        (JS.forIn words) [].

(** The loop that adds the correct edit-distance-1 words to [ed2] *)
Definition addEd1 (weighted_corrections : JS.Obj Weight) (e : string * Weight)
    : M (JS.Obj Weight) :=
  let ed1word := fst e in
  do known <- check ed1word;
  if negb known then ret weighted_corrections
  else
    match JS.objGet ed1word weighted_corrections with
    | Some w => ret (JS.objSet ed1word (addWeights w (snd e)) weighted_corrections)
    | None =>
        (* [ed1word in weighted_corrections] also finds an inherited name *)
        if JSObject.inherited ed1word then
          ret (addToInherited ed1word (snd e) weighted_corrections)
        else ret (JS.objSet ed1word (snd e) weighted_corrections)
    end.

(** The loop that builds [sorted_corrections] before it is sorted *)
Definition pushCorrection (sorted_corrections : list (string * Weight))
    (e : string * Weight) : M (list (string * Weight)) :=
  do priority <- hasFlag (fst e) "PRIORITYSUGGEST" None;
  let weight := if priority then addWeights (snd e) (Num 1000) else snd e in
  ret (sorted_corrections ++ [(fst e, weight)]).

(** [sorter(a, b)] *)
Definition sorter (a b : string * Weight) : Z :=
  let a_val := snd a in
  let b_val := snd b in
  if lessThan a_val b_val then -1
  else if lessThan b_val a_val then 1
  else localeCompare (fst b) (fst a).

(** [sorted_corrections.sort(sorter).reverse()].  With weights that are
    all numbers [sorter] is a consistent comparison and the sorted order is
    the one of every stable sort; with a text among the weights the order
    of [Array.prototype.sort] depends on the implementation when the array
    holds more than two entries, and the model gives that of the insertion
    sort. *)
Definition rank (sorted_corrections : list (string * Weight)) : list (string * Weight) :=
  rev (JS.sort sorter sorted_corrections).



Inductive Capitalization := Lowercase | Uppercase | Capitalized.

Definition capitalization_scheme (word : string) : Capitalization :=
  if String.eqb (toUpperCase word) word then Uppercase
  else if String.eqb (toUpperCase (JS.take 1 word) +:+ toLowerCase (JS.drop 1 word)) word
       then Capitalized
       else Lowercase.

Definition recase (scheme : Capitalization) (c : string) : string :=
  match scheme with
  | Uppercase => toUpperCase c
  | Capitalized => toUpperCase (JS.take 1 c) +:+ JS.drop 1 c
  | Lowercase => c
  end.

(** The loop [for (i = 0; i < Math.min(working_limit,
    sorted_corrections.length); i++)]: [rest] holds the entries from
    index [i] on. *)
Fixpoint collect (scheme : Capitalization) (rest : list (string * Weight))
    (i working_limit : Z) (rv : list string) : M (list string) :=
  match rest with
  | [] => ret rv
  | e :: rest' =>
      if i <? working_limit then
        let c := recase scheme (fst e) in
        do nosuggest <- hasFlag c "NOSUGGEST" None;
        if negb nosuggest && negb (bool_decide (c ∈ rv)) then
          collect scheme rest' (i + 1) working_limit (rv ++ [c])
        else collect scheme rest' (i + 1) (working_limit + 1) rv
      else ret rv
  end.

(** The first part of [correct(word)]: the edits at distance one and two and
    their weights, [weighted_corrections] *)
Definition weightedCorrections (word : string) : M (JS.Obj Weight) :=
  (* [_a = {}, _a[word] = true]: the assignment to ["__proto__"] is ignored *)
  do ed1 <- edits1 (if String.eqb word "__proto__" then [] else [(word, true)]) false;
  do ed2 <- edits1 ed1 true;
  foldM addEd1 (JS.forIn ed1) ed2.

(** The second part: [sorted_corrections] after [sort(sorter).reverse()] *)
Definition sortedCorrections (word : string) : M (list (string * Weight)) :=
  do weighted_corrections <- weightedCorrections word;
  (* [weighted_corrections.hasOwnProperty(i)]: a candidate of that name
     shadows the method *)
  if bool_decide (is_Some (JS.objGet "hasOwnProperty" weighted_corrections))
  then throw TypeError
  else
    do sorted_corrections <- foldM pushCorrection (JS.forIn weighted_corrections) [];
    ret (rank sorted_corrections).

(** [correct(word)], with the [limit] of the enclosing call *)
Definition correct (word : string) (limit : Z) : M (list string) :=
  do sorted_corrections <- sortedCorrections word;
  collect (capitalization_scheme word) sorted_corrections 0 limit [].

(** The entry that [pushCorrection] pushes for [e]: a candidate with the
    priority-suggest flag has 1000 added to its weight. *)
Definition boosted (t : Typo) (e : string * Weight) : string * Weight :=
  (fst e, if flagged t (fst e) "PRIORITYSUGGEST" then addWeights (snd e) (Num 1000) else snd e).




(** The loop over the replacement table: the first corrected word that
    checks, if any *)
Fixpoint tryReplacements (word : string) (table : list (string * string))
    : M (option string) :=
  match table with
  | [] => ret None
  | replacementEntry :: table' =>
      if JS.includes (fst replacementEntry) word then
        let correctedWord := JS.replace (fst replacementEntry) (snd replacementEntry) word in
        do ok <- check correctedWord;
        if ok then ret (Some correctedWord) else tryReplacements word table'
      else tryReplacements word table'
  end.

(** The part of [suggest] after the memo lookup *)
Definition suggestFresh (word : string) (limit : Z) : M (list string) :=
  do isCorrect <- check word;
  if isCorrect then ret []
  else
    do t <- this;
    do replaced <- tryReplacements word (replacementTable t);
    match replaced with
    | Some correctedWord => ret [correctedWord]
    | None =>
        do t1 <- this;
        run (if String.eqb (alphabet t1) "" then update (set_alphabet (initAlphabet t1))
             else ret tt);
        do suggestions <- correct word limit;
        do t2 <- this;
        (* [this.memoized[word] = {...}]: under the key ["__proto__"] the
           assignment sets the prototype of the memo and creates no entry *)
        run update (set_memoized
                      (if String.eqb word "__proto__" then memoized t2
                       else <[word := (suggestions, limit)]> (memoized t2)));
        ret suggestions
    end.

(** [suggest(word, limit)]; an omitted [limit] behaves as [0] *)
Definition suggest (word : string) (limit : Z) : M (list string) :=
  run requireLoaded;
  let limit := if limit =? 0 then 5 else limit in
  do t <- this;
  (* [this.memoized.hasOwnProperty(word)]: an entry memoized for the word
     "hasOwnProperty" shadows the method *)
  if bool_decide (is_Some (memoized t !! "hasOwnProperty")) then throw TypeError
  else
    match memoized t !! word with
    | Some (suggestions, memoizedLimit) =>
        if (limit <=? memoizedLimit)
           || (Z.of_nat (List.length suggestions) <? memoizedLimit)
        then ret (JS.slice0 limit suggestions)
        else suggestFresh word limit
    | None => suggestFresh word limit
    end.

(** *** What [suggest] returns *)

(** The candidates of [rest] that the loop of [correct] would push if it had
    no limit, when [rv] holds the suggestions pushed so far *)
Fixpoint accepted (t : Typo) (scheme : Capitalization) (rest : list (string * Weight))
    (rv : list string) : list string :=
  match rest with
  | [] => []
  | e :: rest' =>
      let c := recase scheme (fst e) in
      if negb (flagged t c "NOSUGGEST") && negb (bool_decide (c ∈ rv)) then
        c :: accepted t scheme rest' (rv ++ [c])
      else accepted t scheme rest' rv
  end.

(** The alphabet that the edits use: the one of the instance, or the
    initial alphabet when the instance has none yet *)
Definition effectiveAlphabet (t : Typo) : string :=
  if String.eqb (alphabet t) "" then initAlphabet t else alphabet t.

(** The result of the part of [suggest] after the memo lookup, in terms of
    the results of [check], of the replacement loop and of the ranking *)
Definition freshResult (t : Typo) (word : string) (limit : Z) : Result (list string) :=
  match fst (check word t) with
  | Throw e => Throw e
  | Ret true => Ret []
  | Ret false =>
      match fst (tryReplacements word (replacementTable t) t) with
      | Throw e => Throw e
      | Ret (Some correctedWord) => Ret [correctedWord]
      | Ret None =>
          match fst (sortedCorrections word (set_alphabet (effectiveAlphabet t) t)) with
          | Throw e => Throw e
          | Ret sorted_corrections =>
              Ret (List.firstn (Z.to_nat limit)
                     (accepted t (capitalization_scheme word) sorted_corrections []))
          end
      end
  end.

(** Every entry of the memo holds what a computation without the memo
    returns for its word and its limit. *)
Definition memoSound (t : Typo) : Prop :=
  forall word suggestions limit,
    memoized t !! word = Some (suggestions, limit) ->
    fst (suggestFresh word limit t) = Ret suggestions.

(** The characters that the edits insert, as they are and in upper case,
    and the replacements of the table hold no white space. *)
Definition spaceFreeAlphabet (t : Typo) : bool :=
  forallb (fun c => JS.spaceFree (JS.char c) && JS.spaceFree (toUpperCase (JS.char c)))
          (JS.chars (effectiveAlphabet t)).

Definition spaceFreeReplacements (t : Typo) : bool :=
  forallb (fun e => JS.spaceFree (snd e)) (replacementTable t).


(** Every key of [o] is a word that [check] accepts. *)
Definition knownKeys (t : Typo) {V} (o : JS.Obj V) : Prop :=
  Forall (fun e => fst (check (fst e) t) = Ret true) o.

(** Every key of [o] that names no inherited property has a number as
    its weight. *)
Definition numericOutside (o : JS.Obj Weight) : Prop :=
  Forall (fun e => JSObject.inherited (fst e) = false -> exists n, snd e = Num n) o.

(** What holds of the edits that [edits1] has collected: no key holds white
    space, the keys that name no inherited property count numbers, and with
    [known_only] every key is a word that [check] accepts. *)
Definition editKeys (t : Typo) (known_only : bool) (rv : JS.Obj Weight) : Prop :=
  JS.spaceFreeKeys rv /\ numericOutside rv /\ (known_only = true -> knownKeys t rv).

End Engine.

Arguments Typo {_}.
Arguments M {_} _.
Arguments Exported {_}.

(** ** A concrete platform: ASCII case mapping, code-unit collation, decimal
    numerals, and compound patterns made of rule codes only *)

Module Ascii7.

Definition upperChar (c : ascii) : ascii :=
  let n := JS.charCode c in
  if (97 <=? n) && (n <=? 122) then ascii_of_N (Z.to_N (n - 32)) else c.

Definition lowerChar (c : ascii) : ascii :=
  let n := JS.charCode c in
  if (65 <=? n) && (n <=? 90) then ascii_of_N (Z.to_N (n + 32)) else c.

Fixpoint mapChars (f : ascii -> ascii) (s : string) : string :=
  match s with
  | EmptyString => EmptyString
  | String c s' => String (f c) (mapChars f s')
  end.

Definition upper : string -> string := mapChars upperChar.
Definition lower : string -> string := mapChars lowerChar.

Definition number (s : string) : option Z := JS.digitsValue s 0.

(** A compound rule whose characters are all rule codes compiles to
    [^(w|...)(w|...)...$] with the flag [i]: a sequence of alternations. *)
Definition Pattern : Type := list (list string).

Fixpoint matchSeq (groups : Pattern) (s : string) : bool :=
  match groups with
  | [] => String.eqb s ""
  | g :: groups' =>
      existsb (fun alt =>
                 JS.isPrefix (lower alt) s
                 && matchSeq groups' (JS.drop (String.length alt) s))
              g
  end.

Definition test (word : string) (re : Pattern) : bool :=
  matchSeq re (lower word).

(** The text of the inherited values, as Node.js prints native methods *)
Definition nativeText (name : string) : string :=
  if String.eqb name "__proto__" then "[object Object]"
  else "function " +:+ (if String.eqb name "constructor" then "Object" else name)
       +:+ "() { [native code] }".

Definition builtins : Builtins :=
  {| toUpperCase := upper;
     toLowerCase := lower;
     localeCompare := compareStrings;
     toNumber := number;
     RegExp := Pattern;
     regexMatch := test;
     inheritedText := nativeText |}.

End Ascii7.
(** ** Example dictionaries *)

Module Examples.

#[local] Existing Instance Ascii7.builtins.

(** An instance in in-memory mode after [setup] has run, given its table,
    compiled compound rules, replacement table and flags.  The fields of the
    paged backend, which the constructor leaves [null], hold empty values. *)
Definition inMemory (table : gmap string (option (list (list string))))
    (rules : list Ascii7.Pattern) (replacements : list (string * string))
    (flagTable : gmap string (option string)) : Typo :=
  {| dictionary := "xx_XX";
     dictionaryTable := table;
     compoundRules := rules;
     replacementTable := replacements;
     flags := flagTable;
     memoized := ∅;
     loaded := true;
     alphabet := "";
     preCalculated := false;
     preCalculatedPath := "";
     bloomFilter := BloomFilter.new 0 3;
     partitionIndex := ∅;
     partitionCache := LRUCache.new 20;
     notFoundCache := LRUCache.new 10000;
     files := ∅;
     reads := [] |}.

(** The paged instance obtained by exporting [t] and importing the export
    from the directory ["dicts"], with the given partition-cache size *)
Definition paged (t : Typo) (partitionCacheSize : Z) : Result Typo :=
  match exportPreCalculated t with
  | inr e => importPreCalculated "dicts" e partitionCacheSize 0
  | inl _ => Throw DictionaryNotLoaded
  end.

(** "the" without codes, "cat" with the suffix code S, and the replacement
    pair ("teh", "the") *)
Definition plain : Typo :=
  inMemory {[ "the" := None; "cat" := Some [["S"]]; "cats" := None ]}
           [] [("teh", "the")] ∅.

(** "Nasa" is tagged keep-case (code K) and "nasa" is a plain word. *)
Definition keepCase : Typo :=
  inMemory {[ "Nasa" := Some [["K"]]; "nasa" := None ]} [] []
           {[ "KEEPCASE" := Some "K" ]}.

(** The scenario "NASA" tagged keep-case *)
Definition nasa : Typo :=
  inMemory {[ "NASA" := Some [["K"]] ]} [] [] {[ "KEEPCASE" := Some "K" ]}.

(** "foot" may only occur in compounds (code c). *)
Definition onlyInCompound : Typo :=
  inMemory {[ "foot" := Some [["c"]]; "ball" := None ]} [] []
           {[ "ONLYINCOMPOUND" := Some "c" ]}.

(** The pattern [^(cat|dog)(cat|dog)$] of a compound rule over one code that
    tags "cat" and "dog" *)
Definition catDogRule : Ascii7.Pattern := [["cat"; "dog"]; ["cat"; "dog"]].

(** Compound rule with a compound minimum of 3 *)
Definition compoundMin3 : Typo :=
  inMemory {[ "cat" := Some [["A"]]; "dog" := Some [["A"]] ]} [catDogRule] []
           {[ "COMPOUNDMIN" := Some "3" ]}.


(** Two words at the same distance from "xat" *)
Definition batCat : Typo :=
  inMemory {[ "bat" := None; "cat" := None ]} [] [] ∅.

(** "bat" is tagged no-suggest (code N) and "cat" is a plain word. *)
Definition noSuggest : Typo :=
  inMemory {[ "bat" := Some [["N"]]; "cat" := None ]} [] []
           {[ "NOSUGGEST" := Some "N" ]}.


(** A compound rule over "value" and "of" with a compound minimum of 3 *)
Definition valueOfCompound : Typo :=
  inMemory {[ "value" := Some [["A"]]; "of" := Some [["A"]] ]}
           [[["value"; "of"]; ["value"; "of"]]] []
           {[ "COMPOUNDMIN" := Some "3" ]}.

(** The replacement pair ("x", "$&y"), whose replacement text holds the
    pattern for the matched text, and the word "caxy" *)
Definition dollarPattern : Typo :=
  inMemory {[ "caxy" := None ]} [] [("x", "$&y")] ∅.



(** Words in three partitions, for a partition cache of capacity 2 *)
Definition threePrefixes : Typo :=
  inMemory {[ "apple" := None; "bread" := None; "cheese" := None ]} [] [] ∅.

(** [threePrefixes] exported and imported with a partition cache of
    capacity 2, and the instance after lookups in the partitions "ap", "br"
    and "ch" *)
Definition pagedThree : Typo :=
  match paged threePrefixes 2 with
  | Ret p => p
  | Throw _ => threePrefixes
  end.

Definition afterThreeLoads : Typo :=
  snd (_loadPartition "ch" (snd (_loadPartition "br" (snd (_loadPartition "ap" pagedThree))))).

End Examples.

(** ** Further functions of [typo.js] *)

(** *** [BloomFilter.prototype.toJSON] and [fromJSON] *)

Module BloomFilterJSON.

(** The value of [toJSON()], which [JSON.stringify] writes to [bloom.json] *)
Record Json := { js_size : Z; js_numHashes : Z; js_bits : list Z }.

(** [toJSON()]: [Array.from(this.bits)] *)
Definition toJSON (f : BloomFilter.t) : Json :=
  {| js_size := BloomFilter.size f;
     js_numHashes := BloomFilter.numHashes f;
     js_bits := BloomFilter.bits f |}.

(** [fromJSON(data)]: [new Uint8Array(data.bits)] converts every number to
    an unsigned byte. *)
Definition fromJSON (f : BloomFilter.t) (data : Json) : BloomFilter.t :=
  {| BloomFilter.size := js_size data;
     BloomFilter.numHashes := js_numHashes data;
     BloomFilter.bits := map (fun b => b mod 256) (js_bits data) |}.

(** The two statements of [_loadPreCalculated] that restore the filter:
    [new BloomFilter(bloomJson.size, bloomJson.numHashes)] and
    [fromJSON(bloomJson)], for a size above -8 (see
    [BloomFilter.construct]). *)
Definition restore (bloomJson : Json) : BloomFilter.t :=
  fromJSON (BloomFilter.new (js_size bloomJson) (js_numHashes bloomJson)) bloomJson.

End BloomFilterJSON.

(** *** What a sequence of cache calls has stored *)

Module LRUHistory.

(** The value of the last [set(key, _)] among [ops], or [init] when there
    is none *)
Definition lastSet {V} (key : string) (ops : list (LRUCache.Op V)) (init : option V)
    : option V :=
  fold_left (fun acc o =>
               match o with
               | LRUCache.OpSet k v => if String.eqb k key then Some v else acc
               | LRUCache.OpGet _ => acc
               end)
            ops init.

End LRUHistory.

(** *** Splitting a text *)

Module JSText.

(** [s.split(sep)] for a separator of one character: the pieces between
    the occurrences of the separator, at least one piece. *)
Fixpoint split (sep : ascii) (s : string) : list string :=
  match s with
  | EmptyString => [EmptyString]
  | String c s' =>
      if Ascii.eqb c sep then EmptyString :: split sep s'
      else match split sep s' with
           | piece :: pieces => String c piece :: pieces
           | [] => [String c EmptyString]
           end
  end.

(** The loop [for (i = 0; i < len; i += 2) flags.push(textCodes.substr(i, 2))] *)
Fixpoint pairs (s : string) : list string :=
  match s with
  | EmptyString => []
  | String a EmptyString => [String a EmptyString]
  | String a (String b s') => String a (String b EmptyString) :: pairs s'
  end.

(** [a.join(sep)] *)
Fixpoint join (sep : string) (a : list string) : string :=
  match a with
  | [] => EmptyString
  | x :: a' =>
      match a' with
      | [] => x
      | _ :: _ => x +:+ sep +:+ join sep a'
      end
  end.

End JSText.

(** *** The dictionary table under construction *)

Module Table.

Definition t : Type := gmap string (option (list (list string))).





End Table.

Section Loader.
Context `{Builtins}.

(** [parseRuleCodes(textCodes)]; [None] is an [undefined] argument.  On
    strings of code units below 256 [Array.from(textCodes)] and
    [textCodes.split("")] give the same array. *)
Definition parseRuleCodes (t : Typo) (textCodes : option string) : list string :=
  match textCodes with
  | None => []
  | Some EmptyString => []
  | Some textCodes =>
      match flags t !! "FLAG" with
      | None => map JS.char (JS.chars textCodes)
      | Some value =>
          if bool_decide (value = Some "long") then JSText.pairs textCodes
          else if bool_decide (value = Some "num") then JSText.split "," textCodes
          else if bool_decide (value = Some "UTF-8") then map JS.char (JS.chars textCodes)
          else map JS.char (JS.chars textCodes)
      end
  end.

(** The entries of [words] whose word has the partition prefix [prefix],
    in the order of [words] *)
Definition withPrefix (prefix : string) (words : list WordData) : list WordData :=
  List.filter (fun wordData => String.eqb (_getPartitionPrefix (wd_w wordData)) prefix)
              words.


(** The instance that [new Typo()] gives without a dictionary: the
    constructor leaves [loaded] false.  The fields that hold [null] hold
    empty values. *)
Definition unloaded : Typo :=
  {| dictionary := ""; dictionaryTable := ∅; compoundRules := [];
     replacementTable := []; flags := ∅; memoized := ∅; loaded := false;
     alphabet := ""; preCalculated := false; preCalculatedPath := "";
     bloomFilter := BloomFilter.new 0 0; partitionIndex := ∅;
     partitionCache := LRUCache.new 0; notFoundCache := LRUCache.new 0;
     files := ∅; reads := [] |}.


End Loader.

(** * Properties *)

(** ** The bloom filter has no false negatives *)

Module BloomFacts.
Import BloomFilter.

Lemma shl_1_small (o : Z) : 0 <= o < 8 -> JS.shl 1 o = 2 ^ o.
Proof.
  intros Ho.
  assert (o = 0 \/ o = 1 \/ o = 2 \/ o = 3 \/ o = 4 \/ o = 5 \/ o = 6 \/ o = 7)
    as Hc by lia.
  destruct Hc as [->|[->|[->|[->|[->|[->|[->| ->]]]]]]]; reflexivity.
Qed.

Lemma land_pow2_eq0 (b o : Z) :
  0 <= o -> (Z.land b (2 ^ o) =? 0) = negb (Z.testbit b o).
Proof.
  intros Ho. destruct (Z.testbit b o) eqn:Hb; simpl.
  - apply Z.eqb_neq. intros Hz.
    assert (Z.testbit (Z.land b (2 ^ o)) o = true) as Ht.
    { rewrite Z.land_spec, Hb, Z.pow2_bits_true by lia. reflexivity. }
    rewrite Hz, Z.bits_0 in Ht. discriminate.
  - apply Z.eqb_eq. apply Z.bits_inj'. intros m Hm.
    rewrite Z.land_spec, Z.bits_0, Z.pow2_bits_eqb by lia.
    destruct (Z.eqb_spec o m) as [->|]; [rewrite Hb|]; auto using andb_false_r.
Qed.

Lemma hashStep_nonneg h c : 0 <= hashStep h c.
Proof. unfold hashStep, JS.toUint32. apply Z.mod_pos_bound. lia. Qed.

Lemma hash_nonneg w i : 0 <= i -> 0 <= _hash w i.
Proof.
  intros Hi. unfold _hash.
  assert (0 <= 5381 + i * 1000) as Hb by lia.
  revert Hb. generalize (5381 + i * 1000).
  induction (JS.chars w) as [|c cs IH]; intros z Hz; simpl; [exact Hz|].
  apply IH, hashStep_nonneg.
Qed.

(** The bit index that the probe [i] of [word] addresses *)
Lemma rem_bitIndex f w i :
  0 < size f -> 0 <= i ->
  exists k, JS.rem (_hash w i) (size f) = Some k /\ 0 <= k < size f.
Proof.
  intros Hs Hi. unfold JS.rem.
  destruct (Z.eqb_spec (size f) 0) as [Hz|_]; [lia|].
  eexists; split; [reflexivity|].
  pose proof (hash_nonneg w i Hi).
  rewrite Z.rem_mod_nonneg by lia. apply Z.mod_pos_bound; lia.
Qed.

Lemma size_addProbe w f i : size (addProbe w f i) = size f.
Proof. unfold addProbe. destruct (JS.rem _ _); reflexivity. Qed.

Lemma numHashes_addProbe w f i : numHashes (addProbe w f i) = numHashes f.
Proof. unfold addProbe. destruct (JS.rem _ _); reflexivity. Qed.

Lemma length_addProbe w f i :
  List.length (bits (addProbe w f i)) = List.length (bits f).
Proof.
  unfold addProbe. destruct (JS.rem _ _); simpl; [|reflexivity].
  apply length_insert.
Qed.

Lemma wellSized_addProbe w f i : wellSized f -> wellSized (addProbe w f i).
Proof.
  unfold wellSized. rewrite size_addProbe, length_addProbe. auto.
Qed.

Lemma byte_in_range f k :
  wellSized f -> 0 <= k < size f ->
  (Z.to_nat (k / 8) < List.length (bits f))%nat.
Proof.
  intros [Hs Hl] Hk.
  assert (k / 8 < (size f + 7) / 8).
  { apply Z.div_lt_upper_bound; [lia|].
    pose proof (Z.mul_div_le (size f + 7) 8 ltac:(lia)).
    pose proof (Z.mod_pos_bound (size f + 7) 8 ltac:(lia)).
    pose proof (Z.div_mod (size f + 7) 8 ltac:(lia)). lia. }
  assert (0 <= k / 8) by (apply Z.div_pos; lia). lia.
Qed.

(** What one iteration of [add] does to the bit [k] *)
Lemma bitAt_addProbe w f i j k :
  wellSized f -> 0 <= i ->
  JS.rem (_hash w i) (size f) = Some j ->
  0 <= k < size f ->
  bitAt (bits (addProbe w f i)) k = (k =? j) || bitAt (bits f) k.
Proof.
  intros Hw Hi Hj Hk.
  destruct (rem_bitIndex f w i (proj1 Hw) Hi) as (j' & Hj' & Hjr).
  rewrite Hj in Hj'. injection Hj' as <-.
  unfold addProbe. rewrite Hj. simpl.
  rewrite Z.rem_mod_nonneg by lia.
  pose proof (Z.mod_pos_bound j 8 ltac:(lia)) as Hjo.
  pose proof (Z.mod_pos_bound k 8 ltac:(lia)) as Hko.
  rewrite shl_1_small by lia.
  pose proof (byte_in_range f j Hw Hjr) as Hjb.
  unfold bitAt, readByte.
  destruct (Z.eqb_spec (k / 8) (j / 8)) as [Heq|Hne].
  - rewrite Heq, list_lookup_insert_eq by lia. simpl.
    change 256 with (2 ^ 8).
    rewrite Z.mod_pow2_bits_low by lia.
    rewrite Z.lor_spec, Z.pow2_bits_eqb by lia.
    rewrite orb_comm. f_equal.
    destruct (Z.eqb_spec (j mod 8) (k mod 8)) as [Hm|Hm];
      destruct (Z.eqb_spec k j) as [Hkj|Hkj]; try reflexivity.
    + exfalso. apply Hkj.
      rewrite (Z.div_mod k 8), (Z.div_mod j 8) by lia. lia.
    + exfalso. subst. lia.
  - rewrite list_lookup_insert_ne.
    2:{ intros Hc. apply Hne. apply Z2Nat.inj in Hc; [lia| |];
        apply Z.div_pos; lia. }
    destruct (Z.eqb_spec k j) as [->|]; [lia|reflexivity].
Qed.

(** The test of [mightContain] reads the bit that [add] sets. *)
Lemma probeSet_bitAt w f i j :
  0 <= j -> JS.rem (_hash w i) (size f) = Some j ->
  probeSet w f i = bitAt (bits f) j.
Proof.
  intros Hj Hr. unfold probeSet. rewrite Hr.
  rewrite Z.rem_mod_nonneg by lia.
  pose proof (Z.mod_pos_bound j 8 ltac:(lia)).
  rewrite shl_1_small, land_pow2_eq0 by lia.
  apply negb_involutive.
Qed.

Lemma probeSet_addProbe_same w f i :
  wellSized f -> 0 <= i -> probeSet w (addProbe w f i) i = true.
Proof.
  intros Hw Hi.
  destruct (rem_bitIndex f w i (proj1 Hw) Hi) as (j & Hj & Hjr).
  rewrite (probeSet_bitAt w _ i j); [|lia|by rewrite size_addProbe].
  rewrite (bitAt_addProbe w f i j j) by (auto; lia).
  rewrite Z.eqb_refl. reflexivity.
Qed.

Lemma probeSet_addProbe_mono w w' f i i' :
  wellSized f -> 0 <= i -> 0 <= i' ->
  probeSet w f i = true -> probeSet w (addProbe w' f i') i = true.
Proof.
  intros Hw Hi Hi' Hp.
  destruct (rem_bitIndex f w i (proj1 Hw) Hi) as (j & Hj & Hjr).
  destruct (rem_bitIndex f w' i' (proj1 Hw) Hi') as (j' & Hj' & Hjr').
  rewrite (probeSet_bitAt w f i j) in Hp by (auto; lia).
  rewrite (probeSet_bitAt w _ i j); [|lia|by rewrite size_addProbe].
  rewrite (bitAt_addProbe w' f i' j' j) by (auto; lia).
  rewrite Hp. apply orb_true_r.
Qed.

Lemma probes_nonneg f i : In i (probes f) -> 0 <= i.
Proof. unfold probes. rewrite in_map_iff. intros (n & <- & _). lia. Qed.

(** Iterations of [add] keep the probes that are already set. *)
Lemma addProbes_mono w w' f l i :
  wellSized f -> 0 <= i -> (forall i', In i' l -> 0 <= i') ->
  probeSet w f i = true ->
  probeSet w (fold_left (addProbe w') l f) i = true.
Proof.
  revert f. induction l as [|i' l IH]; intros f Hw Hi Hl Hp; simpl; [exact Hp|].
  apply IH; auto using wellSized_addProbe.
  - intros; apply Hl; right; assumption.
  - apply probeSet_addProbe_mono; auto. apply Hl. left; reflexivity.
Qed.

Lemma addProbes_wellSized w f l :
  wellSized f -> wellSized (fold_left (addProbe w) l f).
Proof.
  revert f. induction l as [|i l IH]; intros f Hw; simpl; auto using wellSized_addProbe.
Qed.

Lemma addProbes_numHashes w f l :
  numHashes (fold_left (addProbe w) l f) = numHashes f.
Proof.
  revert f. induction l as [|i l IH]; intros f; simpl; [reflexivity|].
  rewrite IH. apply numHashes_addProbe.
Qed.

Lemma addProbes_set w f l i :
  wellSized f -> (forall i', In i' l -> 0 <= i') -> In i l ->
  probeSet w (fold_left (addProbe w) l f) i = true.
Proof.
  revert f. induction l as [|i' l IH]; intros f Hw Hl Hin; simpl; [destruct Hin|].
  destruct Hin as [->|Hin].
  - apply addProbes_mono; auto using wellSized_addProbe.
    + apply Hl; left; reflexivity.
    + intros; apply Hl; right; assumption.
    + apply probeSet_addProbe_same; auto. apply Hl; left; reflexivity.
  - apply IH; auto using wellSized_addProbe.
    intros; apply Hl; right; assumption.
Qed.

Lemma wellSized_add f w : wellSized f -> wellSized (add f w).
Proof. apply addProbes_wellSized. Qed.

Lemma numHashes_add f w : numHashes (add f w) = numHashes f.
Proof. apply addProbes_numHashes. Qed.

Lemma mightContain_add f w : wellSized f -> mightContain (add f w) w = true.
Proof.
  intros Hw. unfold mightContain. apply forallb_forall. intros i Hi.
  unfold probes in Hi. rewrite numHashes_add in Hi. fold (probes f) in Hi.
  unfold add. apply addProbes_set; auto.
  intros i'; apply probes_nonneg.
Qed.

Lemma mightContain_add_mono f w w' :
  wellSized f -> mightContain f w = true -> mightContain (add f w') w = true.
Proof.
  intros Hw. unfold mightContain. rewrite !forallb_forall. intros Hp i Hi.
  unfold probes in Hi. rewrite numHashes_add in Hi. fold (probes f) in Hi.
  unfold add. apply addProbes_mono; auto.
  - eapply probes_nonneg; eauto.
  - intros i'; apply probes_nonneg.
Qed.

Lemma mightContain_adds f ws w :
  wellSized f -> In w ws -> mightContain (fold_left add ws f) w = true.
Proof.
  revert f. induction ws as [|w' ws IH]; intros f Hw Hin; [destruct Hin|].
  simpl. destruct Hin as [->|Hin]; [|apply IH; auto using wellSized_add].
  assert (forall l g, wellSized g -> mightContain g w = true ->
                      mightContain (fold_left add l g) w = true) as Hmono.
  { induction l as [|x l IHl]; intros g Hg Hm; simpl; [exact Hm|].
    apply IHl; auto using wellSized_add, mightContain_add_mono. }
  apply Hmono; auto using wellSized_add, mightContain_add.
Qed.

Lemma wellSized_new size k : 0 < size -> wellSized (new size k).
Proof.
  intros Hs. split; [exact Hs|]. simpl. rewrite length_replicate.
  rewrite Z2Nat.id; [lia|]. apply Z.div_pos; lia.
Qed.

End BloomFacts.

(** The constructor builds the filter [BloomFilter.new] for every size above
    -8. *)
Lemma construct_returns (size numHashes : Z) :
  -8 < size -> BloomFilter.construct size numHashes = Some (BloomFilter.new size numHashes).
Proof.
  intros Hs. unfold BloomFilter.construct.
  destruct (Z.leb_spec size (-8)) as [?|_]; [lia|reflexivity].
Qed.

(** ** The model of [Array.prototype.sort] *)

Section SortFacts.
Context {A : Type} (cmp : A -> A -> Z).

Lemma sortInsert_perm x l : Permutation (JS.sortInsert cmp x l) (x :: l).
Proof.
  induction l as [|y l IH]; simpl; [reflexivity|].
  destruct (cmp y x <=? 0); [|reflexivity].
  rewrite IH. apply perm_swap.
Qed.

Lemma sort_perm l : Permutation (JS.sort cmp l) l.
Proof.
  unfold JS.sort.
  assert (forall acc, Permutation (fold_left (fun acc x => JS.sortInsert cmp x acc) l acc)
                                  (acc ++ l)) as Hg.
  { induction l as [|x l IH]; intros acc; simpl.
    - rewrite app_nil_r. reflexivity.
    - rewrite IH, sortInsert_perm. apply Permutation_middle. }
  apply (Hg []).
Qed.

Lemma sort_In x l : In x (JS.sort cmp l) <-> In x l.
Proof.
  split; apply Permutation_in; [|symmetry]; apply sort_perm.
Qed.

(** With a comparison function that is total and transitive the result is
    sorted. *)
Hypothesis cmp_total : forall a b, cmp a b <= 0 \/ cmp b a <= 0.
Hypothesis cmp_trans : forall a b c, cmp a b <= 0 -> cmp b c <= 0 -> cmp a c <= 0.



End SortFacts.


Section BloomExport.
Context `{Builtins}.

Lemma exportBloom_adds (words : list WordData) :
  exportBloom words =
  fold_left BloomFilter.add (map wd_w words)
    (BloomFilter.new (Z.of_nat (List.length words) * 10) 3).
Proof.
  unfold exportBloom. generalize (BloomFilter.new (Z.of_nat (List.length words) * 10) 3).
  induction words as [|wd words IH]; intros f; simpl; [reflexivity|apply IH].
Qed.

Lemma allWords_registered (t : Typo) (w : string) r :
  dictionaryTable t !! w = Some r -> In w (map wd_w (allWords t)).
Proof.
  intros Hl. apply in_map_iff. exists {| wd_w := w; wd_r := r |}.
  split; [reflexivity|]. unfold allWords. apply sort_In.
  apply in_map_iff. exists (w, r). split; [reflexivity|].
  apply list_elem_of_In, elem_of_map_to_list, Hl.
Qed.

End BloomExport.

(** C5.  No false negatives: after any sequence of words has been inserted
    with [add] into a filter with at least one bit, [mightContain] is true
    for each of them; and the filter that [exportPreCalculated] builds
    answers true for every word of the dictionary table. *)
Theorem bloom_no_false_negatives `{Builtins} :
  (forall (size numHashes : Z) (words : list string) (w : string),
      0 < size -> In w words ->
      BloomFilter.mightContain
        (fold_left BloomFilter.add words (BloomFilter.new size numHashes)) w = true)
  /\ (forall (t : Typo) (e : Exported) (w : string) r,
         exportPreCalculated t = inr e ->
         dictionaryTable t !! w = Some r ->
         BloomFilter.mightContain (ex_bloom e) w = true).
Proof.
  split.
  - intros size numHashes words w Hsize Hin.
    apply BloomFacts.mightContain_adds; [|exact Hin].
    apply BloomFacts.wellSized_new, Hsize.
  - intros t e w r He Hl. unfold exportPreCalculated in He.
    destruct (negb (loaded t)); [discriminate|].
    destruct (preCalculated t); [discriminate|].
    destruct (bool_decide _); [discriminate|].
    injection He as <-. simpl. rewrite exportBloom_adds.
    pose proof (allWords_registered t w r Hl) as Hin.
    apply BloomFacts.mightContain_adds; [|exact Hin].
    apply BloomFacts.wellSized_new.
    destruct (allWords t); [destruct Hin|]. simpl List.length. lia.
Qed.

(** ** The LRU cache *)

Module LRUFacts.
Import LRUCache.

Section WithValues.
Context {V : Type}.
Implicit Types (c : t V) (m : list (string * V)) (key : string).

Lemma length_mapDelete key m :
  (List.length (mapDelete key m) <= List.length m)%nat.
Proof.
  unfold mapDelete. induction m as [|e m IH]; simpl; [lia|].
  destruct (negb _); simpl; lia.
Qed.

Lemma mapHas_In key m : mapHas key m = true <-> In key (map fst m).
Proof.
  unfold mapHas. rewrite existsb_exists, in_map_iff. split.
  - intros ([k v] & Hin & Heq). apply String.eqb_eq in Heq. eauto.
  - intros ([k v] & Heq & Hin). exists (k, v). split; [exact Hin|].
    apply String.eqb_eq, Heq.
Qed.

Lemma length_mapDelete_has key m :
  mapHas key m = true -> (List.length (mapDelete key m) < List.length m)%nat.
Proof.
  induction m as [|[k v] m IH]; simpl; [discriminate|].
  unfold mapDelete. simpl.
  destruct (String.eqb k key) eqn:Hk; simpl.
  - intros _. pose proof (length_mapDelete key m). unfold mapDelete in *. lia.
  - intros Hh. specialize (IH Hh). unfold mapDelete in IH. lia.
Qed.

Lemma maxSize_set c key v : maxSize (set c key v) = maxSize c.
Proof. reflexivity. Qed.

Lemma maxSize_get c key : maxSize (snd (get c key)) = maxSize c.
Proof.
  unfold get. destruct (negb _); [reflexivity|].
  destruct (mapGet key (cache c)); reflexivity.
Qed.

(** [set] leaves at most [maxSize] entries. *)
Lemma size_set c key v :
  0 <= maxSize c ->
  Z.of_nat (List.length (cache c)) <= maxSize c ->
  Z.of_nat (List.length (cache (set c key v))) <= maxSize c.
Proof.
  intros Hm Hc. unfold set. simpl.
  set (m1 := if mapHas key (cache c) then mapDelete key (cache c) else cache c).
  assert (List.length m1 <= List.length (cache c))%nat as H1.
  { subst m1. destruct (mapHas key (cache c)); [apply length_mapDelete|lia]. }
  destruct (Z.gtb_spec (Z.of_nat (List.length (m1 ++ [(key, v)]))) (maxSize c)) as [Hgt|Hle];
    [|exact Hle].
  rewrite length_app in Hgt. simpl in Hgt.
  destruct (m1 ++ [(key, v)]) as [|[k0 v0] m2] eqn:Hm2.
  { destruct m1; discriminate. }
  assert (List.length ((k0, v0) :: m2) = S (List.length m1)) as Hlen.
  { rewrite <- Hm2, length_app. simpl. lia. }
  assert (List.length (mapDelete k0 ((k0, v0) :: m2)) < List.length ((k0, v0) :: m2))%nat.
  { apply length_mapDelete_has. simpl. rewrite String.eqb_refl. reflexivity. }
  lia.
Qed.

(** [get] does not add entries. *)
Lemma size_get c key :
  (List.length (cache (snd (get c key))) <= List.length (cache c))%nat.
Proof.
  unfold get. destruct (mapHas key (cache c)) eqn:Hh; simpl; [|lia].
  destruct (mapGet key (cache c)); simpl; [|lia].
  rewrite length_app. simpl.
  pose proof (length_mapDelete_has key (cache c) Hh). lia.
Qed.

Lemma size_runOps c ops :
  0 <= maxSize c ->
  Z.of_nat (List.length (cache c)) <= maxSize c ->
  Z.of_nat (List.length (cache (runOps c ops))) <= maxSize c.
Proof.
  revert c. induction ops as [|o ops IH]; intros c Hm Hc; simpl; [exact Hc|].
  destruct o as [key|key v]; simpl.
  - rewrite <- (maxSize_get c key). apply IH; rewrite maxSize_get; [exact Hm|].
    pose proof (size_get c key). lia.
  - rewrite <- (maxSize_set c key v). apply IH; rewrite maxSize_set; [exact Hm|].
    apply size_set; assumption.
Qed.

End WithValues.
End LRUFacts.
Module LRUOrder.
Import LRUCache.

Section Lists.
Context {A : Type}.
Implicit Types (l : list A).

Lemma lastn_all n l : (List.length l <= n)%nat -> lastn n l = l.
Proof.
  intros Hl. unfold lastn.
  replace (List.length l - n)%nat with 0%nat by lia. reflexivity.
Qed.

Lemma length_lastn n l : List.length (lastn n l) = Nat.min n (List.length l).
Proof. unfold lastn. rewrite length_skipn. lia. Qed.

Lemma lastn_app n l1 l2 :
  (n <= List.length l2)%nat -> lastn n (l1 ++ l2) = lastn n l2.
Proof.
  intros Hn. unfold lastn. rewrite length_app, skipn_app.
  replace (List.length l1 + List.length l2 - n - List.length l1)%nat
    with (List.length l2 - n)%nat by lia.
  rewrite skipn_all2 by lia. reflexivity.
Qed.

Lemma lastn_split n l : exists p, l = p ++ lastn n l.
Proof.
  exists (firstn (List.length l - n) l). unfold lastn.
  symmetry. apply firstn_skipn.
Qed.

Lemma lastn_succ_tail n x l :
  List.length (x :: l) = S n -> lastn n (x :: l) = l.
Proof.
  intros Hl. unfold lastn. rewrite Hl.
  replace (S n - n)%nat with 1%nat by lia. reflexivity.
Qed.
End Lists.

Lemma touch_filter key order : touch key order = List.filter (differs key) order ++ [key].
Proof. reflexivity. Qed.

Lemma filter_differs_notin key (l : list string) :
  ~ In key l -> List.filter (differs key) l = l.
Proof.
  induction l as [|k l IH]; intros Hn; [reflexivity|].
  simpl. unfold differs at 1.
  destruct (String.eqb_spec k key) as [->|Hne]; simpl.
  - exfalso. apply Hn. left. reflexivity.
  - f_equal. apply IH. intros Hin. apply Hn. right. exact Hin.
Qed.

Lemma In_filter_differs key k (l : list string) :
  In k (List.filter (differs key) l) <-> In k l /\ k <> key.
Proof.
  rewrite filter_In. unfold differs.
  destruct (String.eqb_spec k key); simpl; intuition congruence.
Qed.

Lemma NoDup_filter_differs key (l : list string) :
  List.NoDup l -> List.NoDup (List.filter (differs key) l).
Proof.
  induction 1 as [|k l Hn Hd IH]; [constructor|].
  simpl. destruct (differs key k); [|exact IH].
  constructor; [|exact IH]. rewrite In_filter_differs. tauto.
Qed.

Lemma NoDup_touch key (order : list string) :
  List.NoDup order -> List.NoDup (touch key order).
Proof.
  intros Hd. rewrite touch_filter. apply List.NoDup_app.
  - apply NoDup_filter_differs, Hd.
  - repeat constructor. intros [].
  - intros k Hk Hk'. apply In_filter_differs in Hk.
    destruct Hk' as [<-|[]]. tauto.
Qed.

Lemma length_filter_differs key (l : list string) :
  List.NoDup l -> (List.length l <= S (List.length (List.filter (differs key) l)))%nat.
Proof.
  induction 1 as [|k l Hn Hd IH]; simpl; [lia|].
  simpl. unfold differs at 1.
  destruct (String.eqb_spec k key) as [->|Hne]; simpl; [|lia].
  rewrite filter_differs_notin by exact Hn. lia.
Qed.

(** Only the most recent [n] keys matter for the most recent [n] keys
    after a use. *)
Lemma lastn_touch n key (order : list string) :
  List.NoDup order ->
  lastn n (touch key (lastn n order)) = lastn n (touch key order).
Proof.
  intros Hd.
  destruct (Nat.le_gt_cases (List.length order) n) as [Hle|Hgt].
  { rewrite (lastn_all n order Hle). reflexivity. }
  destruct (lastn_split n order) as [p Hp].
  assert (List.NoDup (lastn n order)) as Hds.
  { rewrite Hp in Hd. apply List.NoDup_app_remove_l in Hd. exact Hd. }
  rewrite Hp at 2. rewrite !touch_filter, List.filter_app, <- app_assoc.
  symmetry. apply lastn_app.
  rewrite length_app. simpl.
  pose proof (length_filter_differs key _ Hds).
  rewrite length_lastn in *. lia.
Qed.

Section WithValues.
Context {V : Type}.
Implicit Types (c : t V) (m : list (string * V)) (key : string).

Lemma keys_mapDelete key m :
  map fst (mapDelete key m) = List.filter (differs key) (map fst m).
Proof.
  induction m as [|[k v] m IH]; [reflexivity|].
  unfold mapDelete in *. simpl. unfold differs at 1.
  destruct (negb (String.eqb k key)); simpl; rewrite IH; reflexivity.
Qed.

Lemma mapGet_has key m : mapHas key m = true -> is_Some (mapGet key m).
Proof.
  induction m as [|[k v] m IH]; simpl; [discriminate|].
  destruct (String.eqb k key); simpl; eauto.
Qed.

Lemma keys_get_hit c key :
  has c key = true -> keys (snd (get c key)) = touch key (keys c).
Proof.
  intros Hh. unfold get. unfold has in Hh. rewrite Hh. simpl.
  destruct (mapGet_has key (cache c) Hh) as [v ->]. simpl.
  unfold keys. simpl. rewrite map_app, keys_mapDelete. reflexivity.
Qed.

Lemma get_miss c key : has c key = false -> get c key = (None, c).
Proof. intros Hh. unfold get. unfold has in Hh. rewrite Hh. reflexivity. Qed.

(** The keys after [set]: the key becomes the most recent one and the
    oldest key is dropped when the capacity is exceeded. *)
Lemma keys_set c key v :
  0 <= maxSize c -> List.NoDup (keys c) ->
  (List.length (keys c) <= Z.to_nat (maxSize c))%nat ->
  keys (set c key v) = lastn (Z.to_nat (maxSize c)) (touch key (keys c)).
Proof.
  intros Hm Hd Hl.
  pose proof (NoDup_touch key _ Hd) as Hdt.
  assert (List.length (touch key (keys c)) <= S (Z.to_nat (maxSize c)))%nat as Hlen.
  { rewrite touch_filter, length_app. simpl.
    pose proof (List.filter_length_le (differs key) (keys c)). lia. }
  assert (map fst ((if mapHas key (cache c) then mapDelete key (cache c) else cache c)
                   ++ [(key, v)]) = touch key (keys c)) as Hk.
  { rewrite map_app, touch_filter. simpl. f_equal. unfold keys.
    destruct (mapHas key (cache c)) eqn:Hh; [apply keys_mapDelete|].
    symmetry. apply filter_differs_notin. rewrite <- LRUFacts.mapHas_In. congruence. }
  revert Hdt Hlen. rewrite <- Hk. clear Hk.
  unfold set, keys at 1. simpl.
  generalize ((if mapHas key (cache c) then mapDelete key (cache c) else cache c)
              ++ [(key, v)]).
  intros m2 Hdt Hlen. rewrite length_map in Hlen.
  destruct (Z.gtb_spec (Z.of_nat (List.length m2)) (maxSize c)) as [Hgt|Hle].
  - destruct m2 as [|[k0 v0] m2]; [simpl in Hgt; lia|].
    rewrite keys_mapDelete. simpl. unfold differs at 1.
    rewrite String.eqb_refl. simpl.
    inversion Hdt as [|? ? Hn0 Hd2]; subst.
    rewrite filter_differs_notin by exact Hn0.
    symmetry. apply lastn_succ_tail. simpl in *. rewrite length_map. lia.
  - symmetry. apply lastn_all. rewrite length_map. lia.
Qed.

End WithValues.
End LRUOrder.

Module LRUContent.
Import LRUCache.

Section WithValues.
Context {V : Type}.
Implicit Types (c : t V) (m : list (string * V)) (key : string).

Lemma mapGet_mapDelete key k m :
  mapGet k (mapDelete key m) = if String.eqb key k then None else mapGet k m.
Proof.
  unfold mapDelete. induction m as [|[k0 v0] m IH]; simpl.
  - destruct (String.eqb key k); reflexivity.
  - destruct (String.eqb_spec k0 key) as [->|Hne]; simpl.
    + rewrite IH. destruct (String.eqb_spec key k); reflexivity.
    + destruct (String.eqb_spec k0 k) as [->|Hne'].
      * destruct (String.eqb_spec key k); [congruence|reflexivity].
      * exact IH.
Qed.

Lemma mapGet_app k m m' :
  mapGet k (m ++ m') = match mapGet k m with Some v => Some v | None => mapGet k m' end.
Proof.
  induction m as [|[k0 v0] m IH]; simpl; [reflexivity|].
  destruct (String.eqb k0 k); [reflexivity|exact IH].
Qed.

Lemma mapHas_mapGet k m : mapHas k m = true <-> is_Some (mapGet k m).
Proof.
  induction m as [|[k0 v0] m IH]; simpl.
  - split; [discriminate|intros [? ?]; discriminate].
  - destruct (String.eqb k0 k); simpl; [split; eauto|exact IH].
Qed.

(** An entry of the cache after [set] is the one set or an older one. *)
Lemma mapGet_set c key v k w :
  mapGet k (cache (set c key v)) = Some w ->
  (k = key /\ w = v) \/ (k <> key /\ mapGet k (cache c) = Some w).
Proof.
  unfold set. simpl.
  set (m1 := if mapHas key (cache c) then mapDelete key (cache c) else cache c).
  assert (mapGet k (m1 ++ [(key, v)]) = Some w ->
          (k = key /\ w = v) \/ (k <> key /\ mapGet k (cache c) = Some w)) as Hm2.
  { rewrite mapGet_app. simpl. subst m1.
    destruct (String.eqb_spec key k) as [->|Hne].
    - destruct (mapHas k (cache c)) eqn:Hh.
      + rewrite mapGet_mapDelete, String.eqb_refl. intros [= <-]. auto.
      + assert (mapGet k (cache c) = None) as ->.
        { destruct (mapGet k (cache c)) eqn:Hg; [|reflexivity].
          assert (mapHas k (cache c) = true) by (apply mapHas_mapGet; eauto).
          congruence. }
        intros [= <-]. auto.
    - intros Hg. right. split; [congruence|].
      destruct (mapHas key (cache c)).
      + rewrite mapGet_mapDelete in Hg.
        destruct (String.eqb_spec key k); [congruence|].
        destruct (mapGet k (cache c)); [exact Hg|discriminate].
      + destruct (mapGet k (cache c)); [exact Hg|discriminate]. }
  destruct (Z.of_nat (List.length (m1 ++ [(key, v)])) >? maxSize c); [|exact Hm2].
  destruct (m1 ++ [(key, v)]) as [|[k0 v0] m2]; [exact Hm2|].
  rewrite mapGet_mapDelete. destruct (String.eqb k0 k); [discriminate|exact Hm2].
Qed.

Lemma has_set c key v k :
  has (set c key v) k = true -> k = key \/ has c k = true.
Proof.
  unfold has. rewrite !mapHas_mapGet. intros [w Hw].
  apply mapGet_set in Hw. destruct Hw as [[-> _]|[_ Hw]]; eauto.
Qed.

(** [get] returns the cached value and keeps the entries. *)
Lemma get_hit c key :
  has c key = true ->
  exists v, mapGet key (cache c) = Some v
            /\ get c key = (Some v, {| maxSize := maxSize c;
                                      cache := mapDelete key (cache c) ++ [(key, v)] |}).
Proof.
  intros Hh. unfold has in Hh. pose proof Hh as Hg.
  apply mapHas_mapGet in Hg. destruct Hg as [v Hv].
  exists v. split; [exact Hv|]. unfold get. rewrite Hh, Hv. reflexivity.
Qed.

Lemma mapGet_get c key k w :
  mapGet k (cache (snd (get c key))) = Some w -> mapGet k (cache c) = Some w.
Proof.
  destruct (has c key) eqn:Hh.
  - destruct (get_hit c key Hh) as (v & Hv & ->). simpl.
    rewrite mapGet_app, mapGet_mapDelete. simpl.
    destruct (String.eqb_spec key k) as [->|Hne]; [congruence|].
    destruct (mapGet k (cache c)); [auto|discriminate].
  - unfold get. unfold has in Hh. rewrite Hh. simpl. auto.
Qed.

End WithValues.
End LRUContent.

Module LRURecency.
Import LRUCache LRUOrder.

Section WithValues.
Context {V : Type}.
Implicit Types (c : t V) (key : string).

Lemma has_In_keys c key : has c key = true <-> In key (keys c).
Proof. apply LRUFacts.mapHas_In. Qed.

Lemma length_touch_present key (l : list string) :
  In key l -> (List.length (touch key l) <= List.length l)%nat.
Proof.
  intros Hin. rewrite touch_filter, length_app. simpl.
  induction l as [|k l IH]; [destruct Hin|]. simpl. unfold differs at 1.
  destruct (String.eqb_spec k key) as [->|Hne]; simpl.
  - pose proof (List.filter_length_le (differs key) l). lia.
  - destruct Hin as [->|Hin]; [congruence|]. specialize (IH Hin). lia.
Qed.

(** One call keeps the cache equal to the most recently used keys. *)
Lemma keys_step c o (order : list string) :
  0 <= maxSize c -> List.NoDup order ->
  keys c = lastn (Z.to_nat (maxSize c)) order ->
  let order' :=
    match o with
    | OpSet key _ => touch key order
    | OpGet key => if has c key then touch key order else order
    end in
  List.NoDup order'
  /\ maxSize (step c o) = maxSize c
  /\ keys (step c o) = lastn (Z.to_nat (maxSize c)) order'.
Proof.
  intros Hm Hd Hk.
  assert (List.NoDup (keys c)) as Hdk.
  { rewrite Hk. destruct (lastn_split (Z.to_nat (maxSize c)) order) as [p Hp].
    rewrite Hp in Hd. apply List.NoDup_app_remove_l in Hd. exact Hd. }
  assert (List.length (keys c) <= Z.to_nat (maxSize c))%nat as Hlk.
  { rewrite Hk, length_lastn. lia. }
  destruct o as [key|key v]; simpl.
  - destruct (has c key) eqn:Hh.
    + split; [apply NoDup_touch, Hd|]. split; [apply LRUFacts.maxSize_get|].
      rewrite keys_get_hit by exact Hh.
      rewrite <- lastn_touch by exact Hd. rewrite <- Hk.
      symmetry. apply lastn_all.
      pose proof (length_touch_present key (keys c) (proj1 (has_In_keys c key) Hh)).
      lia.
    + rewrite get_miss by exact Hh. simpl. auto.
  - split; [apply NoDup_touch, Hd|]. split; [reflexivity|].
    rewrite keys_set by assumption.
    rewrite Hk. apply lastn_touch, Hd.
Qed.

Lemma keys_runOps c ops (order : list string) :
  0 <= maxSize c -> List.NoDup order ->
  keys c = lastn (Z.to_nat (maxSize c)) order ->
  keys (runOps c ops) = lastn (Z.to_nat (maxSize c)) (recency c ops order).
Proof.
  revert c order. induction ops as [|o ops IH]; intros c order Hm Hd Hk; simpl;
    [exact Hk|].
  destruct (keys_step c o order Hm Hd Hk) as (Hd' & Hm' & Hk').
  rewrite <- Hm'. apply IH; rewrite ?Hm'; assumption.
Qed.

End WithValues.
End LRURecency.

(** ** The lookups return the values of the data *)

Section LookupFacts.
Context `{Builtins}.
Implicit Types (t : Typo) (word flag prefix : string).

Lemma sameData_refl t : sameData t t.
Proof. reflexivity. Qed.

Lemma sameData_sym t t' : sameData t t' -> sameData t' t.
Proof. unfold sameData. congruence. Qed.

Lemma sameData_trans t1 t2 t3 : sameData t1 t2 -> sameData t2 t3 -> sameData t1 t3.
Proof. unfold sameData. congruence. Qed.

Lemma sameData_set_partitionCache t c : sameData t (set_partitionCache c t).
Proof. reflexivity. Qed.

Lemma sameData_set_notFoundCache t c : sameData t (set_notFoundCache c t).
Proof. reflexivity. Qed.

Lemma sameData_set_reads t r : sameData t (set_reads r t).
Proof. reflexivity. Qed.

(** The fields that [sameData] preserves *)
Lemma sameData_fields t t' :
  sameData t t' ->
  dictionary t = dictionary t' /\ dictionaryTable t = dictionaryTable t'
  /\ compoundRules t = compoundRules t' /\ replacementTable t = replacementTable t'
  /\ flags t = flags t' /\ memoized t = memoized t' /\ loaded t = loaded t'
  /\ alphabet t = alphabet t' /\ preCalculated t = preCalculated t'
  /\ preCalculatedPath t = preCalculatedPath t' /\ bloomFilter t = bloomFilter t'
  /\ partitionIndex t = partitionIndex t' /\ files t = files t'.
Proof.
  unfold sameData. intros Heq.
  repeat split;
    [ apply (f_equal dictionary) in Heq | apply (f_equal dictionaryTable) in Heq
    | apply (f_equal compoundRules) in Heq | apply (f_equal replacementTable) in Heq
    | apply (f_equal flags) in Heq | apply (f_equal memoized) in Heq
    | apply (f_equal loaded) in Heq | apply (f_equal alphabet) in Heq
    | apply (f_equal preCalculated) in Heq | apply (f_equal preCalculatedPath) in Heq
    | apply (f_equal bloomFilter) in Heq | apply (f_equal partitionIndex) in Heq
    | apply (f_equal files) in Heq ]; exact Heq.
Qed.

Ltac same_fields Hs :=
  let H1 := fresh in
  pose proof (sameData_fields _ _ Hs) as H1;
  destruct H1 as (? & ? & ? & ? & ? & ? & ? & ? & ? & ? & ? & ? & ?).

Ltac rewrite_fields :=
  repeat match goal with
         | Heq : ?f ?t = ?f ?t' |- _ => rewrite Heq in *; clear Heq
         | Heq : ?f ?t ?x = ?f ?t' ?x |- _ => rewrite Heq in *; clear Heq
         end.

Lemma partitionOf_same t t' prefix : sameData t t' -> partitionOf t prefix = partitionOf t' prefix.
Proof.
  intros Hs. same_fields Hs. unfold partitionOf, partitionPath.
  rewrite_fields. reflexivity.
Qed.

Lemma validCompound_same t t' word : sameData t t' -> validCompound t word = validCompound t' word.
Proof.
  intros Hs. same_fields Hs.
  unfold validCompound, meetsCompoundMin, matchesCompoundRule.
  rewrite_fields. reflexivity.
Qed.

Lemma hasFlagIn_same t t' flag codes : sameData t t' -> hasFlagIn t flag codes = hasFlagIn t' flag codes.
Proof. intros Hs. same_fields Hs. unfold hasFlagIn. rewrite_fields. reflexivity. Qed.

Lemma flagged_same t t' word flag : sameData t t' -> flagged t word flag = flagged t' word flag.
Proof.
  intros Hs. pose proof (partitionOf_same t t' (_getPartitionPrefix word) Hs).
  same_fields Hs. unfold flagged, wordFlagsOf. rewrite_fields. reflexivity.
Qed.

Lemma exact_same t t' word : sameData t t' -> exact t word = exact t' word.
Proof.
  intros Hs. pose proof (partitionOf_same t t' (_getPartitionPrefix word) Hs).
  pose proof (validCompound_same t t' word Hs).
  assert (forall codes, hasFlagIn t "ONLYINCOMPOUND" codes = hasFlagIn t' "ONLYINCOMPOUND" codes)
    as Hf by (intros; apply hasFlagIn_same, Hs).
  same_fields Hs. unfold exact. rewrite_fields.
  destruct (preCalculated t'); [reflexivity|].
  destruct (dictionaryTable t' !! word) as [[ruleCodes|]|]; try reflexivity.
  induction ruleCodes as [|codes ruleCodes IH]; simpl; [reflexivity|].
  rewrite Hf, IH. reflexivity.
Qed.

(** The caches of [t'] are sound when those of [t] are and [t'] holds the
    same data and entries that are sound. *)
Lemma Ready_same t t' :
  Ready t -> sameData t t' ->
  (preCalculated t = true ->
   (forall prefix words,
       LRUCache.mapGet prefix (LRUCache.cache (partitionCache t')) = Some words ->
       partitionOf t prefix = words)
   /\ (forall word, LRUCache.has (notFoundCache t') word = true -> exact t word = false)) ->
  Ready t'.
Proof.
  intros [Hl Hp] Hs Hc. pose proof Hs as Hs'. same_fields Hs.
  split; [congruence|]. intros Hpre.
  assert (preCalculated t = true) as Hpre' by congruence.
  destruct (Hp Hpre') as [_ Hr]. destruct (Hc Hpre') as [Hc1 Hc2].
  split; [split|].
  - intros prefix words Hg. rewrite <- (partitionOf_same t t') by exact Hs'. auto.
  - intros word Hh. rewrite <- (exact_same t t') by exact Hs'. auto.
  - unfold filesReadable, partitionPath in *. intros prefix info Hi.
    rewrite_fields. eauto.
Qed.

Lemma Returns_ret {A} (a : A) t : Ready t -> Returns (ret a) t (Ret a).
Proof. intros Hr. exists t. auto using sameData_refl. Qed.

Lemma Returns_throw {A} e t : Ready t -> Returns (@throw _ A e) t (Throw e).
Proof. intros Hr. exists t. auto using sameData_refl. Qed.

Lemma Returns_bind {A B} (m : M A) (k : A -> M B) t a r :
  Returns m t (Ret a) ->
  (forall t', sameData t t' -> Ready t' -> Returns (k a) t' r) ->
  Returns (bind m k) t r.
Proof.
  intros (t1 & Hm & Hs1 & Hr1) Hk.
  destruct (Hk t1 Hs1 Hr1) as (t2 & Hk2 & Hs2 & Hr2).
  exists t2. unfold bind. rewrite Hm.
  eauto using sameData_trans.
Qed.

Lemma Returns_bind_throw {A B} (m : M A) (k : A -> M B) t e :
  Returns m t (Throw e) -> Returns (bind m k) t (Throw e).
Proof.
  intros (t1 & Hm & Hs1 & Hr1). exists t1. unfold bind. rewrite Hm. auto.
Qed.

Lemma Returns_this_bind {A} (k : Typo -> M A) t r :
  Returns (k t) t r -> Returns (bind this k) t r.
Proof. intros Hk. exact Hk. Qed.

Lemma Returns_requireLoaded t : Ready t -> Returns requireLoaded t (Ret tt).
Proof.
  intros Hr. exists t. unfold requireLoaded, bind, this.
  destruct Hr as [Hl Hp]. rewrite Hl. split; [reflexivity|].
  split; [apply sameData_refl|split; assumption].
Qed.

(** [_loadPartition] returns the partition of the prefix. *)
Lemma Returns_loadPartition t prefix :
  Ready t -> preCalculated t = true ->
  Returns (_loadPartition prefix) t (Ret (partitionOf t prefix)).
Proof.
  intros Hr Hpre. pose proof Hr as [Hl Hp]. destruct (Hp Hpre) as [[Hc1 Hc2] Hread].
  unfold Returns, _loadPartition, bind, this. simpl.
  destruct (LRUCache.has (partitionCache t) prefix) eqn:Hh.
  - destruct (LRUContent.get_hit _ _ Hh) as (v & Hv & Hget). rewrite Hget.
    unfold update, ret. simpl. rewrite (Hc1 prefix v Hv).
    eexists. split; [reflexivity|]. split; [apply sameData_set_partitionCache|].
    apply (Ready_same t); [exact Hr|apply sameData_set_partitionCache|].
    intros _. split; [|exact Hc2]. simpl. intros p ws Hg.
    apply Hc1. apply (LRUContent.mapGet_get (partitionCache t) prefix).
    rewrite Hget. exact Hg.
  - unfold partitionOf. destruct (partitionIndex t !! prefix) as [info|] eqn:Hi.
    + destruct (Hread prefix info Hi) as [words Hw].
      unfold readPartitionFile, bind, this, update, ret. simpl. rewrite Hw. simpl.
      eexists. split; [reflexivity|]. split; [reflexivity|].
      apply (Ready_same t); [exact Hr|reflexivity|].
      intros _. split; [|exact Hc2]. simpl. intros p ws Hg.
      apply LRUContent.mapGet_set in Hg. destruct Hg as [[-> ->]|[_ Hg]].
      * unfold partitionOf. rewrite Hi, Hw. reflexivity.
      * apply Hc1, Hg.
    + unfold ret. exists t. auto using sameData_refl.
Qed.

Lemma run_bind {A B} (m : M A) (k : A -> M B) t a t' :
  m t = (Ret a, t') -> bind m k t = k a t'.
Proof. intros Hm. unfold bind. rewrite Hm. reflexivity. Qed.

Lemma run_bind_throw {A B} (m : M A) (k : A -> M B) t e t' :
  m t = (Throw e, t') -> bind m k t = (Throw e, t').
Proof. intros Hm. unfold bind. rewrite Hm. reflexivity. Qed.

Lemma run_this_bind {A} (k : Typo -> M A) t : bind this k t = k t t.
Proof. reflexivity. Qed.

Lemma run_requireLoaded t : loaded t = true -> requireLoaded t = (Ret tt, t).
Proof. intros Hl. unfold requireLoaded. rewrite run_this_bind, Hl. reflexivity. Qed.

Lemma run_requireLoaded_not t :
  loaded t = false -> requireLoaded t = (Throw DictionaryNotLoaded, t).
Proof. intros Hl. unfold requireLoaded. rewrite run_this_bind, Hl. reflexivity. Qed.

(** [hasFlag(word, flag, codes)] *)
Lemma hasFlag_codes t word flag codes :
  loaded t = true ->
  hasFlag word flag (Some codes) t = (Ret (hasFlagIn t flag codes), t).
Proof.
  intros Hl. unfold hasFlag, hasFlagIn.
  rewrite (run_bind _ _ _ _ _ (run_requireLoaded t Hl)), run_this_bind.
  destruct (flags t !! flag); [reflexivity|].
  destruct (JSObject.inherited flag); reflexivity.
Qed.

(** The flags of the word that [hasFlag(word, flag)] looks the code up in *)
Lemma Returns_wordFlagsFor t word :
  Ready t -> Returns (wordFlagsFor word None) t (Ret (wordFlagsOf t word)).
Proof.
  intros Hr. unfold wordFlagsFor, wordFlagsOf.
  apply Returns_this_bind; cbv beta.
  destruct (preCalculated t) eqn:Hpre; [|apply Returns_ret, Hr].
  eapply Returns_bind; [apply Returns_loadPartition; assumption|].
  intros t1 Hs1 Hr1.
  destruct (_findWordRules (partitionOf t (_getPartitionPrefix word)) word);
    apply Returns_ret, Hr1.
Qed.

(** [hasFlag(word, flag)] *)
Lemma Returns_hasFlag t word flag :
  Ready t -> Returns (hasFlag word flag None) t (Ret (flagged t word flag)).
Proof.
  intros Hr. unfold hasFlag.
  eapply Returns_bind; [apply Returns_requireLoaded, Hr|].
  intros t1 Hs1 Hr1. rewrite (flagged_same t t1) by exact Hs1.
  clear t Hr Hs1. rename t1 into t, Hr1 into Hr.
  apply Returns_this_bind; cbv beta. unfold flagged.
  destruct (flags t !! flag) as [value|].
  - eapply Returns_bind; [apply Returns_wordFlagsFor, Hr|].
    intros t1 Hs1 Hr1. destruct (wordFlagsOf t word); apply Returns_ret, Hr1.
  - destruct (JSObject.inherited flag); [|apply Returns_ret, Hr].
    eapply Returns_bind; [apply Returns_wordFlagsFor, Hr|].
    intros t1 Hs1 Hr1. apply Returns_ret, Hr1.
Qed.

Lemma existsM_onlyInCompound t word ruleCodes :
  loaded t = true ->
  existsM (fun codes => bind (hasFlag word "ONLYINCOMPOUND" (Some codes))
                             (fun b => ret (negb b))) ruleCodes t
  = (Ret (existsb (fun codes => negb (hasFlagIn t "ONLYINCOMPOUND" codes)) ruleCodes), t).
Proof.
  intros Hl. induction ruleCodes as [|codes ruleCodes IH]; simpl; [reflexivity|].
  erewrite run_bind; [|erewrite run_bind; [reflexivity|apply hasFlag_codes, Hl]].
  destruct (negb (hasFlagIn t "ONLYINCOMPOUND" codes)); simpl; [reflexivity|exact IH].
Qed.

(** [checkExact] on the in-memory backend does not change the instance. *)
Lemma checkExact_inMemory t word :
  loaded t = true -> preCalculated t = false ->
  checkExact word t = (Ret (exact t word), t).
Proof.
  intros Hl Hpre. unfold checkExact, exact.
  rewrite (run_bind _ _ _ _ _ (run_requireLoaded t Hl)), run_this_bind, Hpre.
  destruct (dictionaryTable t !! word) as [[ruleCodes|]|]; simpl.
  - apply existsM_onlyInCompound, Hl.
  - reflexivity.
  - unfold validCompound. destruct (JSObject.inherited word); [reflexivity|]. simpl.
    destruct (meetsCompoundMin t word && matchesCompoundRule t word); reflexivity.
Qed.

Lemma Returns_checkPreCalculated t word :
  Ready t -> preCalculated t = true ->
  Returns (_checkPreCalculated word) t (Ret (exact t word)).
Proof.
  intros Hr Hpre. pose proof Hr as [Hl Hp]. destruct (Hp Hpre) as [[Hc1 Hc2] Hread].
  unfold _checkPreCalculated. apply Returns_this_bind; cbv beta.
  destruct (LRUCache.has (notFoundCache t) word) eqn:Hh.
  { rewrite (Hc2 word Hh). apply Returns_ret, Hr. }
  assert (forall t1, sameData t t1 -> Ready t1 ->
            exact t word = false ->
            Returns (bind (update (set_notFoundCache (LRUCache.add (notFoundCache t1) word)))
                          (fun _ => ret false)) t1 (Ret false)) as Hadd.
  { intros t1 Hs1 Hr1 Hex. unfold Returns, bind, update, ret. simpl.
    eexists. split; [reflexivity|]. split; [reflexivity|].
    apply (Ready_same t1); [exact Hr1|reflexivity|].
    intros Hpre1. destruct Hr1 as [_ Hp1]. destruct (Hp1 Hpre1) as [[Hc1' Hc2'] _].
    split; [exact Hc1'|]. simpl. intros w Hw.
    apply LRUContent.has_set in Hw. destruct Hw as [->|Hw].
    - rewrite <- (exact_same t t1) by exact Hs1. exact Hex.
    - apply Hc2', Hw. }
  unfold exact. rewrite Hpre.
  destruct (BloomFilter.mightContain (bloomFilter t) word) eqn:Hb; simpl.
  2:{ apply Hadd; auto using sameData_refl. unfold exact. rewrite Hpre, Hb. reflexivity. }
  eapply Returns_bind; [apply Returns_loadPartition; assumption|].
  intros t1 Hs1 Hr1. simpl.
  destruct (_binarySearch (partitionOf t (_getPartitionPrefix word)) word) eqn:Hf; simpl.
  { apply Returns_ret, Hr1. }
  apply Returns_this_bind; cbv beta.
  fold (validCompound t1 word). rewrite <- (validCompound_same t t1) by exact Hs1.
  destruct (validCompound t word) eqn:Hv; [apply Returns_ret, Hr1|].
  apply Hadd; auto. unfold exact. rewrite Hpre, Hb, Hf, Hv. reflexivity.
Qed.

(** [checkExact(word)] *)
Lemma Returns_checkExact t word :
  Ready t -> Returns (checkExact word) t (Ret (exact t word)).
Proof.
  intros Hr. destruct (preCalculated t) eqn:Hpre.
  - unfold checkExact.
    eapply Returns_bind; [apply Returns_requireLoaded, Hr|].
    intros t1 Hs1 Hr1. apply Returns_this_bind; cbv beta.
    rewrite (exact_same t t1) by exact Hs1.
    destruct (sameData_fields _ _ Hs1) as (_ & _ & _ & _ & _ & _ & _ & _ & Hp & _).
    rewrite <- Hp, Hpre. apply Returns_checkPreCalculated; congruence.
  - exists t. destruct Hr as [Hl Hp].
    rewrite checkExact_inMemory by assumption.
    split; [reflexivity|]. split; [apply sameData_refl|split; assumption].
Qed.

(** *** Computations whose result depends on the dictionary only *)

Lemma sameDict_refl t : sameDict t t.
Proof. reflexivity. Qed.

Lemma sameDict_sym t t' : sameDict t t' -> sameDict t' t.
Proof. unfold sameDict. congruence. Qed.

Lemma sameDict_trans t1 t2 t3 : sameDict t1 t2 -> sameDict t2 t3 -> sameDict t1 t3.
Proof. unfold sameDict. congruence. Qed.

Lemma sameData_sameDict t t' : sameData t t' -> sameDict t t'.
Proof.
  unfold sameData, sameDict. intros Heq.
  apply (f_equal (fun x => set_alphabet "" (set_memoized ∅ x))) in Heq. exact Heq.
Qed.

Lemma sameDict_set_alphabet t a : sameDict t (set_alphabet a t).
Proof. reflexivity. Qed.

Lemma sameDict_set_memoized t m : sameDict t (set_memoized m t).
Proof. reflexivity. Qed.

(** The fields that [sameDict] preserves *)
Lemma sameDict_fields t t' :
  sameDict t t' ->
  dictionary t = dictionary t' /\ dictionaryTable t = dictionaryTable t'
  /\ compoundRules t = compoundRules t' /\ replacementTable t = replacementTable t'
  /\ flags t = flags t' /\ loaded t = loaded t'
  /\ preCalculated t = preCalculated t'
  /\ preCalculatedPath t = preCalculatedPath t' /\ bloomFilter t = bloomFilter t'
  /\ partitionIndex t = partitionIndex t' /\ files t = files t'.
Proof.
  unfold sameDict. intros Heq.
  repeat split;
    [ apply (f_equal dictionary) in Heq | apply (f_equal dictionaryTable) in Heq
    | apply (f_equal compoundRules) in Heq | apply (f_equal replacementTable) in Heq
    | apply (f_equal flags) in Heq
    | apply (f_equal loaded) in Heq
    | apply (f_equal preCalculated) in Heq | apply (f_equal preCalculatedPath) in Heq
    | apply (f_equal bloomFilter) in Heq | apply (f_equal partitionIndex) in Heq
    | apply (f_equal files) in Heq ]; exact Heq.
Qed.

Ltac dict_fields Hs :=
  let H1 := fresh in
  pose proof (sameDict_fields _ _ Hs) as H1;
  destruct H1 as (? & ? & ? & ? & ? & ? & ? & ? & ? & ? & ?).

Lemma partitionOf_dict t t' prefix : sameDict t t' -> partitionOf t prefix = partitionOf t' prefix.
Proof.
  intros Hs. dict_fields Hs. unfold partitionOf, partitionPath.
  rewrite_fields. reflexivity.
Qed.

Lemma validCompound_dict t t' word : sameDict t t' -> validCompound t word = validCompound t' word.
Proof.
  intros Hs. dict_fields Hs.
  unfold validCompound, meetsCompoundMin, matchesCompoundRule.
  rewrite_fields. reflexivity.
Qed.

Lemma hasFlagIn_dict t t' flag codes : sameDict t t' -> hasFlagIn t flag codes = hasFlagIn t' flag codes.
Proof. intros Hs. dict_fields Hs. unfold hasFlagIn. rewrite_fields. reflexivity. Qed.

Lemma flagged_dict t t' word flag : sameDict t t' -> flagged t word flag = flagged t' word flag.
Proof.
  intros Hs. pose proof (partitionOf_dict t t' (_getPartitionPrefix word) Hs).
  dict_fields Hs. unfold flagged, wordFlagsOf. rewrite_fields. reflexivity.
Qed.

Lemma exact_dict t t' word : sameDict t t' -> exact t word = exact t' word.
Proof.
  intros Hs. pose proof (partitionOf_dict t t' (_getPartitionPrefix word) Hs).
  pose proof (validCompound_dict t t' word Hs).
  assert (forall codes, hasFlagIn t "ONLYINCOMPOUND" codes = hasFlagIn t' "ONLYINCOMPOUND" codes)
    as Hf by (intros; apply hasFlagIn_dict, Hs).
  dict_fields Hs. unfold exact. rewrite_fields.
  destruct (preCalculated t'); [reflexivity|].
  destruct (dictionaryTable t' !! word) as [[ruleCodes|]|]; try reflexivity.
  induction ruleCodes as [|codes ruleCodes IH]; simpl; [reflexivity|].
  rewrite Hf, IH. reflexivity.
Qed.

(** Being Ready does not depend on the alphabet and on the memo. *)
Lemma Ready_set_alphabet t a : Ready t -> Ready (set_alphabet a t).
Proof. intros Hr. exact Hr. Qed.

Lemma Ready_set_memoized t m : Ready t -> Ready (set_memoized m t).
Proof. intros Hr. exact Hr. Qed.

#[global] Instance Coarse_sameDict : Coarse sameDict.
Proof.
  split; [apply sameDict_sym|apply sameDict_trans|apply sameData_sameDict].
Qed.

#[global] Instance Coarse_sameAlphabet : Coarse sameAlphabet.
Proof.
  split.
  - intros t t' [Hd Ha]. split; [apply sameDict_sym, Hd|congruence].
  - intros t1 t2 t3 [Hd1 Ha1] [Hd2 Ha2].
    split; [eapply sameDict_trans; eassumption|congruence].
  - intros t t' Hs. split; [apply sameData_sameDict, Hs|].
    apply sameData_fields in Hs. tauto.
Qed.

Section StableFor.
Context (R : Typo -> Typo -> Prop) `{!Coarse R}.

Lemma Stable_Returns {A} (m : M A) (f : Typo -> Result A) :
  (forall t, Ready t -> Returns m t (f t)) ->
  (forall t t', R t t' -> f t = f t') ->
  Stable R m.
Proof.
  intros Hm Hf t1 t2 Hr1 Hr2 Hs.
  destruct (Hm t1 Hr1) as (t1' & -> & Hs1 & Hr1').
  destruct (Hm t2 Hr2) as (t2' & -> & Hs2 & Hr2'). simpl. auto.
Qed.

Lemma Stable_ret {A} (a : A) : Stable R (ret a).
Proof. intros t1 t2 Hr1 Hr2 Hs. simpl. auto using sameData_refl. Qed.

Lemma Stable_throw {A} e : Stable R (@throw _ A e).
Proof. intros t1 t2 Hr1 Hr2 Hs. simpl. auto using sameData_refl. Qed.

Lemma Stable_bind {A B} (m : M A) (k : A -> M B) :
  Stable R m -> (forall a, Stable R (k a)) -> Stable R (bind m k).
Proof.
  intros Hm Hk t1 t2 Hr1 Hr2 Hs. unfold bind.
  destruct (Hm t1 t2 Hr1 Hr2 Hs) as (Heq & Hr1' & Hs1).
  destruct (Hm t2 t1 Hr2 Hr1 (coarse_sym _ _ Hs)) as (_ & Hr2' & Hs2).
  destruct (m t1) as [r1 t1'], (m t2) as [r2 t2']. simpl in *. subst r2.
  destruct r1 as [a|e]; simpl; [|auto].
  assert (R t1' t2') as Hs'.
  { eapply coarse_trans; [apply coarse_sym, coarse_data, Hs1|].
    eapply coarse_trans; [exact Hs|apply coarse_data, Hs2]. }
  destruct (Hk a t1' t2' Hr1' Hr2' Hs') as (Heq' & Hr1'' & Hs1'').
  eauto using sameData_trans.
Qed.

(** Reading a field that [R] preserves *)
Lemma Stable_read {A B} (g : Typo -> B) (k : B -> M A) :
  (forall t t', R t t' -> g t = g t') ->
  (forall b, Stable R (k b)) ->
  Stable R (bind this (fun t => k (g t))).
Proof.
  intros Hg Hk t1 t2 Hr1 Hr2 Hs. rewrite !run_this_bind.
  rewrite <- (Hg t1 t2 Hs). apply Hk; assumption.
Qed.

Lemma Stable_foldM {A B} (f : B -> A -> M B) (l : list A) (b : B) :
  (forall b x, Stable R (f b x)) -> Stable R (foldM f l b).
Proof.
  intros Hf. revert b. induction l as [|x l IH]; intros b; simpl.
  - apply Stable_ret.
  - apply Stable_bind; [apply Hf|exact IH].
Qed.

Lemma Stable_if {A} (b : bool) (m1 m2 : M A) :
  Stable R m1 -> Stable R m2 -> Stable R (if b then m1 else m2).
Proof. destruct b; auto. Qed.

End StableFor.

Lemma Stable_weaken {A} (R R' : Typo -> Typo -> Prop) (m : M A) :
  (forall t t', R' t t' -> R t t') -> Stable R m -> Stable R' m.
Proof. intros HR Hm t1 t2 Hr1 Hr2 Hs. apply Hm; auto. Qed.

Lemma Stable_hasFlag word flag : Stable sameDict (hasFlag word flag None).
Proof.
  apply (Stable_Returns _ _ (fun t => Ret (flagged t word flag))).
  - intros t Hr. apply Returns_hasFlag, Hr.
  - intros t t' Hs. f_equal. apply flagged_dict, Hs.
Qed.

Lemma Stable_checkExact word : Stable sameDict (checkExact word).
Proof.
  apply (Stable_Returns _ _ (fun t => Ret (exact t word))).
  - intros t Hr. apply Returns_checkExact, Hr.
  - intros t t' Hs. f_equal. apply exact_dict, Hs.
Qed.

Lemma Stable_requireLoaded : Stable sameDict requireLoaded.
Proof.
  apply (Stable_Returns _ _ (fun _ => Ret tt)); [|reflexivity].
  intros t Hr. apply Returns_requireLoaded, Hr.
Qed.

Lemma Stable_check aWord : Stable sameDict (check aWord).
Proof.
  unfold check.
  apply Stable_bind; [exact _|apply Stable_requireLoaded|]. intros _.
  apply Stable_if; [apply Stable_ret|].
  apply Stable_bind; [exact _|apply Stable_checkExact|]. intros exact0.
  apply Stable_if; [apply Stable_ret|].
  apply Stable_bind; [exact _| |].
  - apply Stable_if; [|apply Stable_ret].
    apply Stable_bind; [exact _|apply Stable_hasFlag|]. intros keep.
    apply Stable_if; [apply Stable_ret|].
    apply Stable_bind; [exact _|apply Stable_checkExact|]. intros b1.
    apply Stable_if; [apply Stable_ret|].
    apply Stable_bind; [exact _|apply Stable_checkExact|]. intros b2.
    apply Stable_if; apply Stable_ret.
  - intros [b|]; [apply Stable_ret|].
    destruct (JS.head _); [|apply Stable_throw].
    apply Stable_if; [|apply Stable_ret].
    apply Stable_bind; [exact _|apply Stable_hasFlag|]. intros keep.
    apply Stable_if; [apply Stable_ret|].
    apply Stable_bind; [exact _|apply Stable_checkExact|]. intros b3.
    apply Stable_if; apply Stable_ret.
Qed.

End LookupFacts.

(** ** The lookup engine *)

Section LookupTheorems.
Context `{Builtins}.
Implicit Types (t : Typo) (word : string).




End LookupTheorems.



Section CheckFacts.
Context `{Builtins}.
Implicit Types (t : Typo) (word : string).

Lemma Returns_checkExact_at t0 t word :
  sameData t0 t -> Ready t -> Returns (checkExact word) t (Ret (exact t0 word)).
Proof.
  intros Hs Hr. rewrite (exact_same t0 t) by exact Hs. apply Returns_checkExact, Hr.
Qed.

Lemma Returns_hasFlag_at t0 t word flag :
  sameData t0 t -> Ready t -> Returns (hasFlag word flag None) t (Ret (flagged t0 word flag)).
Proof.
  intros Hs Hr. rewrite (flagged_same t0 t) by exact Hs. apply Returns_hasFlag, Hr.
Qed.

Lemma Returns_bind_at {A B} t0 (m : M A) (k : A -> M B) t a r :
  sameData t0 t ->
  Returns m t (Ret a) ->
  (forall t', sameData t0 t' -> Ready t' -> Returns (k a) t' r) ->
  Returns (bind m k) t r.
Proof.
  intros Hs Hm Hk. eapply Returns_bind; [exact Hm|].
  intros t' Hs' Hr'. apply Hk; [|exact Hr']. eapply sameData_trans; eassumption.
Qed.

Lemma trim_empty : JS.trimEnd (JS.trimStart "") = "".
Proof. reflexivity. Qed.

End CheckFacts.

(** C2, as amended.  For a word whose trimmed form is not empty, entirely
    upper-case and not an exact hit, and whose lower-cased variant is not
    tagged keep-case: [check] returns false when the capitalized variant is
    tagged keep-case, without trying another variant; otherwise it returns
    true exactly when the capitalized variant, or the lower-cased variant,
    or the variant with only the first letter lowered (tried when it differs
    from the word and is not tagged keep-case) is an exact hit.  The
    instance stays Ready and keeps its data. *)
Theorem check_uppercase_variants `{Builtins} (t : Typo) (aWord : string) :
  let trimmedWord := JS.trimEnd (JS.trimStart aWord) in
  let capitalizedWord := headText trimmedWord +:+ toLowerCase (JS.drop 1 trimmedWord) in
  let lowerWord := toLowerCase trimmedWord in
  let uncapitalizedWord := toLowerCase (JS.take 1 trimmedWord) +:+ JS.drop 1 trimmedWord in
  Ready t ->
  trimmedWord <> "" ->
  toUpperCase trimmedWord = trimmedWord ->
  exact t trimmedWord = false ->
  flagged t lowerWord "KEEPCASE" = false ->
  Returns (check aWord) t
    (Ret (if flagged t capitalizedWord "KEEPCASE" then false
          else exact t capitalizedWord
               || exact t lowerWord
               || (negb (String.eqb uncapitalizedWord trimmedWord)
                   && negb (flagged t uncapitalizedWord "KEEPCASE")
                   && exact t uncapitalizedWord))).
Proof.
  intros trimmedWord capitalizedWord lowerWord uncapitalizedWord Hr Hne Hup Hex _.
  unfold check.
  eapply (Returns_bind_at t); [apply sameData_refl|apply Returns_requireLoaded, Hr|].
  intros t1 Hs1 Hr1.
  destruct (String.eqb_spec aWord "") as [->|_].
  { exfalso. apply Hne. reflexivity. }
  fold trimmedWord.
  eapply (Returns_bind_at t); [exact Hs1|apply Returns_checkExact_at; eassumption|].
  rewrite Hex. intros t2 Hs2 Hr2.
  assert (String.eqb (toUpperCase trimmedWord) trimmedWord = true) as ->
    by (apply String.eqb_eq, Hup).
  fold capitalizedWord. fold lowerWord.
  destruct (JS.head trimmedWord) as [c|] eqn:Hhead.
  2:{ destruct trimmedWord; [congruence|discriminate]. }
  assert (JS.take 1 trimmedWord = JS.char c) as Htake.
  { destruct trimmedWord as [|c' s]; [discriminate|]. injection Hhead as ->.
    destruct s; reflexivity. }
  assert (toLowerCase (JS.char c) +:+ JS.drop 1 trimmedWord = uncapitalizedWord) as ->.
  { unfold uncapitalizedWord. rewrite Htake. reflexivity. }
  (* the tail of [check]: the variant with the first letter lowered *)
  assert (forall t', sameData t t' -> Ready t' ->
            Returns
              (if negb (String.eqb uncapitalizedWord trimmedWord) then
                 bind (hasFlag uncapitalizedWord "KEEPCASE" None)
                   (fun keep => if keep then ret false
                                else bind (checkExact uncapitalizedWord)
                                       (fun b3 => if b3 then ret true else ret false))
               else ret false) t'
              (Ret (negb (String.eqb uncapitalizedWord trimmedWord)
                    && negb (flagged t uncapitalizedWord "KEEPCASE")
                    && exact t uncapitalizedWord))) as Htail.
  { intros t' Hs' Hr'.
    destruct (negb (String.eqb uncapitalizedWord trimmedWord)); simpl;
      [|apply Returns_ret, Hr'].
    eapply (Returns_bind_at t); [exact Hs'|apply Returns_hasFlag_at; eassumption|].
    intros t3 Hs3 Hr3.
    destruct (flagged t uncapitalizedWord "KEEPCASE"); simpl; [apply Returns_ret, Hr3|].
    eapply (Returns_bind_at t); [exact Hs3|apply Returns_checkExact_at; eassumption|].
    intros t4 Hs4 Hr4.
    destruct (exact t uncapitalizedWord); apply Returns_ret, Hr4. }
  destruct (flagged t capitalizedWord "KEEPCASE") eqn:Hkeep.
  - eapply (Returns_bind_at t _ _ _ (Some false)); [exact Hs2| |].
    + eapply (Returns_bind_at t); [exact Hs2|apply Returns_hasFlag_at; eassumption|].
      rewrite Hkeep. intros t3 Hs3 Hr3. apply Returns_ret, Hr3.
    + intros t3 Hs3 Hr3. apply Returns_ret, Hr3.
  - destruct (exact t capitalizedWord) eqn:Hcap; simpl.
    { eapply (Returns_bind_at t _ _ _ (Some true)); [exact Hs2| |].
      + eapply (Returns_bind_at t); [exact Hs2|apply Returns_hasFlag_at; eassumption|].
        rewrite Hkeep. intros t3 Hs3 Hr3.
        eapply (Returns_bind_at t); [exact Hs3|apply Returns_checkExact_at; eassumption|].
        rewrite Hcap. intros t4 Hs4 Hr4. apply Returns_ret, Hr4.
      + intros t3 Hs3 Hr3. apply Returns_ret, Hr3. }
    destruct (exact t lowerWord) eqn:Hlow; simpl.
    { eapply (Returns_bind_at t _ _ _ (Some true)); [exact Hs2| |].
      + eapply (Returns_bind_at t); [exact Hs2|apply Returns_hasFlag_at; eassumption|].
        rewrite Hkeep. intros t3 Hs3 Hr3.
        eapply (Returns_bind_at t); [exact Hs3|apply Returns_checkExact_at; eassumption|].
        rewrite Hcap. intros t4 Hs4 Hr4.
        eapply (Returns_bind_at t); [exact Hs4|apply Returns_checkExact_at; eassumption|].
        rewrite Hlow. intros t5 Hs5 Hr5. apply Returns_ret, Hr5.
      + intros t3 Hs3 Hr3. apply Returns_ret, Hr3. }
    eapply (Returns_bind_at t _ _ _ None); [exact Hs2| |].
    + eapply (Returns_bind_at t); [exact Hs2|apply Returns_hasFlag_at; eassumption|].
      rewrite Hkeep. intros t3 Hs3 Hr3.
      eapply (Returns_bind_at t); [exact Hs3|apply Returns_checkExact_at; eassumption|].
      rewrite Hcap. intros t4 Hs4 Hr4.
      eapply (Returns_bind_at t); [exact Hs4|apply Returns_checkExact_at; eassumption|].
      rewrite Hlow. intros t5 Hs5 Hr5. apply Returns_ret, Hr5.
    + intros t3 Hs3 Hr3. apply Htail; assumption.
Qed.

(** ** The partition cache *)

Section PartitionCache.
Context `{Builtins}.

(** A lookup of a prefix that is not cached reads the partition file again
    and caches what it read. *)
Lemma loadPartition_miss (t : Typo) (prefix : string) partitionInfo words :
  LRUCache.has (partitionCache t) prefix = false ->
  partitionIndex t !! prefix = Some partitionInfo ->
  files t !! partitionPath t partitionInfo = Some words ->
  exists t', _loadPartition prefix t = (Ret words, t')
    /\ reads t' = reads t ++ [partitionPath t partitionInfo]
    /\ partitionCache t' = LRUCache.set (partitionCache t) prefix words.
Proof.
  intros Hh Hi Hf. unfold _loadPartition. rewrite run_this_bind, Hh, Hi.
  unfold readPartitionFile, bind, this, update, ret. simpl. rewrite Hf. simpl.
  eexists. split; [reflexivity|]. split; reflexivity.
Qed.

End PartitionCache.

(** C9.  With a capacity that is not negative, after any sequence of [get]
    and [set] calls on a new cache the cache holds at most [maxSize]
    entries, and its keys are the [maxSize] most recently used keys, the
    least recently used first: a [set] that exceeds the capacity drops the
    least recently used entry.  A lookup of a prefix that is not (or no
    longer) in the partition cache reads the partition file again, returns
    its words and caches them. *)
Theorem lru_cache_bounded_and_reloads `{Builtins} :
  (forall (V : Type) (maxSize : Z) (ops : list (LRUCache.Op V)),
      0 <= maxSize ->
      let c := LRUCache.runOps (LRUCache.new maxSize) ops in
      Z.of_nat (List.length (LRUCache.cache c)) <= maxSize
      /\ LRUCache.keys c
         = LRUCache.lastn (Z.to_nat maxSize)
             (LRUCache.recency (LRUCache.new maxSize) ops []))
  /\ (forall (t : Typo) (prefix : string) partitionInfo words,
         LRUCache.has (partitionCache t) prefix = false ->
         partitionIndex t !! prefix = Some partitionInfo ->
         files t !! partitionPath t partitionInfo = Some words ->
         exists t', _loadPartition prefix t = (Ret words, t')
           /\ reads t' = reads t ++ [partitionPath t partitionInfo]
           /\ partitionCache t' = LRUCache.set (partitionCache t) prefix words).
Proof.
  split.
  - intros V maxSize ops Hm c. subst c. split.
    + apply (LRUFacts.size_runOps (LRUCache.new maxSize)); simpl; lia.
    + apply (LRURecency.keys_runOps (LRUCache.new maxSize) ops []);
        [exact Hm|constructor|].
      simpl. unfold LRUCache.lastn. simpl. reflexivity.
  - intros t prefix partitionInfo words. apply loadPartition_miss.
Qed.

(** The scenario of a partition cache of capacity 2: loading a third prefix
    evicts the least recently used partition, and a later lookup of the
    evicted prefix reads its file a second time. *)
Lemma lru_cache_bounded_and_reloads_witness :
  (0 <= 2
   /\ LRUCache.keys
        (LRUCache.runOps (LRUCache.new 2)
           [LRUCache.OpSet "ap" 1%nat; LRUCache.OpSet "br" 2%nat; LRUCache.OpSet "ch" 3%nat])
      = ["br"; "ch"])
  /\ (LRUCache.keys (partitionCache Examples.afterThreeLoads) = ["br"; "ch"]
      /\ reads Examples.afterThreeLoads
         = ["dicts/xx_XX/words/ap.json"; "dicts/xx_XX/words/br.json";
            "dicts/xx_XX/words/ch.json"]
      /\ exists t', _loadPartition "ap" Examples.afterThreeLoads
                    = (Ret [{| wd_w := "apple"; wd_r := None |}], t')
                    /\ reads t' = reads Examples.afterThreeLoads
                                  ++ ["dicts/xx_XX/words/ap.json"]).
Proof.
  pose proof (@lru_cache_bounded_and_reloads Ascii7.builtins) as [Hbound Hreload].
  split.
  - split; [lia|].
    destruct (Hbound nat 2
                [LRUCache.OpSet "ap" 1%nat; LRUCache.OpSet "br" 2%nat; LRUCache.OpSet "ch" 3%nat]
                ltac:(lia)) as [_ Hkeys].
    rewrite Hkeys. reflexivity.
  - split; [vm_compute; reflexivity|]. split; [vm_compute; reflexivity|].
    destruct (Hreload Examples.afterThreeLoads "ap"
                {| pi_file := "words/ap.json"; pi_count := 1 |}
                [{| wd_w := "apple"; wd_r := None |}])
      as (t' & Hl & Hreads & _).
    + vm_compute. reflexivity.
    + vm_compute. reflexivity.
    + vm_compute. reflexivity.
    + exists t'. split; [exact Hl|]. rewrite Hreads. f_equal.
Defined.

(** ** The ranking of the suggestions *)

Section ObjFacts.
Context {V : Type}.
Implicit Types (o : JS.Obj V) (k : string).


Lemma objGet_objSet_ne k k' (v : V) o :
  k <> k' -> JS.objGet k' (JS.objSet k v o) = JS.objGet k' o.
Proof.
  intros Hne. induction o as [|[k0 v0] o IH]; simpl.
  - destruct (String.eqb_spec k k'); [congruence|reflexivity].
  - destruct (String.eqb_spec k0 k) as [->|Hne0]; simpl.
    + destruct (String.eqb_spec k k'); [congruence|reflexivity].
    + destruct (String.eqb_spec k0 k'); [reflexivity|exact IH].
Qed.

End ObjFacts.



Lemma numericOutside_objGet (o : JS.Obj Weight) key w :
  numericOutside o -> JS.objGet key o = Some w -> JSObject.inherited key = false ->
  exists n, w = Num n.
Proof.
  unfold numericOutside. induction 1 as [|[k v] o Hk Ho IH]; simpl; [discriminate|].
  destruct (String.eqb_spec k key) as [->|Hne]; [|exact IH].
  intros [= ->] Hi. apply Hk, Hi.
Qed.

Lemma numericOutside_objSet (o : JS.Obj Weight) key w :
  (JSObject.inherited key = false -> exists n, w = Num n) ->
  numericOutside o -> numericOutside (JS.objSet key w o).
Proof.
  unfold numericOutside. intros Hw. induction 1 as [|[k v] o Hk Ho IH]; simpl.
  - repeat constructor. exact Hw.
  - destruct (String.eqb_spec k key) as [->|Hne]; constructor; assumption.
Qed.


Lemma sortInsert_map {A B} (f : A -> B) (cmp : B -> B -> Z) (x : A) (l : list A) :
  JS.sortInsert cmp (f x) (map f l)
  = map f (JS.sortInsert (fun a b => cmp (f a) (f b)) x l).
Proof.
  induction l as [|y l IH]; simpl; [reflexivity|].
  destruct (cmp (f y) (f x) <=? 0); simpl; [rewrite IH|]; reflexivity.
Qed.

(** Sorting the images under [f] is sorting with the comparison of the
    images. *)
Lemma sort_map {A B} (f : A -> B) (cmp : B -> B -> Z) (l : list A) :
  JS.sort cmp (map f l) = map f (JS.sort (fun a b => cmp (f a) (f b)) l).
Proof.
  unfold JS.sort.
  assert (forall acc,
            fold_left (fun acc x => JS.sortInsert cmp x acc) (map f l) (map f acc)
            = map f (fold_left (fun acc x =>
                                  JS.sortInsert (fun a b => cmp (f a) (f b)) x acc) l acc))
    as Hg.
  { induction l as [|x l IH]; intros acc; simpl; [reflexivity|].
    rewrite sortInsert_map. apply IH. }
  apply (Hg []).
Qed.

Lemma filter_map_key {V W} (f : V -> W) (p : string * V -> bool) (q : string * W -> bool)
    (o : JS.Obj V) :
  (forall e, q (fst e, f (snd e)) = p e) ->
  List.filter q (map (fun e => (fst e, f (snd e))) o)
  = map (fun e => (fst e, f (snd e))) (List.filter p o).
Proof.
  intros Hpq. induction o as [|e o IH]; simpl; [reflexivity|].
  rewrite Hpq. destruct (p e); simpl; rewrite IH; reflexivity.
Qed.

Lemma forIn_map {V W} (f : V -> W) (o : JS.Obj V) :
  JS.forIn (map (fun e => (fst e, f (snd e))) o)
  = map (fun e => (fst e, f (snd e))) (JS.forIn o).
Proof.
  unfold JS.forIn. rewrite map_app.
  rewrite (filter_map_key f
             (fun e => bool_decide (is_Some (JS.arrayIndex (fst e))))) by reflexivity.
  rewrite (filter_map_key f
             (fun e => negb (bool_decide (is_Some (JS.arrayIndex (fst e)))))) by reflexivity.
  rewrite (sort_map (fun e : string * V => (fst e, f (snd e))) JS.indexOrder). reflexivity.
Qed.


Lemma rank_permutation `{Builtins} (l : list (string * Weight)) : Permutation (rank l) l.
Proof.
  unfold rank. rewrite <- Permutation_rev. apply sort_perm.
Qed.

Section RankFacts.
Context `{Builtins}.

Hypothesis locale_total : forall a b, localeCompare a b <= 0 \/ localeCompare b a <= 0.
Hypothesis locale_trans :
  forall a b c, localeCompare a b <= 0 -> localeCompare b c <= 0 -> localeCompare a c <= 0.








End RankFacts.

Section PushFacts.
Context `{Builtins}.


Lemma Returns_pushCorrections (t0 t : Typo) (l acc : list (string * Weight)) :
  sameData t0 t -> Ready t ->
  Returns (foldM pushCorrection l acc) t (Ret (acc ++ map (boosted t0) l)).
Proof.
  revert acc t. induction l as [|e l IH]; intros acc t Hs Hr; simpl.
  - rewrite app_nil_r. apply Returns_ret, Hr.
  - eapply (Returns_bind_at t0 _ _ _ (acc ++ [boosted t0 e])); [exact Hs| |].
    + unfold pushCorrection.
      eapply (Returns_bind_at t0); [exact Hs|apply Returns_hasFlag_at; eassumption|].
      intros t1 Hs1 Hr1. apply Returns_ret, Hr1.
    + intros t1 Hs1 Hr1.
      replace (acc ++ boosted t0 e :: map (boosted t0) l)
        with ((acc ++ [boosted t0 e]) ++ map (boosted t0) l)
        by (rewrite <- app_assoc; reflexivity).
      apply IH; assumption.
Qed.



End PushFacts.

(** ** The suggestion engine *)

Section SuggestFacts.
Context `{Builtins}.
Implicit Types (t : Typo) (word : string).

Lemma Stable_check_alphabet aWord : Stable sameAlphabet (check aWord).
Proof. apply (Stable_weaken sameDict); [intros t t' [Hd _]; exact Hd|apply Stable_check]. Qed.

Lemma Stable_hasFlag_alphabet word flag : Stable sameAlphabet (hasFlag word flag None).
Proof. apply (Stable_weaken sameDict); [intros t t' [Hd _]; exact Hd|apply Stable_hasFlag]. Qed.

Lemma Stable_addEdit known_only _edit rv : Stable sameAlphabet (addEdit known_only _edit rv).
Proof.
  unfold addEdit. apply Stable_if; [apply Stable_ret|].
  apply Stable_bind; [exact _|apply Stable_check_alphabet|]. intros known.
  apply Stable_if; apply Stable_ret.
Qed.

Lemma Stable_editsAt letters known_only word_1 rv i :
  Stable sameAlphabet (editsAt letters known_only word_1 rv i).
Proof.
  unfold editsAt.
  apply Stable_bind; [exact _| |]. { apply Stable_if; [apply Stable_addEdit|apply Stable_ret]. }
  intros rv1.
  apply Stable_bind; [exact _| |].
  { destruct (JS.drop i word_1) as [|a [|b rest]]; try apply Stable_ret.
    apply Stable_if; [apply Stable_addEdit|apply Stable_ret]. }
  intros rv2.
  apply Stable_bind; [exact _| |].
  { apply Stable_if; [|apply Stable_ret]. apply Stable_foldM; [exact _|].
    intros rv3 letter. apply Stable_if; [apply Stable_addEdit|apply Stable_ret]. }
  intros rv3.
  apply Stable_if; [|apply Stable_ret]. apply Stable_foldM; [exact _|].
  intros rv4 letter. apply Stable_addEdit.
Qed.

Lemma Stable_edits1 {V} (words : JS.Obj V) known_only :
  Stable sameAlphabet (edits1 words known_only).
Proof.
  unfold edits1.
  apply (Stable_read sameAlphabet
           (fun t => map JS.char (JS.chars (alphabet t)))
           (fun letters =>
              foldM (fun rv e =>
                       foldM (editsAt letters known_only (fst e))
                             (seq 0 (S (String.length (fst e)))) rv)
                    (JS.forIn words) [])).
  - intros t t' [_ Ha]. rewrite Ha. reflexivity.
  - intros letters. apply Stable_foldM; [exact _|]. intros rv e.
    apply Stable_foldM; [exact _|]. intros rv' i. apply Stable_editsAt.
Qed.

Lemma Stable_addEd1 weighted_corrections e : Stable sameAlphabet (addEd1 weighted_corrections e).
Proof.
  unfold addEd1. apply Stable_bind; [exact _|apply Stable_check_alphabet|]. intros known.
  apply Stable_if; [apply Stable_ret|].
  destruct (JS.objGet _ _); [|destruct (JSObject.inherited _)]; apply Stable_ret.
Qed.

Lemma Stable_pushCorrection sorted_corrections e :
  Stable sameAlphabet (pushCorrection sorted_corrections e).
Proof.
  unfold pushCorrection.
  apply Stable_bind; [exact _|apply Stable_hasFlag_alphabet|]. intros priority.
  apply Stable_ret.
Qed.

Lemma Stable_weightedCorrections word : Stable sameAlphabet (weightedCorrections word).
Proof.
  unfold weightedCorrections.
  apply Stable_bind; [exact _|apply Stable_edits1|]. intros ed1.
  apply Stable_bind; [exact _|apply Stable_edits1|]. intros ed2.
  apply Stable_foldM; [exact _|]. intros wc e. apply Stable_addEd1.
Qed.

Lemma Stable_sortedCorrections word : Stable sameAlphabet (sortedCorrections word).
Proof.
  unfold sortedCorrections.
  apply Stable_bind; [exact _|apply Stable_weightedCorrections|]. intros wc.
  apply Stable_if; [apply Stable_throw|].
  apply Stable_bind; [exact _| |].
  { apply Stable_foldM; [exact _|]. intros sc e. apply Stable_pushCorrection. }
  intros sc. apply Stable_ret.
Qed.

Lemma Stable_tryReplacements word table : Stable sameDict (tryReplacements word table).
Proof.
  induction table as [|replacementEntry table IH]; simpl; [apply Stable_ret|].
  apply Stable_if; [|exact IH].
  apply Stable_bind; [exact _|apply Stable_check|]. intros ok.
  apply Stable_if; [apply Stable_ret|exact IH].
Qed.

Lemma Returns_hasFlag_dict t0 t word flag :
  sameDict t0 t -> Ready t -> Returns (hasFlag word flag None) t (Ret (flagged t0 word flag)).
Proof.
  intros Hs Hr. rewrite (flagged_dict t0 t) by exact Hs. apply Returns_hasFlag, Hr.
Qed.

(** The loop of [correct] returns the first accepted candidates, as many
    as the limit leaves room for. *)
Lemma Returns_collect t0 scheme rest :
  forall i working_limit rv t,
    sameDict t0 t -> Ready t ->
    Returns (collect scheme rest i working_limit rv) t
      (Ret (rv ++ List.firstn (Z.to_nat (working_limit - i)) (accepted t0 scheme rest rv))).
Proof.
  induction rest as [|e rest IH]; intros i wl rv t Hs Hr; simpl.
  - rewrite firstn_nil, app_nil_r. apply Returns_ret, Hr.
  - destruct (Z.ltb_spec i wl) as [Hlt|Hge].
    2:{ replace (Z.to_nat (wl - i)) with 0%nat by lia. simpl. rewrite app_nil_r.
        apply Returns_ret, Hr. }
    eapply Returns_bind; [apply Returns_hasFlag_dict; eassumption|].
    intros t1 Hs1 Hr1.
    assert (sameDict t0 t1) as Hs0
      by (eapply sameDict_trans; [exact Hs|apply sameData_sameDict, Hs1]).
    destruct (negb (flagged t0 (recase scheme (fst e)) "NOSUGGEST")
              && negb (bool_decide (recase scheme (fst e) ∈ rv))).
    + replace (Z.to_nat (wl - i)) with (S (Z.to_nat (wl - (i + 1)))) by lia.
      simpl. replace (rv ++ recase scheme (fst e) :: List.firstn (Z.to_nat (wl - (i + 1)))
                        (accepted t0 scheme rest (rv ++ [recase scheme (fst e)])))
        with ((rv ++ [recase scheme (fst e)]) ++ List.firstn (Z.to_nat (wl - (i + 1)))
                        (accepted t0 scheme rest (rv ++ [recase scheme (fst e)])))
        by (rewrite <- app_assoc; reflexivity).
      apply IH; assumption.
    + replace (wl - i) with (wl + 1 - (i + 1)) by lia. apply IH; assumption.
Qed.

Lemma initAlphabet_dict t t' : sameDict t t' -> initAlphabet t = initAlphabet t'.
Proof.
  intros Hs. apply sameDict_fields in Hs.
  destruct Hs as (_ & _ & _ & _ & Hf & _).
  unfold initAlphabet, rawAlphabet, flagText. rewrite Hf. reflexivity.
Qed.

Ltac fresh_unchanged :=
  split; [reflexivity|]; split; [assumption|];
  split; [apply sameData_sameDict; assumption|];
  split; [left; congruence|];
  split; [left; congruence|];
  intros; discriminate.

(** [suggestFresh] returns [freshResult]; it leaves the instance Ready, with
    the same dictionary, and either keeps the memo or stores its result
    (under a word other than ["__proto__"]). *)
Lemma suggestFresh_run t word limit :
  Ready t ->
  exists t', suggestFresh word limit t = (freshResult t word limit, t')
    /\ Ready t' /\ sameDict t t'
    /\ (alphabet t' = alphabet t \/ alphabet t' = effectiveAlphabet t)
    /\ (memoized t' = memoized t
        \/ (exists suggestions,
               freshResult t word limit = Ret suggestions
               /\ alphabet t' = effectiveAlphabet t
               /\ memoized t' = <[word := (suggestions, limit)]> (memoized t)))
    /\ (fst (check word t) = Ret false ->
        fst (tryReplacements word (replacementTable t) t) = Ret None ->
        forall suggestions,
          freshResult t word limit = Ret suggestions ->
          memoized t' = if String.eqb word "__proto__" then memoized t
                        else <[word := (suggestions, limit)]> (memoized t)).
Proof.
  intros Hr. unfold suggestFresh, freshResult.
  (* check(word) *)
  destruct (Stable_check word t t Hr Hr (sameDict_refl t)) as (_ & Hr1 & Hs1).
  unfold bind at 1. destruct (check word t) as [rc t1]. simpl in Hr1, Hs1. simpl fst.
  pose proof (sameData_fields _ _ Hs1) as (_ & _ & _ & Hrep1 & _ & Hmemo1 & _ & Halpha1 & _).
  destruct rc as [[|]|e].
  { exists t1. unfold ret. fresh_unchanged. }
  2:{ exists t1. fresh_unchanged. }
  (* the replacement table *)
  rewrite run_this_bind. rewrite <- Hrep1.
  destruct (Stable_tryReplacements word (replacementTable t) t1 t Hr1 Hr
              (sameDict_sym _ _ (sameData_sameDict _ _ Hs1))) as (Heq2 & Hr2 & Hs2).
  unfold bind at 1. destruct (tryReplacements word (replacementTable t) t1) as [rr t2].
  simpl in Heq2, Hr2, Hs2. rewrite <- Heq2.
  assert (sameData t t2) as Hs02 by (eapply sameData_trans; eassumption).
  pose proof (sameData_fields _ _ Hs02) as (_ & _ & _ & _ & _ & Hmemo2 & _ & Halpha2 & _).
  destruct rr as [[correctedWord|]|e].
  { exists t2. unfold ret. fresh_unchanged. }
  2:{ exists t2. fresh_unchanged. }
  (* the alphabet *)
  rewrite run_this_bind.
  set (t3 := if String.eqb (alphabet t2) "" then set_alphabet (initAlphabet t2) t2 else t2).
  assert (bind (if String.eqb (alphabet t2) ""
                then update (set_alphabet (initAlphabet t2)) else ret tt)
               (fun _ =>
                  bind (correct word limit)
                    (fun suggestions =>
                       bind this
                         (fun t4 =>
                            bind (update (set_memoized
                                            (if String.eqb word "__proto__" then memoized t4
                                             else <[word := (suggestions, limit)]>
                                                    (memoized t4))))
                              (fun _ => ret suggestions)))) t2
          = bind (correct word limit)
              (fun suggestions =>
                 bind this
                   (fun t4 =>
                      bind (update (set_memoized
                                      (if String.eqb word "__proto__" then memoized t4
                                       else <[word := (suggestions, limit)]> (memoized t4))))
                        (fun _ => ret suggestions))) t3) as ->.
  { subst t3. unfold bind at 1. destruct (String.eqb (alphabet t2) ""); reflexivity. }
  assert (Ready t3) as Hr3 by (subst t3; destruct (String.eqb (alphabet t2) ""); assumption).
  assert (sameDict t t3) as Hs3.
  { subst t3. destruct (String.eqb (alphabet t2) "");
      [eapply sameDict_trans; [apply sameData_sameDict, Hs02|apply sameDict_set_alphabet]
      |apply sameData_sameDict, Hs02]. }
  assert (alphabet t3 = effectiveAlphabet t) as Ha3.
  { subst t3. unfold effectiveAlphabet. rewrite Halpha2.
    destruct (String.eqb (alphabet t2) ""); [|reflexivity].
    simpl. symmetry. apply initAlphabet_dict, sameData_sameDict, Hs02. }
  assert (memoized t3 = memoized t) as Hm3.
  { subst t3. destruct (String.eqb (alphabet t2) ""); simpl; congruence. }
  clearbody t3.
  (* the ranking *)
  unfold correct.
  destruct (Stable_sortedCorrections word t3 (set_alphabet (effectiveAlphabet t) t) Hr3
              (Ready_set_alphabet _ _ Hr))
    as (Heq4 & Hr4 & Hs4).
  { split; [eapply sameDict_trans; [apply sameDict_sym, Hs3|apply sameDict_set_alphabet]
           |exact Ha3]. }
  unfold bind at 1. unfold bind at 1.
  destruct (sortedCorrections word t3) as [rs t4]. simpl in Heq4, Hr4, Hs4. rewrite <- Heq4.
  pose proof (sameData_fields _ _ Hs4) as (_ & _ & _ & _ & _ & Hmemo4 & _ & Halpha4 & _).
  assert (sameDict t t4) as Hs04
    by (eapply sameDict_trans; [exact Hs3|apply sameData_sameDict, Hs4]).
  destruct rs as [sorted_corrections|e].
  2:{ exists t4. split; [reflexivity|]. split; [assumption|]. split; [assumption|].
      split; [right; congruence|]. split; [left; congruence|]. intros; discriminate. }
  (* the loop *)
  destruct (Returns_collect t (capitalization_scheme word) sorted_corrections 0 limit [] t4
              Hs04 Hr4) as (t5 & Hrun5 & Hs5 & Hr5).
  rewrite Hrun5. rewrite Z.sub_0_r. simpl app.
  pose proof (sameData_fields _ _ Hs5) as (_ & _ & _ & _ & _ & Hmemo5 & _ & Halpha5 & _).
  rewrite run_this_bind. unfold bind, update, ret. simpl.
  eexists. split; [reflexivity|].
  split; [apply Ready_set_memoized, Hr5|].
  split.
  { eapply sameDict_trans; [exact Hs04|].
    eapply sameDict_trans; [apply sameData_sameDict, Hs5|apply sameDict_set_memoized]. }
  split; [right; simpl; congruence|].
  split.
  - destruct (String.eqb word "__proto__"); [left; simpl; congruence|].
    right. eexists. split; [reflexivity|]. simpl.
    split; [congruence|]. f_equal. congruence.
  - intros _ _ suggestions [= <-]. simpl.
    destruct (String.eqb word "__proto__"); [congruence|]. f_equal. congruence.
Qed.

Lemma accepted_dict t t' scheme rest rv :
  sameDict t t' -> accepted t scheme rest rv = accepted t' scheme rest rv.
Proof.
  intros Hs. revert rv. induction rest as [|e rest IH]; intros rv; simpl; [reflexivity|].
  rewrite (flagged_dict t t') by exact Hs. rewrite !IH. reflexivity.
Qed.

Lemma accepted_NoDup t scheme rest :
  forall rv, List.NoDup rv -> List.NoDup (rv ++ accepted t scheme rest rv).
Proof.
  induction rest as [|e rest IH]; intros rv Hd; simpl.
  - rewrite app_nil_r. exact Hd.
  - destruct (negb (flagged t (recase scheme (fst e)) "NOSUGGEST")); simpl;
      [|apply IH, Hd].
    destruct (bool_decide (recase scheme (fst e) ∈ rv)) eqn:Hin; simpl; [apply IH, Hd|].
    apply bool_decide_eq_false in Hin. rewrite list_elem_of_In in Hin.
    replace (rv ++ recase scheme (fst e) :: accepted t scheme rest (rv ++ [recase scheme (fst e)]))
      with ((rv ++ [recase scheme (fst e)])
            ++ accepted t scheme rest (rv ++ [recase scheme (fst e)]))
      by (rewrite <- app_assoc; reflexivity).
    apply IH. apply List.NoDup_app; [exact Hd|repeat constructor; intros []|].
    intros a Ha [<-|[]]. apply Hin, Ha.
Qed.

Lemma NoDup_firstn_list {A} (n : nat) (l : list A) : List.NoDup l -> List.NoDup (List.firstn n l).
Proof.
  intros Hd. rewrite <- (firstn_skipn n l) in Hd.
  apply List.NoDup_app_remove_r in Hd. exact Hd.
Qed.

(** What a computation without the memo returns: at most [limit]
    suggestions, without duplicates. *)
Lemma freshResult_bounded t word limit suggestions :
  freshResult t word limit = Ret suggestions ->
  List.NoDup suggestions
  /\ (0 < limit -> Z.of_nat (List.length suggestions) <= limit).
Proof.
  unfold freshResult. destruct (fst (check word t)) as [[|]|e]; try discriminate.
  { intros [= <-]. split; [constructor|simpl; lia]. }
  destruct (fst (tryReplacements word (replacementTable t) t)) as [[c|]|e]; try discriminate.
  { intros [= <-]. split; [repeat constructor; intros []|simpl; lia]. }
  destruct (fst (sortedCorrections word _)) as [sc|e]; try discriminate.
  intros [= <-]. split.
  - apply NoDup_firstn_list. apply (accepted_NoDup t _ sc []). constructor.
  - intros Hl. pose proof (firstn_le_length (Z.to_nat limit)
                             (accepted t (capitalization_scheme word) sc [])). lia.
Qed.

(** The result for a smaller limit is a prefix of the result for a larger
    one, and a result that does not fill its limit is complete. *)
Lemma freshResult_prefix t word limit memoizedLimit suggestions :
  freshResult t word memoizedLimit = Ret suggestions ->
  0 < limit ->
  limit <= memoizedLimit \/ Z.of_nat (List.length suggestions) < memoizedLimit ->
  freshResult t word limit = Ret (JS.slice0 limit suggestions).
Proof.
  unfold freshResult, JS.slice0. intros Hfresh Hl Hcond.
  destruct (Z.ltb_spec limit 0) as [?|_]; [lia|].
  destruct (fst (check word t)) as [[|]|e]; try discriminate.
  { injection Hfresh as <-. rewrite firstn_nil. reflexivity. }
  destruct (fst (tryReplacements word (replacementTable t) t)) as [[c|]|e]; try discriminate.
  { injection Hfresh as <-. replace (Z.to_nat limit) with (S (Z.to_nat (limit - 1))) by lia.
    simpl. rewrite firstn_nil. reflexivity. }
  destruct (fst (sortedCorrections word _)) as [sc|e]; try discriminate.
  injection Hfresh as <-. f_equal.
  set (F := accepted t (capitalization_scheme word) sc []) in *.
  destruct Hcond as [Hle|Hshort].
  - rewrite firstn_firstn. f_equal. lia.
  - rewrite length_firstn in Hshort.
    rewrite (firstn_all2 (n := Z.to_nat memoizedLimit)) by lia. reflexivity.
Qed.

Lemma effectiveAlphabet_set t t' :
  sameDict t t' -> alphabet t' = effectiveAlphabet t ->
  effectiveAlphabet t' = effectiveAlphabet t.
Proof.
  intros Hs Ha. unfold effectiveAlphabet at 1. rewrite Ha.
  destruct (String.eqb_spec (effectiveAlphabet t) "") as [He|_]; [|reflexivity].
  rewrite <- (initAlphabet_dict t t') by exact Hs.
  unfold effectiveAlphabet in *.
  destruct (String.eqb_spec (alphabet t) "") as [_|Hne]; [reflexivity|congruence].
Qed.

Lemma effectiveAlphabet_same t t' :
  sameDict t t' -> alphabet t' = alphabet t ->
  effectiveAlphabet t' = effectiveAlphabet t.
Proof.
  intros Hs Ha. unfold effectiveAlphabet. rewrite Ha.
  rewrite (initAlphabet_dict t t') by exact Hs. reflexivity.
Qed.

(** The result does not depend on the caches, the memo and the log, and it
    depends on the alphabet only through the alphabet that the edits use. *)
Lemma freshResult_dict t t' word limit :
  Ready t -> Ready t' -> sameDict t t' ->
  effectiveAlphabet t' = effectiveAlphabet t ->
  freshResult t' word limit = freshResult t word limit.
Proof.
  intros Hr Hr' Hs Ha. unfold freshResult.
  destruct (Stable_check word t' t Hr' Hr (sameDict_sym _ _ Hs)) as (-> & _ & _).
  pose proof (sameDict_fields _ _ Hs) as (_ & _ & _ & Hrep & _).
  rewrite <- Hrep.
  destruct (Stable_tryReplacements word (replacementTable t) t' t Hr' Hr
              (sameDict_sym _ _ Hs)) as (-> & _ & _).
  destruct (Stable_sortedCorrections word
              (set_alphabet (effectiveAlphabet t') t') (set_alphabet (effectiveAlphabet t) t)
              (Ready_set_alphabet _ _ Hr') (Ready_set_alphabet _ _ Hr)) as (-> & _ & _).
  { split; [|simpl; exact Ha].
    eapply sameDict_trans; [apply sameDict_sym, sameDict_set_alphabet|].
    eapply sameDict_trans; [apply sameDict_sym, Hs|apply sameDict_set_alphabet]. }
  destruct (fst (check word t)) as [[|]|e]; try reflexivity.
  destruct (fst (tryReplacements word (replacementTable t) t)) as [[c|]|e]; try reflexivity.
  destruct (fst (sortedCorrections word _)) as [sc|e]; try reflexivity.
  rewrite (accepted_dict t' t) by (apply sameDict_sym, Hs). reflexivity.
Qed.

(** A memo entry whose limit or length lets [suggest] serve the call *)
Lemma memo_serves t word limit suggestions memoizedLimit :
  Ready t -> memoSound t -> 0 < limit ->
  memoized t !! word = Some (suggestions, memoizedLimit) ->
  (limit <=? memoizedLimit) || (Z.of_nat (List.length suggestions) <? memoizedLimit) = true ->
  freshResult t word limit = Ret (JS.slice0 limit suggestions).
Proof.
  intros Hr Hm Hl Hlook Hcond.
  pose proof (Hm word suggestions memoizedLimit Hlook) as Hfresh.
  destruct (suggestFresh_run t word memoizedLimit Hr) as (t' & Hrun & _).
  rewrite Hrun in Hfresh. simpl in Hfresh.
  apply (freshResult_prefix t word limit memoizedLimit); [exact Hfresh|exact Hl|].
  apply orb_true_iff in Hcond. destruct Hcond as [Hc|Hc]; [left|right]; lia.
Qed.

(** [suggestFresh] keeps the memo sound. *)
Lemma suggestFresh_memoSound t word limit :
  Ready t -> memoSound t ->
  Ready (snd (suggestFresh word limit t)) /\ memoSound (snd (suggestFresh word limit t)).
Proof.
  intros Hr Hm.
  destruct (suggestFresh_run t word limit Hr) as (t' & Hrun & Hr' & Hs & Halpha & Hmemo & _).
  rewrite Hrun. simpl. split; [exact Hr'|].
  assert (effectiveAlphabet t' = effectiveAlphabet t) as He.
  { destruct Halpha as [Ha|Ha]; [apply effectiveAlphabet_same|apply effectiveAlphabet_set];
      assumption. }
  assert (forall w k, freshResult t' w k = freshResult t w k) as Hfr
    by (intros; apply freshResult_dict; assumption).
  intros w s k Hlook.
  destruct (suggestFresh_run t' w k Hr') as (t'' & -> & _). simpl. rewrite Hfr.
  assert (memoized t !! w = Some (s, k) -> freshResult t w k = Ret s) as Hold.
  { intros Hl. pose proof (Hm w s k Hl) as Hf.
    destruct (suggestFresh_run t w k Hr) as (t0 & Hrun0 & _).
    rewrite Hrun0 in Hf. exact Hf. }
  destruct Hmemo as [Heq|(s' & Hs' & _ & Heq)]; rewrite Heq in Hlook; [auto|].
  destruct (decide (word = w)) as [->|Hne].
  - rewrite lookup_insert_eq in Hlook. injection Hlook as <- <-. exact Hs'.
  - rewrite lookup_insert_ne in Hlook by exact Hne. auto.
Qed.

(** The ranked list is the list of the weighted candidates, in the order
    of [for (i in weighted_corrections)], boosted and ranked. *)
Lemma sortedCorrections_rank t word weighted_corrections t1 :
  Ready t ->
  weightedCorrections word t = (Ret weighted_corrections, t1) ->
  JS.objGet "hasOwnProperty" weighted_corrections = None ->
  fst (sortedCorrections word t)
  = Ret (rank (map (boosted t) (JS.forIn weighted_corrections))).
Proof.
  intros Hr Hw Hown. unfold sortedCorrections.
  destruct (Stable_weightedCorrections word t t Hr Hr)
    as (_ & Hr1 & Hs1); [split; [apply sameDict_refl|reflexivity]|].
  rewrite Hw in Hr1, Hs1. simpl in Hr1, Hs1.
  rewrite (run_bind _ _ _ _ _ Hw), Hown.
  rewrite bool_decide_eq_false_2 by (intros [x Hx]; discriminate Hx).
  destruct (Returns_pushCorrections t t1 (JS.forIn weighted_corrections) [] Hs1 Hr1)
    as (t2 & Hrun & _).
  rewrite (run_bind _ _ _ _ _ Hrun). reflexivity.
Qed.

(** [correct] returns the first accepted candidates of the ranked list. *)
Lemma correct_accepted t word limit sorted_corrections t1 :
  Ready t ->
  sortedCorrections word t = (Ret sorted_corrections, t1) ->
  fst (correct word limit t)
  = Ret (List.firstn (Z.to_nat limit)
           (accepted t (capitalization_scheme word) sorted_corrections [])).
Proof.
  intros Hr Hsc. unfold correct.
  destruct (Stable_sortedCorrections word t t Hr Hr)
    as (_ & Hr1 & Hs1); [split; [apply sameDict_refl|reflexivity]|].
  rewrite Hsc in Hr1, Hs1. simpl in Hr1, Hs1.
  rewrite (run_bind _ _ _ _ _ Hsc).
  destruct (Returns_collect t (capitalization_scheme word) sorted_corrections 0 limit [] t1
              (sameData_sameDict _ _ Hs1) Hr1) as (t2 & -> & _).
  rewrite Z.sub_0_r. reflexivity.
Qed.

(** The accepted candidates keep the order of the ranked list. *)
Lemma accepted_sublist t scheme rest :
  forall rv, sublist (accepted t scheme rest rv)
                     (map (fun e => recase scheme (fst e)) rest).
Proof.
  induction rest as [|e rest IH]; intros rv; simpl; [constructor|].
  destruct (negb (flagged t (recase scheme (fst e)) "NOSUGGEST")
            && negb (bool_decide (recase scheme (fst e) ∈ rv)));
    [apply sublist_skip|apply sublist_cons]; apply IH.
Qed.

(** The queries that leave the data as it is keep the memo sound. *)
Lemma memoSound_sameData t t' :
  Ready t -> Ready t' -> sameData t t' -> memoSound t -> memoSound t'.
Proof.
  intros Hr Hr' Hs Hm w s k Hlook.
  pose proof (sameData_fields _ _ Hs) as (_ & _ & _ & _ & _ & Hmemo & _ & Halpha & _).
  rewrite <- Hmemo in Hlook. pose proof (Hm w s k Hlook) as Hfresh.
  destruct (suggestFresh_run t w k Hr) as (t1 & Hrun & _). rewrite Hrun in Hfresh.
  destruct (suggestFresh_run t' w k Hr') as (t2 & -> & _). simpl in *.
  rewrite <- Hfresh. apply freshResult_dict; [assumption..|apply sameData_sameDict, Hs|].
  apply effectiveAlphabet_same; [apply sameData_sameDict, Hs|congruence].
Qed.

End SuggestFacts.


(** ** When the queries return *)

Section SpaceFacts.

Lemma spaceFree_app a b :
  JS.spaceFree (a +:+ b) = JS.spaceFree a && JS.spaceFree b.
Proof.
  unfold JS.spaceFree. induction a as [|c a IH]; simpl; [reflexivity|].
  rewrite IH. apply andb_assoc.
Qed.

Lemma spaceFree_cons c s :
  JS.spaceFree (String c s) = negb (JS.isSpace c) && JS.spaceFree s.
Proof. reflexivity. Qed.

Lemma spaceFree_take n s : JS.spaceFree s = true -> JS.spaceFree (JS.take n s) = true.
Proof.
  revert s. induction n as [|n IH]; intros [|c s]; simpl; try reflexivity.
  rewrite !spaceFree_cons, !andb_true_iff. intros [Hc Hs]. auto.
Qed.

Lemma spaceFree_drop n s : JS.spaceFree s = true -> JS.spaceFree (JS.drop n s) = true.
Proof.
  revert s. induction n as [|n IH]; intros [|c s]; simpl; try (intros Hs; exact Hs).
  rewrite spaceFree_cons, andb_true_iff. intros [Hc Hs]. auto.
Qed.

Lemma spaceFree_isPrefix p s :
  JS.isPrefix p s = true -> JS.spaceFree s = true -> JS.spaceFree p = true.
Proof.
  revert s. induction p as [|a p IH]; intros [|b s]; simpl; try reflexivity;
    try discriminate.
  destruct (Ascii.eqb_spec a b) as [->|_]; [|discriminate].
  rewrite !spaceFree_cons, !andb_true_iff. intros Hp [Hb Hs]. eauto.
Qed.

Lemma spaceFree_expand r matched before after :
  JS.spaceFree r = true -> JS.spaceFree matched = true ->
  JS.spaceFree before = true -> JS.spaceFree after = true ->
  JS.spaceFree (JS.expand r matched before after) = true.
Proof.
  intros Hr Hm Hb Ha. revert r Hr.
  assert (forall n r, (String.length r <= n)%nat -> JS.spaceFree r = true ->
            JS.spaceFree (JS.expand r matched before after) = true) as Hg.
  { induction n as [|n IH]; intros [|c r] Hlen Hr; try reflexivity;
      [simpl in Hlen; lia|].
    simpl in Hlen. rewrite spaceFree_cons, andb_true_iff in Hr. destruct Hr as [Hc Hr].
    assert (JS.spaceFree (String c (JS.expand r matched before after)) = true) as Hrest.
    { rewrite spaceFree_cons, Hc. apply IH; [lia|exact Hr]. }
    simpl. destruct (Ascii.eqb c "$"); [|exact Hrest].
    destruct r as [|d r']; [rewrite spaceFree_cons, Hc; reflexivity|].
    rewrite spaceFree_cons, andb_true_iff in Hr. destruct Hr as [Hd Hr'].
    assert (JS.spaceFree (JS.expand r' matched before after) = true) as Hrest'
      by (apply IH; [simpl in Hlen; lia|exact Hr']).
    destruct (Ascii.eqb d "$"); [rewrite spaceFree_cons, Hrest'; reflexivity|].
    destruct (Ascii.eqb d "&"); [rewrite spaceFree_app, Hm, Hrest'; reflexivity|].
    destruct (Ascii.eqb d "`"); [rewrite spaceFree_app, Hb, Hrest'; reflexivity|].
    destruct (Ascii.eqb d "'"); [rewrite spaceFree_app, Ha, Hrest'; reflexivity|].
    exact Hrest. }
  intros r. apply (Hg (String.length r)). lia.
Qed.

Lemma spaceFree_replaceFrom p r before s :
  JS.spaceFree r = true -> JS.spaceFree before = true -> JS.spaceFree s = true ->
  JS.spaceFree (JS.replaceFrom p r before s) = true.
Proof.
  intros Hr. revert before. induction s as [|c s IH]; intros before Hb Hs.
  - simpl. destruct (JS.isPrefix p "") eqn:Hp; [|exact Hb].
    rewrite !spaceFree_app, Hb, andb_true_l, andb_true_iff. split.
    + apply spaceFree_expand; [exact Hr|eapply spaceFree_isPrefix; eassumption|exact Hb|].
      apply spaceFree_drop. reflexivity.
    + apply spaceFree_drop. reflexivity.
  - simpl. destruct (JS.isPrefix p (String c s)) eqn:Hp.
    + rewrite !spaceFree_app, Hb, andb_true_l, andb_true_iff. split.
      * apply spaceFree_expand; [exact Hr|eapply spaceFree_isPrefix; eassumption|exact Hb|].
        apply spaceFree_drop, Hs.
      * apply spaceFree_drop, Hs.
    + rewrite spaceFree_cons, andb_true_iff in Hs. destruct Hs as [Hc Hs].
      apply IH; [|exact Hs]. rewrite spaceFree_app, Hb. unfold JS.char.
      rewrite spaceFree_cons, Hc. reflexivity.
Qed.

Lemma spaceFree_replace p r s :
  JS.spaceFree r = true -> JS.spaceFree s = true -> JS.spaceFree (JS.replace p r s) = true.
Proof.
  intros Hr Hs. apply spaceFree_replaceFrom; [exact Hr|reflexivity|exact Hs].
Qed.

(** [trim] leaves a word without white space as it is. *)
Lemma trim_spaceFree s : JS.spaceFree s = true -> JS.trimEnd (JS.trimStart s) = s.
Proof.
  intros Hs.
  assert (JS.trimStart s = s) as ->.
  { destruct s as [|c s]; [reflexivity|]. simpl.
    rewrite spaceFree_cons, andb_true_iff, negb_true_iff in Hs. destruct Hs as [-> _].
    reflexivity. }
  induction s as [|c s IH]; [reflexivity|].
  rewrite spaceFree_cons, andb_true_iff, negb_true_iff in Hs. destruct Hs as [Hc Hs].
  simpl. rewrite (IH Hs), Hc. destruct s; reflexivity.
Qed.

Lemma forIn_In {V} (o : JS.Obj V) e : In e (JS.forIn o) -> In e o.
Proof.
  unfold JS.forIn. rewrite in_app_iff, sort_In, !filter_In. tauto.
Qed.

Lemma spaceFreeKeys_forIn {V} (o : JS.Obj V) e :
  JS.spaceFreeKeys o -> In e (JS.forIn o) -> JS.spaceFree (fst e) = true.
Proof.
  intros Ho He. unfold JS.spaceFreeKeys in Ho. rewrite List.Forall_forall in Ho.
  apply Ho, forIn_In, He.
Qed.

Lemma Forall_keys_objSet {V} (P : string -> Prop) key (v : V) o :
  P key -> List.Forall (fun e => P (fst e)) o ->
  List.Forall (fun e => P (fst e)) (JS.objSet key v o).
Proof.
  intros Hk. induction 1 as [|[k v'] o Hkv Ho IH]; simpl.
  - repeat constructor. exact Hk.
  - destruct (String.eqb k key); constructor; assumption.
Qed.

Lemma spaceFreeKeys_objSet {V} key (v : V) o :
  JS.spaceFree key = true -> JS.spaceFreeKeys o -> JS.spaceFreeKeys (JS.objSet key v o).
Proof. apply (Forall_keys_objSet (fun k => JS.spaceFree k = true)). Qed.

Lemma Forall_keys_objGet {V} (P : string -> Prop) key (o : JS.Obj V) :
  List.Forall (fun e => P (fst e)) o -> ~ P key -> JS.objGet key o = None.
Proof.
  intros Ho Hk. induction Ho as [|[k v] o Hkv Ho IH]; simpl; [reflexivity|].
  destruct (String.eqb_spec k key) as [->|_]; [destruct (Hk Hkv)|exact IH].
Qed.

End SpaceFacts.

Section ReturnFacts.
Context `{Builtins}.
Implicit Types (t : Typo) (word : string).

Lemma Yields_ret t0 {A} (a : A) (P : A -> Prop) : P a -> Yields t0 (ret a) P.
Proof. intros Ha t Hs Hr. exists a. split; [apply Returns_ret, Hr|exact Ha]. Qed.

Lemma Yields_bind t0 {A B} (m : M A) (k : A -> M B) (P : A -> Prop) (Q : B -> Prop) :
  Yields t0 m P -> (forall a, P a -> Yields t0 (k a) Q) -> Yields t0 (bind m k) Q.
Proof.
  intros Hm Hk t Hs Hr.
  destruct (Hm t Hs Hr) as (a & (t1 & Hrun & Hs1 & Hr1) & Ha).
  assert (sameData t0 t1) as Hs01 by (eapply sameData_trans; eassumption).
  destruct (Hk a Ha t1 Hs01 Hr1) as (b & (t2 & Hrun2 & Hs2 & Hr2) & Hb).
  exists b. split; [|exact Hb]. exists t2.
  rewrite (run_bind _ _ _ _ _ Hrun). eauto using sameData_trans.
Qed.

Lemma Yields_this t0 {A} (k : Typo -> M A) (Q : A -> Prop) :
  (forall t, sameData t0 t -> Yields t0 (k t) Q) -> Yields t0 (bind this k) Q.
Proof.
  intros Hk t Hs Hr. destruct (Hk t Hs t Hs Hr) as (a & Hret & Ha).
  exists a. split; [apply Returns_this_bind, Hret|exact Ha].
Qed.

Lemma Yields_foldM t0 {A B} (f : B -> A -> M B) (l : list A) (P : B -> Prop) :
  (forall b x, In x l -> P b -> Yields t0 (f b x) P) ->
  forall b, P b -> Yields t0 (foldM f l b) P.
Proof.
  induction l as [|x l IH]; intros Hf b Hb; simpl.
  - apply Yields_ret, Hb.
  - apply (Yields_bind t0 _ _ P); [apply Hf; [left; reflexivity|exact Hb]|].
    intros b' Hb'. apply IH; [|exact Hb']. intros b0 y Hy. apply Hf. right. exact Hy.
Qed.

Lemma Yields_any t0 {A} (m : M A) :
  (forall t, Ready t -> exists a, Returns m t (Ret a)) -> Yields t0 m (fun _ => True).
Proof. intros Hm t _ Hr. destruct (Hm t Hr) as (a & Ha). exists a. auto. Qed.

Lemma Yields_requireLoaded t0 : Yields t0 requireLoaded (fun _ => True).
Proof. apply Yields_any. intros t Hr. exists tt. apply Returns_requireLoaded, Hr. Qed.

Lemma Yields_checkExact t0 word : Yields t0 (checkExact word) (fun _ => True).
Proof. apply Yields_any. intros t Hr. eexists. apply Returns_checkExact, Hr. Qed.

Lemma Yields_hasFlag t0 word flag : Yields t0 (hasFlag word flag None) (fun _ => True).
Proof. apply Yields_any. intros t Hr. eexists. apply Returns_hasFlag, Hr. Qed.

Ltac yields_ret := apply Yields_ret; exact I.

Ltac yields_lookup :=
  eapply (Yields_bind _ _ _ (fun _ => True));
    [first [apply Yields_checkExact|apply Yields_hasFlag|apply Yields_requireLoaded]|].

(** [check] returns a boolean for every word except the words made of white
    space only. *)
Lemma Yields_check t0 aWord :
  (aWord <> "" -> JS.trimEnd (JS.trimStart aWord) <> "") ->
  Yields t0 (check aWord) (fun _ => True).
Proof.
  intros Hne. unfold check. yields_lookup. intros _ _.
  destruct (String.eqb_spec aWord "") as [_|Hw]; [yields_ret|].
  specialize (Hne Hw). revert Hne. generalize (JS.trimEnd (JS.trimStart aWord)).
  intros trimmedWord Hne.
  yields_lookup. intros [|] _; [yields_ret|].
  apply (Yields_bind _ _ _ (fun _ => True)).
  - destruct (String.eqb (toUpperCase trimmedWord) trimmedWord); [|yields_ret].
    yields_lookup. intros [|] _; [yields_ret|].
    yields_lookup. intros [|] _; [yields_ret|].
    yields_lookup. intros [|] _; yields_ret.
  - intros [b|] _; [yields_ret|].
    destruct trimmedWord as [|c rest]; [congruence|]. simpl JS.head. cbv iota.
    destruct (negb _); [|yields_ret].
    yields_lookup. intros [|] _; [yields_ret|].
    yields_lookup. intros [|] _; yields_ret.
Qed.

Lemma Yields_check_spaceFree t0 aWord :
  JS.spaceFree aWord = true -> Yields t0 (check aWord) (fun _ => True).
Proof.
  intros Hs. apply Yields_check. rewrite (trim_spaceFree _ Hs). auto.
Qed.

(** The boolean that [check] returns is the one it returns on every
    instance with the same data. *)
Lemma Yields_check_value t0 aWord :
  Ready t0 ->
  (aWord <> "" -> JS.trimEnd (JS.trimStart aWord) <> "") ->
  Yields t0 (check aWord) (fun b => fst (check aWord t0) = Ret b).
Proof.
  intros Hr0 Hne t Hs Hr.
  destruct (Yields_check t0 aWord Hne t Hs Hr) as (b & Hret & _).
  exists b. split; [exact Hret|]. destruct Hret as (t' & Hrun & _).
  destruct (Stable_check aWord t0 t Hr0 Hr (sameData_sameDict _ _ Hs)) as (-> & _).
  rewrite Hrun. reflexivity.
Qed.

Lemma Yields_known t0 aWord :
  Ready t0 -> JS.spaceFree aWord = true ->
  Yields t0 (check aWord) (fun b => fst (check aWord t0) = Ret b).
Proof.
  intros Hr0 Hs. apply Yields_check_value; [exact Hr0|].
  rewrite (trim_spaceFree _ Hs). auto.
Qed.

(** *** The edits *)

Lemma keys_countEdit (P : string -> Prop) _edit (rv : JS.Obj Weight) :
  P _edit -> List.Forall (fun e => P (fst e)) rv ->
  List.Forall (fun e => P (fst e)) (countEdit _edit rv).
Proof.
  intros He Hrv. unfold countEdit, addToInherited.
  destruct (JS.objGet _edit rv); [|destruct (JSObject.inherited _edit);
                                    [destruct (String.eqb _edit "__proto__")|]];
    first [assumption | apply Forall_keys_objSet; assumption].
Qed.

Lemma numericOutside_countEdit _edit (rv : JS.Obj Weight) :
  numericOutside rv -> numericOutside (countEdit _edit rv).
Proof.
  intros Hrv. unfold countEdit. destruct (JS.objGet _edit rv) as [w|] eqn:Hg.
  - apply numericOutside_objSet; [|exact Hrv]. intros Hi.
    destruct (numericOutside_objGet _ _ _ Hrv Hg Hi) as [n ->]. exists (n + 1). reflexivity.
  - destruct (JSObject.inherited _edit) eqn:Hi.
    + unfold addToInherited. destruct (String.eqb _edit "__proto__"); [exact Hrv|].
      apply numericOutside_objSet; [congruence|exact Hrv].
    + apply numericOutside_objSet; [intros _; exists 1; reflexivity|exact Hrv].
Qed.

Lemma editKeys_countEdit t0 known_only _edit (rv : JS.Obj Weight) :
  JS.spaceFree _edit = true ->
  (known_only = true -> fst (check _edit t0) = Ret true) ->
  editKeys t0 known_only rv -> editKeys t0 known_only (countEdit _edit rv).
Proof.
  intros He Hk (Hfree & Hnum & Hknown).
  split; [apply (keys_countEdit (fun k => JS.spaceFree k = true)); assumption|].
  split; [apply numericOutside_countEdit, Hnum|].
  intros Ho. apply (keys_countEdit (fun k => fst (check k t0) = Ret true));
    [apply Hk, Ho|apply Hknown, Ho].
Qed.

Lemma Yields_addEdit t0 known_only _edit rv :
  Ready t0 -> JS.spaceFree _edit = true -> editKeys t0 known_only rv ->
  Yields t0 (addEdit known_only _edit rv) (editKeys t0 known_only).
Proof.
  intros Hr0 He Hrv. unfold addEdit. destruct known_only; simpl.
  - apply (Yields_bind _ _ _ (fun b => fst (check _edit t0) = Ret b));
      [apply Yields_known; assumption|].
    intros [|] Hb; apply Yields_ret; [|exact Hrv].
    apply editKeys_countEdit; auto.
  - apply Yields_ret, editKeys_countEdit; [exact He|discriminate|exact Hrv].
Qed.

Lemma Yields_editsAt t0 letters known_only word_1 rv i :
  Ready t0 ->
  List.Forall (fun letter => JS.spaceFree letter = true
                             /\ JS.spaceFree (toUpperCase letter) = true) letters ->
  JS.spaceFree word_1 = true -> editKeys t0 known_only rv ->
  Yields t0 (editsAt letters known_only word_1 rv i) (editKeys t0 known_only).
Proof.
  intros Hr0 Hl Hw Hrv. unfold editsAt.
  pose proof (spaceFree_take i word_1 Hw) as Hs0.
  pose proof (spaceFree_drop i word_1 Hw) as Hs1.
  revert Hs0 Hs1. generalize (JS.take i word_1) (JS.drop i word_1). intros s0 s1 Hs0 Hs1.
  rewrite List.Forall_forall in Hl.
  assert (forall letter (b : bool), In letter letters ->
            JS.spaceFree (if b then toUpperCase letter else letter) = true) as Hrep.
  { intros letter b Hin. destruct (Hl letter Hin). destruct b; assumption. }
  apply (Yields_bind _ _ _ (editKeys t0 known_only)).
  { destruct (negb (String.eqb s1 "")); [|apply Yields_ret, Hrv].
    apply Yields_addEdit; [exact Hr0| |exact Hrv].
    rewrite spaceFree_app, Hs0. apply spaceFree_drop, Hs1. }
  intros rv1 Hrv1.
  apply (Yields_bind _ _ _ (editKeys t0 known_only)).
  { destruct s1 as [|a [|b rest]]; try (apply Yields_ret, Hrv1).
    destruct (negb (Ascii.eqb b a)); [|apply Yields_ret, Hrv1].
    apply Yields_addEdit; [exact Hr0| |exact Hrv1].
    rewrite !spaceFree_cons, !andb_true_iff in Hs1. destruct Hs1 as (Ha & Hb & Hrest).
    rewrite !spaceFree_app, Hs0. unfold JS.char. rewrite !spaceFree_cons, Ha, Hb, Hrest.
    reflexivity. }
  intros rv2 Hrv2.
  apply (Yields_bind _ _ _ (editKeys t0 known_only)).
  { destruct (negb (String.eqb s1 "")); [|apply Yields_ret, Hrv2].
    apply Yields_foldM; [|exact Hrv2]. intros rv3 letter Hin Hrv3.
    destruct (negb (String.eqb _ _)); [|apply Yields_ret, Hrv3].
    apply Yields_addEdit; [exact Hr0| |exact Hrv3].
    rewrite !spaceFree_app, Hs0, (Hrep _ _ Hin). apply spaceFree_drop, Hs1. }
  intros rv3 Hrv3.
  destruct (negb (String.eqb s1 "")); [|apply Yields_ret, Hrv3].
  apply Yields_foldM; [|exact Hrv3]. intros rv4 letter Hin Hrv4.
  apply Yields_addEdit; [exact Hr0| |exact Hrv4].
  rewrite !spaceFree_app, Hs0, (Hrep _ _ Hin). exact Hs1.
Qed.

Lemma Yields_edits1 t0 {V} (words : JS.Obj V) known_only :
  Ready t0 ->
  forallb (fun c => JS.spaceFree (JS.char c) && JS.spaceFree (toUpperCase (JS.char c)))
          (JS.chars (alphabet t0)) = true ->
  JS.spaceFreeKeys words ->
  Yields t0 (edits1 words known_only) (editKeys t0 known_only).
Proof.
  intros Hr0 Ha Hwords. unfold edits1. apply Yields_this. intros t Hs.
  pose proof (sameData_fields _ _ Hs) as (_ & _ & _ & _ & _ & _ & _ & <- & _).
  assert (List.Forall (fun letter => JS.spaceFree letter = true
                                     /\ JS.spaceFree (toUpperCase letter) = true)
            (map JS.char (JS.chars (alphabet t0)))) as Hl.
  { rewrite forallb_forall in Ha. rewrite List.Forall_forall. intros letter Hin.
    apply in_map_iff in Hin. destruct Hin as (c & <- & Hc).
    apply andb_true_iff, Ha, Hc. }
  apply Yields_foldM; [|split; [constructor|split; [constructor|intros _; constructor]]].
  intros rv e He Hrv.
  apply Yields_foldM; [|exact Hrv]. intros rv' i _ Hrv'.
  apply Yields_editsAt; [exact Hr0|exact Hl| |exact Hrv'].
  apply (spaceFreeKeys_forIn words), He. exact Hwords.
Qed.

Lemma numericOutside_forIn (o : JS.Obj Weight) e :
  numericOutside o -> In e (JS.forIn o) -> JSObject.inherited (fst e) = false ->
  exists n, snd e = Num n.
Proof.
  intros Ho He. unfold numericOutside in Ho. rewrite List.Forall_forall in Ho.
  apply Ho, forIn_In, He.
Qed.

Lemma Yields_addEd1 t0 weighted_corrections e :
  Ready t0 -> JS.spaceFree (fst e) = true ->
  (JSObject.inherited (fst e) = false -> exists n, snd e = Num n) ->
  knownKeys t0 weighted_corrections /\ numericOutside weighted_corrections ->
  Yields t0 (addEd1 weighted_corrections e) (fun wc => knownKeys t0 wc /\ numericOutside wc).
Proof.
  intros Hr0 He Hnum [Hwc Hn]. unfold addEd1.
  apply (Yields_bind _ _ _ (fun b => fst (check (fst e) t0) = Ret b));
    [apply Yields_known; assumption|].
  intros [|] Hb; simpl; [|apply Yields_ret; split; assumption].
  destruct (JS.objGet _ _) as [w|] eqn:Hg.
  - apply Yields_ret. split.
    + apply (Forall_keys_objSet (fun k => fst (check k t0) = Ret true)); assumption.
    + apply numericOutside_objSet; [|exact Hn]. intros Hi.
      destruct (numericOutside_objGet _ _ _ Hn Hg Hi) as [n ->].
      destruct (Hnum Hi) as [m ->]. exists (n + m). reflexivity.
  - destruct (JSObject.inherited (fst e)) eqn:Hi; apply Yields_ret.
    + unfold addToInherited. destruct (String.eqb _ "__proto__"); [split; assumption|].
      split.
      * apply (Forall_keys_objSet (fun k => fst (check k t0) = Ret true)); assumption.
      * apply numericOutside_objSet; [congruence|exact Hn].
    + split.
      * apply (Forall_keys_objSet (fun k => fst (check k t0) = Ret true)); assumption.
      * apply numericOutside_objSet; [intros _; auto|exact Hn].
Qed.

(** The weighted candidates are words that [check] accepts, and those that
    name no inherited property have a number as their weight. *)
Lemma Yields_weightedCorrections t0 word :
  Ready t0 ->
  forallb (fun c => JS.spaceFree (JS.char c) && JS.spaceFree (toUpperCase (JS.char c)))
          (JS.chars (alphabet t0)) = true ->
  JS.spaceFree word = true ->
  Yields t0 (weightedCorrections word) (fun wc => knownKeys t0 wc /\ numericOutside wc).
Proof.
  intros Hr0 Ha Hw. unfold weightedCorrections.
  apply (Yields_bind _ _ _ (editKeys t0 false)).
  { apply Yields_edits1; [exact Hr0|exact Ha|].
    destruct (String.eqb word "__proto__"); repeat constructor. exact Hw. }
  intros ed1 (Hed1 & Hnum1 & _).
  apply (Yields_bind _ _ _ (editKeys t0 true)); [apply Yields_edits1; assumption|].
  intros ed2 (_ & Hnum2 & Hed2).
  apply Yields_foldM; [|split; [apply Hed2; reflexivity|exact Hnum2]]. intros wc e He Hwc.
  apply Yields_addEd1; [exact Hr0| | |exact Hwc].
  - apply (spaceFreeKeys_forIn ed1); assumption.
  - apply (numericOutside_forIn ed1); assumption.
Qed.

Lemma Yields_sortedCorrections t0 word :
  Ready t0 ->
  forallb (fun c => JS.spaceFree (JS.char c) && JS.spaceFree (toUpperCase (JS.char c)))
          (JS.chars (alphabet t0)) = true ->
  JS.spaceFree word = true ->
  fst (check "hasOwnProperty" t0) = Ret false ->
  Yields t0 (sortedCorrections word) (fun _ => True).
Proof.
  intros Hr0 Ha Hw Hown. unfold sortedCorrections.
  apply (Yields_bind _ _ _ (knownKeys t0)).
  { intros t Hs Hr. destruct (Yields_weightedCorrections t0 word Hr0 Ha Hw t Hs Hr)
      as (wc & Hret & Hwc & _). exists wc. auto. }
  intros wc Hwc.
  rewrite (Forall_keys_objGet (fun k => fst (check k t0) = Ret true) _ _ Hwc)
    by (rewrite Hown; discriminate).
  rewrite bool_decide_eq_false_2 by (intros [x Hx]; discriminate Hx).
  apply (Yields_bind _ _ _ (fun _ => True)); [|intros; yields_ret].
  apply Yields_foldM; [|exact I]. intros sc e _ _. unfold pushCorrection.
  yields_lookup. intros; yields_ret.
Qed.

Lemma Yields_tryReplacements t0 word table :
  JS.spaceFree word = true ->
  forallb (fun e => JS.spaceFree (snd e)) table = true ->
  Yields t0 (tryReplacements word table) (fun _ => True).
Proof.
  intros Hw. induction table as [|replacementEntry table IH]; simpl; intros Ht; [yields_ret|].
  apply andb_true_iff in Ht. destruct Ht as [He Ht].
  destruct (JS.includes _ _); [|apply IH, Ht].
  apply (Yields_bind _ _ _ (fun _ => True)).
  - apply Yields_check_spaceFree, spaceFree_replace; assumption.
  - intros [|] _; [yields_ret|apply IH, Ht].
Qed.

(** The computation without the memo returns a list when the word, the
    characters that the edits insert and the replacements of the table hold
    no white space, and [check] rejects the word "hasOwnProperty". *)
Lemma freshResult_returns t word limit :
  Ready t -> JS.spaceFree word = true ->
  spaceFreeAlphabet t = true -> spaceFreeReplacements t = true ->
  fst (check "hasOwnProperty" t) = Ret false ->
  exists suggestions, freshResult t word limit = Ret suggestions.
Proof.
  intros Hr Hw Ha Hrep Hown. unfold freshResult.
  destruct (Yields_check_spaceFree t word Hw t (sameData_refl t) Hr)
    as (b & (t1 & -> & _) & _). simpl.
  destruct b; [eexists; reflexivity|].
  destruct (Yields_tryReplacements t word (replacementTable t) Hw Hrep t (sameData_refl t) Hr)
    as (r & (t2 & -> & _) & _). simpl.
  destruct r; [eexists; reflexivity|].
  assert (fst (check "hasOwnProperty" (set_alphabet (effectiveAlphabet t) t)) = Ret false)
    as Hown'.
  { destruct (Stable_check "hasOwnProperty" (set_alphabet (effectiveAlphabet t) t) t
                (Ready_set_alphabet _ _ Hr) Hr
                (sameDict_sym _ _ (sameDict_set_alphabet _ _))) as (-> & _).
    exact Hown. }
  destruct (Yields_sortedCorrections (set_alphabet (effectiveAlphabet t) t) word
              (Ready_set_alphabet _ _ Hr) Ha Hw Hown'
              _ (sameData_refl _) (Ready_set_alphabet _ _ Hr))
    as (sc & (t3 & -> & _) & _). simpl.
  eexists. reflexivity.
Qed.

(** [suggest] returns a list under the same conditions, when no entry of
    the memo shadows the method that the lookup in the memo calls. *)
Lemma suggest_returns t word limit :
  Ready t -> JS.spaceFree word = true ->
  spaceFreeAlphabet t = true -> spaceFreeReplacements t = true ->
  fst (check "hasOwnProperty" t) = Ret false ->
  memoized t !! "hasOwnProperty" = None ->
  exists suggestions, fst (suggest word limit t) = Ret suggestions.
Proof.
  intros Hr Hw Ha Hrep Hown Hmemo. unfold suggest.
  rewrite (run_bind _ _ _ _ _ (run_requireLoaded t (proj1 Hr))), run_this_bind.
  rewrite Hmemo, bool_decide_eq_false_2 by (intros [x Hx]; discriminate Hx).
  set (k := if limit =? 0 then 5 else limit). clearbody k.
  assert (exists suggestions, fst (suggestFresh word k t) = Ret suggestions) as Hfresh.
  { destruct (suggestFresh_run t word k Hr) as (t' & -> & _). simpl.
    apply freshResult_returns; assumption. }
  destruct (memoized t !! word) as [[s lim]|]; [|exact Hfresh].
  destruct (_ || _); [|exact Hfresh]. eexists. reflexivity.
Qed.

End ReturnFacts.
(** *** What [suggest] returns, and the memo *)

Section SuggestResults.
Context `{Builtins}.
Implicit Types (t : Typo) (word : string).

(** On a Ready instance with a sound memo and for a positive limit, what
    [suggest] returns holds at most [limit] suggestions and no suggestion
    twice, whether it comes from the memo, from the replacement table or from
    the ranking of the edits. *)
Lemma suggest_bounded_nodup t word limit :
  Ready t -> memoSound t -> 0 < limit ->
  match fst (suggest word limit t) with
  | Ret suggestions =>
      Z.of_nat (List.length suggestions) <= limit /\ List.NoDup suggestions
  | Throw _ => True
  end.
Proof.
  intros Hr Hm Hl. unfold suggest.
  rewrite (run_bind _ _ _ _ _ (run_requireLoaded t (proj1 Hr))).
  destruct (Z.eqb_spec limit 0) as [?|_]; [lia|].
  rewrite run_this_bind.
  destruct (bool_decide _); [exact I|].
  assert (match fst (suggestFresh word limit t) with
          | Ret suggestions =>
              Z.of_nat (List.length suggestions) <= limit /\ List.NoDup suggestions
          | Throw _ => True
          end) as Hfresh.
  { destruct (suggestFresh_run t word limit Hr) as (t' & -> & _). simpl.
    destruct (freshResult t word limit) as [s|e] eqn:Hf; [|exact I].
    destruct (freshResult_bounded _ _ _ _ Hf). auto. }
  destruct (memoized t !! word) as [[s lim]|] eqn:Hlook; [|exact Hfresh].
  destruct ((limit <=? lim) || (Z.of_nat (List.length s) <? lim)) eqn:Hcond;
    [|exact Hfresh].
  pose proof (memo_serves t word limit s lim Hr Hm Hl Hlook Hcond) as Hserved.
  destruct (freshResult_bounded _ _ _ _ Hserved). simpl. auto.
Qed.

(** What a call of [suggest] leaves and what a second call gives.  On a
    Ready instance with a sound memo that holds no entry for the word
    "hasOwnProperty", and for a limit that is not negative: a call of
    [suggest] leaves the instance Ready with a sound memo, and the
    computation without the memo on that instance gives the result of the
    call; for a word other than "hasOwnProperty" the memo holds no entry of
    that name afterwards either, and a second call with the same word and
    limit gives the result of the first. *)
Lemma suggest_memo_transparent t word limit :
  Ready t -> memoSound t -> 0 <= limit ->
  memoized t !! "hasOwnProperty" = None ->
  let first := suggest word limit t in
  Ready (snd first) /\ memoSound (snd first)
  /\ fst (suggestFresh word (if limit =? 0 then 5 else limit) (snd first)) = fst first
  /\ (word <> "hasOwnProperty" ->
      memoized (snd first) !! "hasOwnProperty" = None
      /\ fst (suggest word limit (snd first)) = fst first).
Proof.
  intros Hr Hm Hl Hown first. subst first. unfold suggest.
  rewrite (run_bind _ _ _ _ _ (run_requireLoaded t (proj1 Hr))).
  set (k := if limit =? 0 then 5 else limit).
  assert (0 < k) as Hk by (subst k; destruct (Z.eqb_spec limit 0); lia).
  clearbody k. rewrite run_this_bind. cbv beta.
  rewrite Hown. rewrite bool_decide_eq_false_2 by (intros [x Hx]; discriminate Hx).
  (* the lookup in the memo, on an instance without the shadowing entry *)
  assert (forall t1, Ready t1 -> memoSound t1 ->
            memoized t1 !! "hasOwnProperty" = None ->
            fst (bind requireLoaded (fun _ =>
                   bind this (fun t0 =>
                     if bool_decide (is_Some (memoized t0 !! "hasOwnProperty"))
                     then throw TypeError
                     else
                       match memoized t0 !! word with
                       | Some (s, memoizedLimit) =>
                           if (k <=? memoizedLimit)
                              || (Z.of_nat (List.length s) <? memoizedLimit)
                           then ret (JS.slice0 k s)
                           else suggestFresh word k
                       | None => suggestFresh word k
                       end)) t1)
            = fst (suggestFresh word k t1)) as Hlookup.
  { intros t1 Hr1 Hm1 Hown1.
    rewrite (run_bind _ _ _ _ _ (run_requireLoaded t1 (proj1 Hr1))), run_this_bind.
    rewrite Hown1, bool_decide_eq_false_2 by (intros [x Hx]; discriminate Hx).
    destruct (memoized t1 !! word) as [[s lim]|] eqn:Hlook; [|reflexivity].
    destruct ((k <=? lim) || (Z.of_nat (List.length s) <? lim)) eqn:Hcond; [|reflexivity].
    pose proof (memo_serves t1 word k s lim Hr1 Hm1 Hk Hlook Hcond) as Hserved.
    destruct (suggestFresh_run t1 word k Hr1) as (t2 & -> & _). simpl. congruence. }
  (* the computation without the memo, from [t] *)
  assert (let fresh := suggestFresh word k t in
          Ready (snd fresh) /\ memoSound (snd fresh)
          /\ fst (suggestFresh word k (snd fresh)) = fst fresh
          /\ (word <> "hasOwnProperty" ->
              memoized (snd fresh) !! "hasOwnProperty" = None)) as Hfresh.
  { intros fresh.
    destruct (suggestFresh_memoSound t word k Hr Hm) as [Hr1 Hm1].
    destruct (suggestFresh_run t word k Hr) as (t1 & Hrun & _ & Hs & Halpha & Hmemo & _).
    subst fresh. rewrite Hrun in *. simpl fst. simpl snd. simpl in Hr1, Hm1.
    assert (effectiveAlphabet t1 = effectiveAlphabet t) as He.
    { destruct Halpha as [Ha|Ha]; [apply effectiveAlphabet_same|apply effectiveAlphabet_set];
        assumption. }
    split; [exact Hr1|]. split; [exact Hm1|]. split.
    - destruct (suggestFresh_run t1 word k Hr1) as (t2 & -> & _). simpl.
      apply freshResult_dict; assumption.
    - intros Hne. destruct Hmemo as [->|(s & _ & _ & ->)]; [exact Hown|].
      rewrite lookup_insert_ne by exact Hne. exact Hown. }
  destruct (memoized t !! word) as [[s lim]|] eqn:Hlook.
  2:{ destruct Hfresh as (Hr1 & Hm1 & Hagain & Hown1).
      repeat (split; [assumption|]). intros Hne. split; [auto|].
      rewrite Hlookup by auto. exact Hagain. }
  destruct ((k <=? lim) || (Z.of_nat (List.length s) <? lim)) eqn:Hcond.
  2:{ destruct Hfresh as (Hr1 & Hm1 & Hagain & Hown1).
      repeat (split; [assumption|]). intros Hne. split; [auto|].
      rewrite Hlookup by auto. exact Hagain. }
  (* the call is served from the memo *)
  pose proof (memo_serves t word k s lim Hr Hm Hk Hlook Hcond) as Hserved.
  simpl fst. simpl snd.
  assert (fst (suggestFresh word k t) = Ret (JS.slice0 k s)) as Hfr
    by (destruct (suggestFresh_run t word k Hr) as (t2 & -> & _); exact Hserved).
  split; [exact Hr|]. split; [exact Hm|]. split; [exact Hfr|].
  intros _. split; [exact Hown|]. rewrite Hlookup by assumption. exact Hfr.
Qed.

(** A memo that holds an entry for the word "hasOwnProperty" makes every
    call of [suggest] throw. *)
Lemma suggest_shadowed t word limit entry :
  loaded t = true -> memoized t !! "hasOwnProperty" = Some entry ->
  suggest word limit t = (Throw TypeError, t).
Proof.
  intros Hl Hown. unfold suggest.
  rewrite (run_bind _ _ _ _ _ (run_requireLoaded t Hl)), run_this_bind.
  rewrite Hown, bool_decide_eq_true_2 by eauto. reflexivity.
Qed.

(** The ranking path stores its result in the memo, for a word other than
    ["__proto__"]. *)
Lemma suggest_stores t word limit :
  Ready t -> 0 < limit -> word <> "__proto__" ->
  memoized t !! "hasOwnProperty" = None -> memoized t !! word = None ->
  fst (check word t) = Ret false ->
  fst (tryReplacements word (replacementTable t) t) = Ret None ->
  forall suggestions,
    freshResult t word limit = Ret suggestions ->
    fst (suggest word limit t) = Ret suggestions
    /\ Ready (snd (suggest word limit t))
    /\ memoized (snd (suggest word limit t))
       = <[word := (suggestions, limit)]> (memoized t).
Proof.
  intros Hr Hl Hproto Hown Hnone Hc Hrep suggestions Hfresh. unfold suggest.
  rewrite (run_bind _ _ _ _ _ (run_requireLoaded t (proj1 Hr))), run_this_bind.
  destruct (Z.eqb_spec limit 0) as [?|_]; [lia|].
  rewrite Hown, bool_decide_eq_false_2 by (intros [x Hx]; discriminate Hx).
  rewrite Hnone.
  destruct (suggestFresh_run t word limit Hr) as (t' & -> & Hr' & _ & _ & _ & Hstore).
  simpl. specialize (Hstore Hc Hrep suggestions Hfresh).
  destruct (String.eqb_spec word "__proto__") as [?|_]; [contradiction|]. auto.
Qed.

(** The word "hasOwnProperty", when it is neither accepted by [check] nor
    corrected by the replacement table, is memoized under its own name: the
    first call returns a list, which the computation without the memo gives
    again afterwards, and every later call of [suggest] throws. *)
Lemma suggest_shadows t limit :
  Ready t -> 0 < limit -> memoized t = ∅ ->
  spaceFreeAlphabet t = true -> spaceFreeReplacements t = true ->
  fst (check "hasOwnProperty" t) = Ret false ->
  fst (tryReplacements "hasOwnProperty" (replacementTable t) t) = Ret None ->
  exists suggestions t1,
    suggest "hasOwnProperty" limit t = (Ret suggestions, t1)
    /\ memoized t1 !! "hasOwnProperty" = Some (suggestions, limit)
    /\ fst (suggestFresh "hasOwnProperty" limit t1) = Ret suggestions
    /\ (forall word k, suggest word k t1 = (Throw TypeError, t1)).
Proof.
  intros Hr Hl Hempty Ha Hrep Hcheck Hnone.
  assert (memoized t !! "hasOwnProperty" = None) as Hown
    by (rewrite Hempty; apply lookup_empty).
  assert (memoSound t) as Hm.
  { intros w s k Hlook. rewrite Hempty, lookup_empty in Hlook. discriminate Hlook. }
  destruct (freshResult_returns t "hasOwnProperty" limit Hr eq_refl Ha Hrep Hcheck)
    as (suggestions & Hfresh).
  destruct (suggest_stores t "hasOwnProperty" limit Hr Hl ltac:(discriminate) Hown Hown
              Hcheck Hnone
              suggestions Hfresh) as (Hfirst & Hr1 & Hmemo).
  destruct (suggest_memo_transparent t "hasOwnProperty" limit Hr Hm ltac:(lia) Hown)
    as (_ & _ & Hagain & _).
  destruct (Z.eqb_spec limit 0) as [?|_]; [lia|].
  revert Hfirst Hr1 Hmemo Hagain.
  generalize (suggest "hasOwnProperty" limit t). intros [r t1]. simpl.
  intros -> Hr1 Hmemo Hagain.
  assert (memoized t1 !! "hasOwnProperty" = Some (suggestions, limit)) as Hentry
    by (rewrite Hmemo; apply lookup_insert_eq).
  exists suggestions, t1. split; [reflexivity|]. split; [exact Hentry|].
  split; [exact Hagain|].
  intros word k. apply (suggest_shadowed t1 word k _ (proj1 Hr1) Hentry).
Qed.

(** With a sound memo [suggest] returns what the computation without the
    memo returns. *)
Lemma suggest_freshResult t word limit :
  Ready t -> memoSound t -> 0 < limit ->
  memoized t !! "hasOwnProperty" = None ->
  fst (suggest word limit t) = freshResult t word limit.
Proof.
  intros Hr Hm Hl Hown. unfold suggest.
  rewrite (run_bind _ _ _ _ _ (run_requireLoaded t (proj1 Hr))).
  destruct (Z.eqb_spec limit 0) as [?|_]; [lia|].
  rewrite run_this_bind. cbv beta.
  rewrite Hown, bool_decide_eq_false_2 by (intros [x Hx]; discriminate Hx).
  assert (fst (suggestFresh word limit t) = freshResult t word limit) as Hfresh.
  { destruct (suggestFresh_run t word limit Hr) as (t' & -> & _). reflexivity. }
  destruct (memoized t !! word) as [[s lim]|] eqn:Hlook; [|exact Hfresh].
  destruct ((limit <=? lim) || (Z.of_nat (List.length s) <? lim)) eqn:Hcond;
    [|exact Hfresh].
  rewrite (memo_serves t word limit s lim Hr Hm Hl Hlook Hcond). reflexivity.
Qed.

End SuggestResults.


(** Before Ready every query throws at the call. *)
Lemma queries_throw_before_ready `{Builtins} (t : Typo) (word flag : string) (limit : Z) :
  loaded t = false ->
  check word t = (Throw DictionaryNotLoaded, t)
  /\ checkExact word t = (Throw DictionaryNotLoaded, t)
  /\ (forall wordFlags, hasFlag word flag wordFlags t = (Throw DictionaryNotLoaded, t))
  /\ suggest word limit t = (Throw DictionaryNotLoaded, t).
Proof.
  intros Hl. pose proof (run_requireLoaded_not t Hl) as Hreq.
  repeat split; intros;
    [unfold check|unfold checkExact|unfold hasFlag|unfold suggest];
    apply (run_bind_throw _ _ _ _ _ Hreq).
Qed.

(** On a Ready instance [checkExact] and [hasFlag] return a boolean. *)
Lemma lookups_return_when_ready `{Builtins} (t : Typo) (word flag : string) :
  Ready t ->
  Returns (checkExact word) t (Ret (exact t word))
  /\ Returns (hasFlag word flag None) t (Ret (flagged t word flag)).
Proof. intros Hr. split; [apply Returns_checkExact|apply Returns_hasFlag]; exact Hr. Qed.

(** The code-unit comparison, which stands for [localeCompare] on the
    concrete platform, is total and transitive. *)
Lemma compareStrings_le (a b : string) :
  compareStrings a b <= 0 <-> String.leb a b = true.
Proof.
  unfold compareStrings, JS.lt, String.ltb, String.leb.
  rewrite (String.compare_antisym a b).
  destruct (String.compare b a); simpl; split; intros Hx;
    first [lia|reflexivity|discriminate Hx].
Qed.


Lemma compareStrings_trans (a b c : string) :
  compareStrings a b <= 0 -> compareStrings b c <= 0 -> compareStrings a c <= 0.
Proof.
  rewrite !compareStrings_le. intros Hab Hbc.
  apply Is_true_true. apply Is_true_true in Hab, Hbc.
  change (String.le a c). transitivity b; assumption.
Qed.

(** An instance that has not memoized anything has a sound memo. *)
Lemma memoSound_empty `{Builtins} (t : Typo) : memoized t = ∅ -> memoSound t.
Proof. intros He word s k Hl. rewrite He, lookup_empty in Hl. discriminate Hl. Qed.

(** ** The claims at concrete dictionaries *)

Section Concrete.
#[local] Existing Instance Ascii7.builtins.

Lemma Ready_inMemory table rules replacements flagTable :
  Ready (Examples.inMemory table rules replacements flagTable).
Proof. split; [reflexivity|]. intros Hp. discriminate Hp. Qed.

(** Witness of C5: three words inserted into a filter of 64 bits, and the
    filter exported for the dictionary [Examples.plain]. *)
Lemma bloom_no_false_negatives_witness :
  BloomFilter.mightContain
    (fold_left BloomFilter.add ["cat"; "dog"; "the"] (BloomFilter.new 64 3)) "dog" = true
  /\ match exportPreCalculated Examples.plain with
     | inr e => BloomFilter.mightContain (ex_bloom e) "cats" = true
     | inl _ => False
     end.
Proof.
  pose proof (@bloom_no_false_negatives Ascii7.builtins) as [Hadd Hexport].
  split.
  - apply Hadd; [lia|]. right. left. reflexivity.
  - destruct (exportPreCalculated Examples.plain) as [err|e] eqn:He.
    + cbv beta iota delta
        [exportPreCalculated Examples.plain Examples.inMemory loaded preCalculated negb]
        in He.
      discriminate He.
    + apply (Hexport Examples.plain e "cats" None He). vm_compute. reflexivity.
Defined.

(** C1 at a failing input.  "foot" is registered with the only-in-compound
    code alone: the in-memory backend rejects it, and the paged backend
    obtained by export and import accepts it.  [_checkPreCalculated] returns
    the result of the binary search without the test of the only-in-compound
    flag that [checkExact] makes on the in-memory table. *)
Theorem export_import_disagree_onlyInCompound :
  fst (checkExact "foot" Examples.onlyInCompound) = Ret false
  /\ match Examples.paged Examples.onlyInCompound 0 with
     | Ret p => fst (checkExact "foot" p) = Ret true
     | Throw _ => False
     end.
Proof. split; vm_compute; reflexivity. Qed.

(** The second way in which the backends disagree: a compound word is not
    in the bloom filter, so the paged backend rejects it before the compound
    rules are tried. *)
Lemma export_import_disagree_compound :
  fst (checkExact "catdog" Examples.compoundMin3) = Ret true
  /\ match Examples.paged Examples.compoundMin3 0 with
     | Ret p => BloomFilter.mightContain (bloomFilter p) "catdog" = false
                /\ fst (checkExact "catdog" p) = Ret false
     | Throw _ => False
     end.
Proof. split; [|split]; vm_compute; reflexivity. Qed.

(** Counterexample to C2 as stated.  For "NASA", with "Nasa" tagged
    keep-case and "nasa" a plain word: the lower-cased variant is an exact
    hit that is not tagged keep-case, and yet [check] returns false, because
    the keep-case tag of the capitalized variant ends the check. *)
Lemma check_uppercase_counterexample :
  toUpperCase "NASA" = "NASA"
  /\ exact Examples.keepCase "NASA" = false
  /\ flagged Examples.keepCase "nasa" "KEEPCASE" = false
  /\ exact Examples.keepCase "nasa" = true
  /\ flagged Examples.keepCase "Nasa" "KEEPCASE" = true
  /\ fst (check "NASA" Examples.keepCase) = Ret false.
Proof. repeat split; vm_compute; reflexivity. Qed.

(** Witness of C2, as amended: " THE " checked against a dictionary with
    the plain word "the"; the lower-cased variant is an exact hit. *)
Lemma check_uppercase_variants_witness :
  Ready Examples.plain
  /\ Returns (check " THE ") Examples.plain (Ret true).
Proof.
  split; [apply Ready_inMemory|].
  apply (@check_uppercase_variants Ascii7.builtins Examples.plain " THE ").
  - apply Ready_inMemory.
  - vm_compute. discriminate.
  - vm_compute. reflexivity.
  - vm_compute. reflexivity.
  - vm_compute. reflexivity.
Defined.

(** The scenario of the specification: "NASA" tagged keep-case. *)
Lemma check_nasa_scenario :
  fst (check "NASA" Examples.nasa) = Ret true
  /\ fst (check "Nasa" Examples.nasa) = Ret false.
Proof. split; vm_compute; reflexivity. Qed.



(** An unregistered word that names an inherited property: "valueOf" is
    long enough for the compound minimum 3 and the compound matcher over
    "value" and "of" matches it, and [checkExact] returns false, as the
    lookup in the table finds the inherited method; the matcher is tried
    for "valueof". *)
Lemma checkExact_inherited_name :
  dictionaryTable Examples.valueOfCompound !! "valueOf" = None
  /\ JSObject.inherited "valueOf" = true
  /\ existsb (regexMatch "valueOf") (compoundRules Examples.valueOfCompound) = true
  /\ checkExact "valueOf" Examples.valueOfCompound = (Ret false, Examples.valueOfCompound)
  /\ checkExact "valueof" Examples.valueOfCompound = (Ret true, Examples.valueOfCompound).
Proof.
  split; [|split; [|split; [|split]]]; vm_compute; reflexivity.
Qed.



(** C7 at a failing input.  On a loaded instance [check(" ")] throws: the
    test for an empty word precedes the trimming, and the first character of
    the empty trimmed word is [undefined]. *)
Theorem check_whitespace_throws :
  loaded Examples.plain = true
  /\ check " " Examples.plain = (Throw TypeError, Examples.plain).
Proof. split; vm_compute; reflexivity. Qed.



(** The scenario of the replacement pair ("teh", "the"), and the
    suggestions for "ct" from the ranking of the edits. *)
Lemma suggest_scenarios :
  fst (suggest "teh" 5 Examples.plain) = Ret ["the"]
  /\ fst (suggest "ct" 5 Examples.plain) = Ret ["cat"; "Cat"]
  /\ match fst (suggest "ct" 1 Examples.plain) with
     | Ret suggestions =>
         Z.of_nat (List.length suggestions) <= 1 /\ List.NoDup suggestions
     | Throw _ => True
     end
  /\ exists suggestions, fst (suggest "ct" 1 Examples.plain) = Ret suggestions.
Proof.
  split; [vm_compute; reflexivity|]. split; [vm_compute; reflexivity|]. split.
  - apply suggest_bounded_nodup;
      [apply Ready_inMemory|apply memoSound_empty; reflexivity|lia].
  - apply suggest_returns; solve [apply Ready_inMemory | vm_compute; reflexivity].
Qed.

(** "ct" asked twice with the limit 5: the second call is served from the
    memo and gives the list of the first. *)
Lemma suggest_twice_scenario :
  let t1 := snd (suggest "ct" 5 Examples.plain) in
  memoized t1 !! "ct" = Some (["cat"; "Cat"], 5)
  /\ fst (suggest "ct" 5 t1) = fst (suggest "ct" 5 Examples.plain)
  /\ fst (suggestFresh "ct" 5 t1) = fst (suggest "ct" 5 Examples.plain).
Proof.
  intros t1.
  destruct (suggest_memo_transparent Examples.plain "ct" 5
              (Ready_inMemory _ _ _ _)
              (memoSound_empty Examples.plain eq_refl) ltac:(lia) eq_refl)
    as (_ & _ & Hfresh & Hsecond).
  destruct Hsecond as [_ Hsecond]; [discriminate|].
  split; [subst t1; vm_compute; reflexivity|]. split; [exact Hsecond|exact Hfresh].
Qed.

(** C10 at a failing input.  On a loaded instance [suggest(" ", 5)] returns
    no array: it calls [check(" ")], which throws (the defect of C7). *)
Theorem suggest_whitespace_throws :
  loaded Examples.plain = true
  /\ memoized Examples.plain = ∅
  /\ suggest " " 5 Examples.plain = (Throw TypeError, Examples.plain).
Proof. repeat split; vm_compute; reflexivity. Qed.

(** C8 at a failing input.  The first call of [suggest("hasOwnProperty", 5)]
    returns a list and memoizes it under that key.  The entry shadows the
    method that the lookup in the memo calls: the second call throws, where
    the computation without the memo gives the list of the first call; and
    from then on [suggest] throws for every word. *)
Theorem suggest_memo_shadowed :
  exists suggestions t1,
    suggest "hasOwnProperty" 5 Examples.plain = (Ret suggestions, t1)
    /\ memoized t1 !! "hasOwnProperty" = Some (suggestions, 5)
    /\ fst (suggestFresh "hasOwnProperty" 5 t1) = Ret suggestions
    /\ suggest "hasOwnProperty" 5 t1 = (Throw TypeError, t1)
    /\ suggest "ct" 5 t1 = (Throw TypeError, t1).
Proof.
  assert (Ready Examples.plain) as Hr by apply Ready_inMemory.
  destruct (suggest_shadows Examples.plain 5 Hr) as (suggestions & t1 & Hfirst & Hentry & Hagain & Hthrows);
    [lia|reflexivity|vm_compute; reflexivity..|].
  exists suggestions, t1.
  split; [exact Hfirst|]. split; [exact Hentry|]. split; [exact Hagain|].
  split; apply Hthrows.
Qed.

End Concrete.

(** * Further properties of the code *)

(** ** The comparison of words and the binary search *)

Section CompareFacts.

Lemma compare_refl (a : string) : String.compare a a = Eq.
Proof.
  pose proof (String.compare_antisym a a) as Ha.
  destruct (String.compare a a); [reflexivity|discriminate Ha|discriminate Ha].
Qed.

Lemma compareStrings_eq (a b : string) : compareStrings a b = 0 <-> a = b.
Proof.
  unfold compareStrings, JS.lt, String.ltb.
  rewrite (String.compare_antisym b a).
  destruct (String.compare a b) eqn:Hc; simpl; split; intros Hx; try discriminate.
  - apply String.compare_eq_iff, Hc.
  - reflexivity.
  - subst b. rewrite compare_refl in Hc. discriminate Hc.
  - subst b. rewrite compare_refl in Hc. discriminate Hc.
Qed.

Lemma compareStrings_opp (a b : string) : compareStrings b a = - compareStrings a b.
Proof.
  unfold compareStrings, JS.lt, String.ltb.
  rewrite (String.compare_antisym a b).
  destruct (String.compare b a); reflexivity.
Qed.

Lemma compareStrings_values (a b : string) :
  compareStrings a b = -1 \/ compareStrings a b = 0 \/ compareStrings a b = 1.
Proof.
  unfold compareStrings. destruct (JS.lt a b); [auto|]. destruct (JS.lt b a); auto.
Qed.

Lemma compareStrings_lt_trans (a b c : string) :
  compareStrings a b < 0 -> compareStrings b c < 0 -> compareStrings a c < 0.
Proof.
  intros Hab Hbc.
  assert (compareStrings a c <= 0) as Hle by (apply (compareStrings_trans a b c); lia).
  destruct (Z.eq_dec (compareStrings a c) 0) as [He|Hne]; [|lia].
  apply compareStrings_eq in He. subst c.
  rewrite (compareStrings_opp a b) in Hbc. lia.
Qed.

End CompareFacts.

(** X1.  [compareStrings] is a three-way comparison of a total order: it
    returns -1, 0 or 1, it returns 0 exactly for equal strings, swapping the
    arguments negates the result, and the order is transitive. *)
Theorem compareStrings_order (a b c : string) :
  (compareStrings a b = -1 \/ compareStrings a b = 0 \/ compareStrings a b = 1)
  /\ (compareStrings a b = 0 <-> a = b)
  /\ compareStrings b a = - compareStrings a b
  /\ (compareStrings a b <= 0 -> compareStrings b c <= 0 -> compareStrings a c <= 0).
Proof.
  split; [apply compareStrings_values|]. split; [apply compareStrings_eq|].
  split; [apply compareStrings_opp|apply compareStrings_trans].
Qed.

Section SearchFacts.

Lemma sorted_lookup (words : list WordData) (i j : nat) (x y : WordData) :
  StronglySorted (fun x y => compareStrings (wd_w x) (wd_w y) < 0) words ->
  (i < j)%nat -> words !! i = Some x -> words !! j = Some y ->
  compareStrings (wd_w x) (wd_w y) < 0.
Proof.
  intros Hs. revert i j. induction Hs as [|z l Hs IH Hall]; intros i j Hij Hi Hj.
  - discriminate Hi.
  - destruct j as [|j]; [lia|]. simpl in Hj. destruct i as [|i]; simpl in Hi.
    + injection Hi as <-. rewrite List.Forall_forall in Hall. apply Hall.
      apply list_elem_of_In. eapply list_elem_of_lookup_2. exact Hj.
    + apply (IH i j); [lia|assumption..].
Qed.

Lemma searchLoop_sound fuel words target left right wordData :
  searchLoop fuel words target left right = Some wordData ->
  In wordData words /\ wd_w wordData = target.
Proof.
  revert left right. induction fuel as [|fuel IH]; intros left right; simpl; [discriminate|].
  destruct (left <=? right); [|discriminate].
  destruct (words !! Z.to_nat ((left + right) / 2)) as [wd|] eqn:Hmid; [|discriminate].
  destruct (Z.eqb_spec (compareStrings (wd_w wd) target) 0) as [He|_].
  - intros [= <-]. split; [|apply compareStrings_eq, He].
    apply list_elem_of_In. eapply list_elem_of_lookup_2. exact Hmid.
  - destruct (compareStrings (wd_w wd) target <? 0); apply IH.
Qed.

Lemma searchLoop_complete words target :
  StronglySorted (fun x y => compareStrings (wd_w x) (wd_w y) < 0) words ->
  forall fuel left right (k : nat) wordData,
    0 <= left -> right < Z.of_nat (List.length words) ->
    right - left + 1 <= Z.of_nat fuel ->
    words !! k = Some wordData -> wd_w wordData = target ->
    left <= Z.of_nat k <= right ->
    searchLoop fuel words target left right = Some wordData.
Proof.
  intros Hs. induction fuel as [|fuel IH]; intros left right k wordData Hl Hr Hf Hk Hw Hin.
  - lia.
  - simpl. destruct (Z.leb_spec left right) as [_|?]; [|lia].
    set (mid := (left + right) / 2).
    assert (left <= mid <= right) as Hmid.
    { subst mid. split; [apply Z.div_le_lower_bound|apply Z.div_le_upper_bound]; lia. }
    destruct (words !! Z.to_nat mid) as [wd|] eqn:Hlook.
    2:{ apply lookup_ge_None in Hlook. lia. }
    destruct (Z.eqb_spec (compareStrings (wd_w wd) target) 0) as [He|Hne].
    + f_equal. apply compareStrings_eq in He.
      destruct (Nat.lt_trichotomy (Z.to_nat mid) k) as [Hlt|[Heq|Hgt]].
      * pose proof (sorted_lookup words _ _ _ _ Hs Hlt Hlook Hk) as Hc.
        rewrite He, Hw in Hc.
        assert (compareStrings target target = 0) by (apply compareStrings_eq; reflexivity).
        lia.
      * subst k. congruence.
      * pose proof (sorted_lookup words _ _ _ _ Hs Hgt Hk Hlook) as Hc.
        rewrite He, Hw in Hc.
        assert (compareStrings target target = 0) by (apply compareStrings_eq; reflexivity).
        lia.
    + destruct (Z.ltb_spec (compareStrings (wd_w wd) target) 0) as [Hlt|Hge].
      * apply (IH _ _ k); try assumption; try lia.
        destruct (Z_lt_le_dec mid (Z.of_nat k)) as [?|Hle]; [lia|]. exfalso.
        destruct (Z.eq_dec (Z.of_nat k) mid) as [Heq|Hneq].
        { rewrite <- Heq, Nat2Z.id in Hlook. rewrite Hk in Hlook. injection Hlook as <-.
          rewrite Hw in Hne. apply Hne, compareStrings_eq. reflexivity. }
        assert (k < Z.to_nat mid)%nat as Hkm by lia.
        pose proof (sorted_lookup words _ _ _ _ Hs Hkm Hk Hlook) as Hc.
        rewrite Hw in Hc. rewrite (compareStrings_opp (wd_w wd) target) in Hc. lia.
      * apply (IH _ _ k); try assumption; try lia.
        destruct (Z_lt_le_dec (Z.of_nat k) mid) as [?|Hle]; [lia|]. exfalso.
        destruct (Z.eq_dec (Z.of_nat k) mid) as [Heq|Hneq].
        { rewrite <- Heq, Nat2Z.id in Hlook. rewrite Hk in Hlook. injection Hlook as <-.
          rewrite Hw in Hne. apply Hne, compareStrings_eq. reflexivity. }
        assert (Z.to_nat mid < k)%nat as Hkm by lia.
        pose proof (sorted_lookup words _ _ _ _ Hs Hkm Hlook Hk) as Hc.
        rewrite Hw in Hc. lia.
Qed.

Lemma search_sound words target wordData :
  search words target = Some wordData -> In wordData words /\ wd_w wordData = target.
Proof. apply searchLoop_sound. Qed.

Lemma search_complete words target wordData :
  StronglySorted (fun x y => compareStrings (wd_w x) (wd_w y) < 0) words ->
  In wordData words -> wd_w wordData = target ->
  search words target = Some wordData.
Proof.
  intros Hs Hin Hw. apply list_elem_of_In, list_elem_of_lookup_1 in Hin.
  destruct Hin as [k Hk]. pose proof (lookup_lt_Some _ _ _ Hk) as Hlt.
  apply (searchLoop_complete words target Hs _ _ _ k); try assumption; lia.
Qed.

End SearchFacts.

(** X2.  The binary search.  A hit is always an entry of the array with the
    word searched for.  On an array in ascending order of the words,
    without duplicates, the search finds every word of the array:
    [_binarySearch] returns true exactly for the words of the array, and
    [_findWordRules] returns the rule codes of the entry of the word. *)
Theorem binarySearch_correct (words : list WordData) (target : string) :
  StronglySorted (fun x y => compareStrings (wd_w x) (wd_w y) < 0) words ->
  (_binarySearch words target = true <-> exists wordData, In wordData words /\ wd_w wordData = target)
  /\ (forall wordData, In wordData words -> wd_w wordData = target ->
        _findWordRules words target = wd_r wordData)
  /\ ((forall wordData, In wordData words -> wd_w wordData <> target) ->
        _findWordRules words target = None).
Proof.
  intros Hs. unfold _binarySearch, _findWordRules. split; [split|split].
  - destruct (search words target) as [wd|] eqn:Hf; [|discriminate].
    intros _. exists wd. apply search_sound, Hf.
  - intros (wd & Hin & Hw). rewrite (search_complete words target wd Hs Hin Hw). reflexivity.
  - intros wd Hin Hw. rewrite (search_complete words target wd Hs Hin Hw). reflexivity.
  - intros Hno. destruct (search words target) as [wd|] eqn:Hf; [|reflexivity].
    destruct (search_sound _ _ _ Hf) as [Hin Hw]. destruct (Hno wd Hin Hw).
Qed.

(** Witness of X2: a partition of three words *)
Lemma binarySearch_correct_witness :
  _binarySearch [ {| wd_w := "apple"; wd_r := None |};
                  {| wd_w := "apply"; wd_r := Some [["S"]] |};
                  {| wd_w := "apt"; wd_r := None |} ] "apply" = true
  /\ _findWordRules [ {| wd_w := "apple"; wd_r := None |};
                      {| wd_w := "apply"; wd_r := Some [["S"]] |};
                      {| wd_w := "apt"; wd_r := None |} ] "apply" = Some [["S"]].
Proof.
  destruct (binarySearch_correct
              [ {| wd_w := "apple"; wd_r := None |};
                {| wd_w := "apply"; wd_r := Some [["S"]] |};
                {| wd_w := "apt"; wd_r := None |} ] "apply") as (Hfound & Hrules & _).
  { repeat constructor; vm_compute; reflexivity. }
  split.
  - apply Hfound. exists {| wd_w := "apply"; wd_r := Some [["S"]] |}.
    split; [right; left; reflexivity|reflexivity].
  - apply (Hrules {| wd_w := "apply"; wd_r := Some [["S"]] |});
      [right; left; reflexivity|reflexivity].
Defined.

(** ** The bloom filter *)

Section HashFacts.

Lemma toInt32_mod (x : Z) : JS.toInt32 x mod 2 ^ 32 = x mod 2 ^ 32.
Proof.
  unfold JS.toInt32. rewrite (Z.mod_eq (x + 2 ^ 31) (2 ^ 32)) by lia.
  replace (x + 2 ^ 31 - 2 ^ 32 * ((x + 2 ^ 31) / 2 ^ 32) - 2 ^ 31)
    with (x + (- ((x + 2 ^ 31) / 2 ^ 32)) * 2 ^ 32) by ring.
  apply Z.mod_add. lia.
Qed.

Lemma hashStep_djb2 (hash : Z) (c : ascii) :
  BloomFilter.hashStep hash c = (33 * hash + JS.charCode c) mod 2 ^ 32.
Proof.
  unfold BloomFilter.hashStep, JS.toUint32, JS.shl.
  change (5 mod 32) with 5. rewrite Z.shiftl_mul_pow2 by lia.
  rewrite <- Z.add_assoc, Z.add_mod, toInt32_mod, <- Z.add_mod by lia.
  f_equal. change (2 ^ 5) with 32. ring.
Qed.

End HashFacts.

(** X3.  [_hash] is the DJB2 recurrence modulo 2^32, started at
    [5381 + 1000 * seed]: the signed overflow of [hash << 5] has no effect.
    For a word that is not empty the hash is an unsigned 32-bit number. *)
Theorem hash_is_djb2 (str : string) (seed : Z) :
  BloomFilter._hash str seed
  = fold_left (fun hash c => (33 * hash + JS.charCode c) mod 2 ^ 32)
      (JS.chars str) (5381 + seed * 1000)
  /\ (str <> "" -> 0 <= BloomFilter._hash str seed < 2 ^ 32).
Proof.
  unfold BloomFilter._hash. split.
  - generalize (5381 + seed * 1000).
    induction (JS.chars str) as [|c cs IH]; intros h; simpl; [reflexivity|].
    rewrite hashStep_djb2. apply IH.
  - intros Hne. destruct str as [|c str]; [congruence|]. simpl.
    assert (0 <= BloomFilter.hashStep (5381 + seed * 1000) c < 2 ^ 32) as Hb.
    { rewrite hashStep_djb2. apply Z.mod_pos_bound. lia. }
    revert Hb. generalize (BloomFilter.hashStep (5381 + seed * 1000) c).
    induction (JS.chars str) as [|c' cs IH]; intros h Hh; simpl; [exact Hh|].
    apply IH. rewrite hashStep_djb2. apply Z.mod_pos_bound. lia.
Qed.

Section BloomMore.
Import BloomFilter.

Lemma length_add f w : List.length (bits (add f w)) = List.length (bits f).
Proof.
  unfold add. generalize (probes f) as l. intros l. revert f.
  induction l as [|i l IH]; intros f; simpl; [reflexivity|].
  rewrite IH. apply BloomFacts.length_addProbe.
Qed.

Lemma size_add f w : size (add f w) = size f.
Proof.
  unfold add. generalize (probes f) as l. intros l. revert f.
  induction l as [|i l IH]; intros f; simpl; [reflexivity|].
  rewrite IH. apply BloomFacts.size_addProbe.
Qed.

(** The bytes of the array stay unsigned bytes. *)
Lemma bytes_addProbe w f i :
  List.Forall (fun b => 0 <= b < 256) (bits f) ->
  List.Forall (fun b => 0 <= b < 256) (bits (addProbe w f i)).
Proof.
  intros Hb. unfold addProbe. destruct (JS.rem _ _) as [bitIndex|]; [|exact Hb]. simpl.
  apply Forall_insert; [exact Hb|]. apply Z.mod_pos_bound. lia.
Qed.

Lemma bytes_add f w :
  List.Forall (fun b => 0 <= b < 256) (bits f) ->
  List.Forall (fun b => 0 <= b < 256) (bits (add f w)).
Proof.
  unfold add. generalize (probes f) as l. intros l. revert f.
  induction l as [|i l IH]; intros f Hb; simpl; [exact Hb|].
  apply IH, bytes_addProbe, Hb.
Qed.

Lemma bytes_adds f ws :
  List.Forall (fun b => 0 <= b < 256) (bits f) ->
  List.Forall (fun b => 0 <= b < 256) (bits (fold_left add ws f)).
Proof.
  revert f. induction ws as [|w ws IH]; intros f Hb; simpl; [exact Hb|].
  apply IH, bytes_add, Hb.
Qed.

Lemma bytes_new size k : List.Forall (fun b => 0 <= b < 256) (bits (new size k)).
Proof.
  simpl. rewrite List.Forall_forall. intros b Hin.
  apply list_elem_of_In, elem_of_replicate in Hin. lia.
Qed.

Lemma numHashes_adds f ws : numHashes (fold_left add ws f) = numHashes f.
Proof.
  revert f. induction ws as [|w ws IH]; intros f; simpl; [reflexivity|].
  rewrite IH. apply BloomFacts.numHashes_add.
Qed.

Lemma size_adds f ws : size (fold_left add ws f) = size f.
Proof.
  revert f. induction ws as [|w ws IH]; intros f; simpl; [reflexivity|].
  rewrite IH. apply size_add.
Qed.

End BloomMore.

(** X4.  [add] only sets bits: it keeps the size, the number of probes and
    the length of the array, and a word that the filter might contain
    before the call it might contain afterwards. *)
Theorem bloom_add_only_sets_bits (f : BloomFilter.t) (word other : string) :
  BloomFilter.wellSized f ->
  BloomFilter.size (BloomFilter.add f word) = BloomFilter.size f
  /\ BloomFilter.numHashes (BloomFilter.add f word) = BloomFilter.numHashes f
  /\ List.length (BloomFilter.bits (BloomFilter.add f word))
     = List.length (BloomFilter.bits f)
  /\ (BloomFilter.mightContain f other = true ->
      BloomFilter.mightContain (BloomFilter.add f word) other = true).
Proof.
  intros Hw. split; [apply size_add|]. split; [apply BloomFacts.numHashes_add|].
  split; [apply length_add|]. apply BloomFacts.mightContain_add_mono, Hw.
Qed.

(** Witness of X4: a filter of 64 bits that holds "cat" *)
Lemma bloom_add_only_sets_bits_witness :
  BloomFilter.mightContain
    (BloomFilter.add (BloomFilter.add (BloomFilter.new 64 3) "cat") "dog") "cat" = true.
Proof.
  destruct (bloom_add_only_sets_bits (BloomFilter.add (BloomFilter.new 64 3) "cat")
              "dog" "cat") as (_ & _ & _ & Hmono).
  - apply BloomFacts.wellSized_add, BloomFacts.wellSized_new. lia.
  - apply Hmono. vm_compute. reflexivity.
Defined.

(** X5.  A new filter with at least one bit holds no word: [mightContain]
    is false for every word, for every number of probes that is not
    negative (zero selects three probes). *)
Theorem bloom_new_is_empty (size numHashes : Z) (word : string) :
  0 < size -> 0 <= numHashes ->
  BloomFilter.mightContain (BloomFilter.new size numHashes) word = false.
Proof.
  intros Hs Hn. unfold BloomFilter.mightContain, BloomFilter.probes.
  set (f := BloomFilter.new size numHashes).
  assert (exists n, Z.to_nat (BloomFilter.numHashes f) = S n) as [n ->].
  { subst f. simpl. destruct (Z.eqb_spec numHashes 0); [exists 2%nat; reflexivity|].
    exists (Nat.pred (Z.to_nat numHashes)). lia. }
  simpl. apply andb_false_iff. left.
  unfold BloomFilter.probeSet.
  destruct (JS.rem _ _) as [bitIndex|]; [|reflexivity].
  assert (BloomFilter.readByte (BloomFilter.bits f) (bitIndex / 8) = 0) as ->.
  { unfold BloomFilter.readByte. subst f. simpl.
    destruct (replicate _ 0 !! _) as [b|] eqn:Hb; [|reflexivity].
    apply lookup_replicate in Hb. simpl. tauto. }
  reflexivity.
Qed.

(** Witness of X5 *)
Lemma bloom_new_is_empty_witness :
  BloomFilter.mightContain (BloomFilter.new 64 0) "cat" = false.
Proof. apply bloom_new_is_empty; lia. Defined.

(** X6.  A filter built by [new] and [add] comes back unchanged from
    [toJSON] followed by the restoring statements of the loader ([new
    BloomFilter(json.size, json.numHashes)] and [fromJSON(json)]), so the
    restored filter answers [mightContain] as the exported one. *)
Theorem bloom_json_round_trip (size numHashes : Z) (words : list string) (word : string) :
  let f := fold_left BloomFilter.add words (BloomFilter.new size numHashes) in
  BloomFilterJSON.restore (BloomFilterJSON.toJSON f) = f
  /\ BloomFilter.mightContain (BloomFilterJSON.restore (BloomFilterJSON.toJSON f)) word
     = BloomFilter.mightContain f word.
Proof.
  intros f.
  assert (BloomFilterJSON.restore (BloomFilterJSON.toJSON f) = f) as Hr.
  { unfold BloomFilterJSON.restore, BloomFilterJSON.fromJSON, BloomFilterJSON.toJSON. simpl.
    pose proof (bytes_adds (BloomFilter.new size numHashes) words (bytes_new _ _)) as Hb.
    fold f in Hb. destruct f as [s n bs]. simpl in *. f_equal.
    induction Hb as [|b bs Hb Hbs IH]; simpl; [reflexivity|].
    rewrite IH, Z.mod_small by exact Hb. reflexivity. }
  split; [exact Hr|]. rewrite Hr. reflexivity.
Qed.

(** ** The LRU cache: what it returns *)

Module LRULookup.
Import LRUCache LRUContent.

Section WithValues.
Context {V : Type}.
Implicit Types (c : t V) (m : list (string * V)) (key : string).

Lemma mapGet_fresh key (v : V) m :
  mapHas key m = false -> mapGet key (m ++ [(key, v)]) = Some v.
Proof.
  intros Hh. rewrite mapGet_app.
  destruct (mapGet key m) eqn:Hg.
  - assert (mapHas key m = true) by (apply mapHas_mapGet; eauto). congruence.
  - simpl. rewrite String.eqb_refl. reflexivity.
Qed.

Lemma mapHas_mapDelete key m : mapHas key (mapDelete key m) = false.
Proof.
  destruct (mapHas key (mapDelete key m)) eqn:Hh; [|reflexivity].
  apply mapHas_mapGet in Hh. destruct Hh as [v Hv].
  rewrite mapGet_mapDelete, String.eqb_refl in Hv. discriminate Hv.
Qed.

(** The entry that [set] stores is there afterwards, unless the cache has
    no room for a single entry. *)
Lemma mapGet_set_same c key (v : V) :
  1 <= maxSize c -> mapGet key (cache (set c key v)) = Some v.
Proof.
  intros Hm. unfold set. simpl.
  set (m1 := if mapHas key (cache c) then mapDelete key (cache c) else cache c).
  assert (mapHas key m1 = false) as Hfresh.
  { subst m1. destruct (mapHas key (cache c)) eqn:Hh; [apply mapHas_mapDelete|exact Hh]. }
  pose proof (mapGet_fresh key v m1 Hfresh) as Hg.
  destruct (Z.gtb_spec (Z.of_nat (List.length (m1 ++ [(key, v)]))) (maxSize c)) as [Hgt|_];
    [|exact Hg].
  clearbody m1. destruct m1 as [|[k0 v0] m1].
  - simpl in Hgt. lia.
  - change (((k0, v0) :: m1) ++ [(key, v)]) with ((k0, v0) :: (m1 ++ [(key, v)])).
    cbv iota beta. rewrite mapGet_mapDelete.
    destruct (String.eqb_spec k0 key) as [->|Hne]; [|exact Hg].
    simpl in Hfresh. rewrite String.eqb_refl in Hfresh. discriminate Hfresh.
Qed.

Lemma get_value c key (w : V) :
  fst (get c key) = Some w -> mapGet key (cache c) = Some w.
Proof.
  unfold get. destruct (mapHas key (cache c)); simpl; [|discriminate].
  destruct (mapGet key (cache c)); simpl; auto.
Qed.

Lemma lastSet_none key (ops : list (Op V)) (w : V) :
  LRUHistory.lastSet key ops None = Some w ->
  forall init, LRUHistory.lastSet key ops init = Some w.
Proof.
  unfold LRUHistory.lastSet.
  assert (forall (a b : option V),
             (a = b \/ a = None) ->
             fold_left (fun acc o =>
                          match o with
                          | OpSet k v => if String.eqb k key then Some v else acc
                          | OpGet _ => acc
                          end) ops a = Some w ->
             fold_left (fun acc o =>
                          match o with
                          | OpSet k v => if String.eqb k key then Some v else acc
                          | OpGet _ => acc
                          end) ops b = Some w) as Hgen.
  { induction ops as [|o ops IH]; intros a b Hab; simpl.
    - destruct Hab as [->| ->]; [auto|discriminate].
    - apply IH. destruct o as [k|k v]; [exact Hab|].
      destruct (String.eqb k key); [left; reflexivity|exact Hab]. }
  intros Hn init. apply (Hgen None init); auto.
Qed.

(** A cached value is the value of the last [set] of its key. *)
Lemma mapGet_runOps c (ops : list (Op V)) key (w : V) :
  mapGet key (cache (runOps c ops)) = Some w ->
  LRUHistory.lastSet key ops (mapGet key (cache c)) = Some w.
Proof.
  revert c. induction ops as [|o ops IH]; intros c Hg; [exact Hg|].
  change (runOps c (o :: ops)) with (runOps (step c o) ops) in Hg.
  specialize (IH _ Hg).
  change (LRUHistory.lastSet key (o :: ops) (mapGet key (cache c)))
    with (LRUHistory.lastSet key ops
            match o with
            | OpSet k v => if String.eqb k key then Some v else mapGet key (cache c)
            | OpGet _ => mapGet key (cache c)
            end).
  destruct o as [k|k v]; unfold step in IH.
  - destruct (mapGet key (cache (snd (get c k)))) as [x|] eqn:Hx.
    + rewrite (mapGet_get c k key x Hx). exact IH.
    + apply (lastSet_none key ops w IH).
  - destruct (mapGet key (cache (set c k v))) as [x|] eqn:Hx.
    + apply mapGet_set in Hx. destruct Hx as [[-> ->]|[Hne Hx]].
      * rewrite String.eqb_refl. exact IH.
      * destruct (String.eqb_spec k key) as [?|_]; [congruence|].
        rewrite Hx. exact IH.
    + apply (lastSet_none key ops w IH).
Qed.

End WithValues.
End LRULookup.

(** X7.  Storing and looking up.  In a cache with room for at least one
    entry, [get] after [set] returns the value stored and [has] is true;
    [get] of a key that is not cached returns [null] and leaves the cache
    as it is; and a new cache without room for an entry stays empty. *)
Theorem lru_set_then_get {V : Type} (c : LRUCache.t V) (key : string) (value : V) :
  (1 <= LRUCache.maxSize c ->
   LRUCache.has (LRUCache.set c key value) key = true
   /\ fst (LRUCache.get (LRUCache.set c key value) key) = Some value)
  /\ (LRUCache.has c key = false -> LRUCache.get c key = (None, c))
  /\ (LRUCache.maxSize c <= 0 -> LRUCache.cache c = [] ->
      LRUCache.cache (LRUCache.set c key value) = []).
Proof.
  split; [|split].
  - intros Hm. pose proof (LRULookup.mapGet_set_same c key value Hm) as Hg.
    assert (LRUCache.has (LRUCache.set c key value) key = true) as Hh.
    { unfold LRUCache.has. apply LRUContent.mapHas_mapGet. eauto. }
    split; [exact Hh|].
    destruct (LRUContent.get_hit _ _ Hh) as (v & Hv & ->). simpl. congruence.
  - apply LRUOrder.get_miss.
  - intros Hm He. unfold LRUCache.set. rewrite He. simpl.
    unfold LRUCache.mapDelete. simpl. rewrite String.eqb_refl. simpl.
    destruct (Z.gtb_spec (Z.of_nat 1) (LRUCache.maxSize c)) as [_|?]; [reflexivity|lia].
Qed.

(** Witness of X7: a cache of capacity 2 *)
Lemma lru_set_then_get_witness :
  fst (LRUCache.get (LRUCache.set (LRUCache.new 2) "ap" 7) "ap") = Some 7
  /\ LRUCache.get (LRUCache.new 2) "ap" = (@None Z, LRUCache.new 2)
  /\ LRUCache.cache (LRUCache.set (LRUCache.new 0) "ap" 7) = [].
Proof.
  destruct (lru_set_then_get (LRUCache.new 2) "ap" 7) as (Hset & Hmiss & _).
  destruct (lru_set_then_get (LRUCache.new 0) "ap" 7) as (_ & _ & Hzero).
  split; [apply Hset; simpl; lia|]. split; [apply Hmiss; reflexivity|].
  apply Hzero; [simpl; lia|reflexivity].
Defined.

(** X8.  The cache never serves a stale value: after any sequence of [get]
    and [set] calls on a new cache, the value that [get] returns for a key
    is the value of the last [set] of that key. *)
Theorem lru_get_returns_last_set {V : Type} (maxSize : Z) (ops : list (LRUCache.Op V))
    (key : string) (value : V) :
  fst (LRUCache.get (LRUCache.runOps (LRUCache.new maxSize) ops) key) = Some value ->
  LRUHistory.lastSet key ops None = Some value.
Proof.
  intros Hg. apply LRULookup.get_value in Hg.
  apply (LRULookup.mapGet_runOps (LRUCache.new maxSize) ops key value Hg).
Qed.

(** Witness of X8: "ap" is set twice, with another key in between *)
Lemma lru_get_returns_last_set_witness :
  fst (LRUCache.get
         (LRUCache.runOps (LRUCache.new 2)
            [LRUCache.OpSet "ap" 1; LRUCache.OpSet "br" 2; LRUCache.OpSet "ap" 3]) "ap")
  = Some 3
  /\ LRUHistory.lastSet "ap"
       [LRUCache.OpSet "ap" 1; LRUCache.OpSet "br" 2; LRUCache.OpSet "ap" 3] None = Some 3.
Proof.
  split; [reflexivity|].
  apply (lru_get_returns_last_set 2). reflexivity.
Defined.

(** ** Export to the paged layout, and the lookups after the import *)

Section TextFacts.




End TextFacts.

Section ExportFacts.
Context `{Builtins}.


(** The partitioning loop groups the words by their prefix and keeps
    their order. *)
Lemma partitions_fold (words : list WordData) (acc : gmap string (list WordData))
    (prefix : string) :
  fold_left
    (fun partitions wordData =>
       let prefix := _getPartitionPrefix (wd_w wordData) in
       <[prefix := default [] (partitions !! prefix) ++ [wordData]]> partitions)
    words acc !! prefix
  = match withPrefix prefix words with
    | [] => acc !! prefix
    | _ :: _ => Some (default [] (acc !! prefix) ++ withPrefix prefix words)
    end.
Proof.
  revert acc. induction words as [|wd words IH]; intros acc; [reflexivity|].
  simpl fold_left. rewrite IH. unfold withPrefix. simpl List.filter.
  destruct (String.eqb_spec (_getPartitionPrefix (wd_w wd)) prefix) as [->|Hne].
  - rewrite lookup_insert_eq. simpl.
    destruct (List.filter _ words); [reflexivity|].
    rewrite <- app_assoc. reflexivity.
  - rewrite lookup_insert_ne by exact Hne. reflexivity.
Qed.

Lemma exportPartitions_lookup (words : list WordData) (prefix : string) :
  exportPartitions words !! prefix
  = match withPrefix prefix words with
    | [] => None
    | _ :: _ => Some (withPrefix prefix words)
    end.
Proof. unfold exportPartitions. rewrite partitions_fold, lookup_empty. reflexivity. Qed.

Lemma exportPartitions_default (words : list WordData) (prefix : string) :
  default [] (exportPartitions words !! prefix) = withPrefix prefix words.
Proof. rewrite exportPartitions_lookup. destruct (withPrefix prefix words); reflexivity. Qed.









End ExportFacts.

Section ImportFacts.
Context `{Builtins}.
Implicit Types (t p : Typo) (e : Exported) (word prefix path : string).



Section Imported.
Variables (t p : Typo) (e : Exported) (path : string).
Hypothesis He : exportPreCalculated t = inr e.
Hypothesis Hdict : dictionary p = ex_language e.
Hypothesis Hpath : preCalculatedPath p = path.
Hypothesis Hindex : partitionIndex p = ex_index e.
Hypothesis Hfiles : files p = writtenFiles path e.






End Imported.


End ImportFacts.








(** ** The files that a paged lookup reads *)

Section PagedIO.
Context `{Builtins}.
Implicit Types (t : Typo) (word prefix : string).

(** The file that a lookup of [prefix] reads: the partition file of the
    prefix, when the prefix is indexed and its partition is not cached *)
Lemma loadPartition_effect t prefix :
  sameData t (snd (_loadPartition prefix t))
  /\ notFoundCache (snd (_loadPartition prefix t)) = notFoundCache t
  /\ reads (snd (_loadPartition prefix t))
     = reads t ++ (if LRUCache.has (partitionCache t) prefix then []
                   else match partitionIndex t !! prefix with
                        | Some partitionInfo => [partitionPath t partitionInfo]
                        | None => []
                        end).
Proof.
  unfold _loadPartition. rewrite run_this_bind.
  destruct (LRUCache.has (partitionCache t) prefix).
  - destruct (LRUCache.get (partitionCache t) prefix) as [[words|] c];
      unfold bind, update, ret, throw; simpl; rewrite app_nil_r;
      (split; [apply sameData_set_partitionCache|split; reflexivity]).
  - destruct (partitionIndex t !! prefix) as [partitionInfo|].
    + unfold readPartitionFile, bind, this, update, ret, throw. simpl.
      destruct (files t !! partitionPath t partitionInfo); simpl;
        (split; [reflexivity|split; reflexivity]).
    + unfold ret. simpl. rewrite app_nil_r.
      split; [apply sameData_refl|split; reflexivity].
Qed.

Lemma checkPreCalculated_effect t word :
  sameData t (snd (_checkPreCalculated word t))
  /\ reads (snd (_checkPreCalculated word t))
     = reads t ++
       (if negb (LRUCache.has (notFoundCache t) word)
           && BloomFilter.mightContain (bloomFilter t) word
           && negb (LRUCache.has (partitionCache t) (_getPartitionPrefix word))
        then match partitionIndex t !! _getPartitionPrefix word with
             | Some partitionInfo => [partitionPath t partitionInfo]
             | None => []
             end
        else []).
Proof.
  unfold _checkPreCalculated. rewrite run_this_bind.
  destruct (LRUCache.has (notFoundCache t) word); simpl.
  { unfold ret. simpl. rewrite app_nil_r. split; [apply sameData_refl|reflexivity]. }
  destruct (BloomFilter.mightContain (bloomFilter t) word); simpl.
  2:{ unfold bind, update, ret. simpl. rewrite app_nil_r.
      split; [apply sameData_set_notFoundCache|reflexivity]. }
  destruct (loadPartition_effect t (_getPartitionPrefix word)) as (Hs & _ & Hreads).
  assert (reads (snd (_loadPartition (_getPartitionPrefix word) t))
          = reads t ++
            (if negb (LRUCache.has (partitionCache t) (_getPartitionPrefix word))
             then match partitionIndex t !! _getPartitionPrefix word with
                  | Some partitionInfo => [partitionPath t partitionInfo]
                  | None => []
                  end
             else [])) as Hreads'.
  { rewrite Hreads. destruct (LRUCache.has (partitionCache t) _); reflexivity. }
  clear Hreads. rename Hreads' into Hreads.
  destruct (_loadPartition (_getPartitionPrefix word) t) as [[words|e] t1] eqn:Hload;
    simpl in Hs, Hreads.
  2:{ rewrite (run_bind_throw _ _ _ _ _ Hload). split; assumption. }
  rewrite (run_bind _ _ _ _ _ Hload).
  destruct (_binarySearch words word); simpl; [unfold ret; simpl; split; assumption|].
  rewrite run_this_bind.
  destruct (meetsCompoundMin t1 word && matchesCompoundRule t1 word);
    [unfold ret; simpl; split; assumption|].
  unfold bind, update, ret. simpl. split; [|exact Hreads].
  eapply sameData_trans; [exact Hs|apply sameData_set_notFoundCache].
Qed.

(** A word that the paged lookup rejects is in the not-found cache
    afterwards, when the cache has room for an entry. *)
Lemma checkPreCalculated_rejects t word t' :
  1 <= LRUCache.maxSize (notFoundCache t) ->
  _checkPreCalculated word t = (Ret false, t') ->
  LRUCache.has (notFoundCache t') word = true.
Proof.
  intros Hm. unfold _checkPreCalculated. rewrite run_this_bind.
  assert (forall c : LRUCache.t bool,
             1 <= LRUCache.maxSize c -> LRUCache.has (LRUCache.add c word) word = true)
    as Hadd.
  { intros c Hc. unfold LRUCache.has, LRUCache.add.
    apply LRUContent.mapHas_mapGet. rewrite (LRULookup.mapGet_set_same c word true Hc).
    eauto. }
  destruct (LRUCache.has (notFoundCache t) word) eqn:Hh; simpl.
  { unfold ret. intros [= <-]. exact Hh. }
  destruct (BloomFilter.mightContain (bloomFilter t) word); simpl.
  2:{ unfold bind, update, ret. simpl. intros [= <-]. simpl. apply Hadd, Hm. }
  destruct (loadPartition_effect t (_getPartitionPrefix word)) as (_ & Hnf & _).
  destruct (_loadPartition (_getPartitionPrefix word) t) as [[words|e] t1] eqn:Hload;
    simpl in Hnf.
  2:{ rewrite (run_bind_throw _ _ _ _ _ Hload). discriminate. }
  rewrite (run_bind _ _ _ _ _ Hload).
  destruct (_binarySearch words word); simpl; [unfold ret; discriminate|].
  rewrite run_this_bind.
  destruct (meetsCompoundMin t1 word && matchesCompoundRule t1 word);
    [unfold ret; discriminate|].
  unfold bind, update, ret. simpl. intros [= <-]. simpl.
  apply Hadd. rewrite Hnf. exact Hm.
Qed.

End PagedIO.

(** X12.  A paged lookup reads at most one file and changes no data.
    [_checkPreCalculated(word)], whether it returns or throws, leaves the
    data of the instance as it is, and appends to the log of the files read
    the partition file of the prefix of the word when the word is not in
    the not-found cache, the bloom filter answers true, the partition is
    not cached and the prefix is in the index; in every other case it
    reads nothing. *)
Theorem paged_lookup_reads_one_file `{Builtins} (t : Typo) (word : string) :
  sameData t (snd (_checkPreCalculated word t))
  /\ reads (snd (_checkPreCalculated word t))
     = reads t ++
       (if negb (LRUCache.has (notFoundCache t) word)
           && BloomFilter.mightContain (bloomFilter t) word
           && negb (LRUCache.has (partitionCache t) (_getPartitionPrefix word))
        then match partitionIndex t !! _getPartitionPrefix word with
             | Some partitionInfo => [partitionPath t partitionInfo]
             | None => []
             end
        else []).
Proof. apply checkPreCalculated_effect. Qed.

(** X13.  The not-found cache.  On a loaded paged instance whose not-found
    cache has room for an entry, after [checkExact] has returned false for
    a word, the word is in the not-found cache, and a second call returns
    false again and leaves the instance as it is: it reads no file and
    touches no cache. *)
Theorem rejected_word_is_cached `{Builtins} (t : Typo) (word : string) (t' : Typo) :
  loaded t = true -> preCalculated t = true ->
  1 <= LRUCache.maxSize (notFoundCache t) ->
  checkExact word t = (Ret false, t') ->
  LRUCache.has (notFoundCache t') word = true
  /\ checkExact word t' = (Ret false, t').
Proof.
  intros Hl Hp Hm. unfold checkExact at 1.
  rewrite (run_bind _ _ _ _ _ (run_requireLoaded t Hl)), run_this_bind, Hp.
  intros Hrun.
  pose proof (checkPreCalculated_rejects t word t' Hm Hrun) as Hh.
  split; [exact Hh|].
  destruct (checkPreCalculated_effect t word) as [Hs _]. rewrite Hrun in Hs. simpl in Hs.
  destruct (sameData_fields _ _ Hs) as (_ & _ & _ & _ & _ & _ & Hl' & _ & Hp' & _).
  unfold checkExact.
  rewrite (run_bind _ _ _ _ _ (run_requireLoaded t' ltac:(congruence))), run_this_bind.
  rewrite <- Hp', Hp. unfold _checkPreCalculated. rewrite run_this_bind, Hh. reflexivity.
Qed.

(** Witness of X13: "zebra" is looked up twice in the paged dictionary of
    three words. *)
Lemma rejected_word_is_cached_witness :
  checkExact "zebra" (snd (checkExact "zebra" Examples.pagedThree))
  = (Ret false, snd (checkExact "zebra" Examples.pagedThree)).
Proof.
  apply (@rejected_word_is_cached Ascii7.builtins Examples.pagedThree "zebra").
  - reflexivity.
  - reflexivity.
  - vm_compute. discriminate.
  - vm_compute. reflexivity.
Defined.

(** ** [check]: white space and capitalization *)

Section TrimFacts.

Lemma trimStart_head (s : string) :
  JS.trimStart s = ""
  \/ exists c r, JS.trimStart s = String c r /\ JS.isSpace c = false.
Proof.
  induction s as [|c s IH]; [left; reflexivity|]. simpl.
  destruct (JS.isSpace c) eqn:Hc; [exact IH|]. right. eauto.
Qed.

Lemma trimEnd_head (c : ascii) (s : string) :
  JS.isSpace c = false -> exists r, JS.trimEnd (String c s) = String c r.
Proof.
  intros Hc. simpl. destruct (JS.trimEnd s); [|eauto].
  rewrite Hc. unfold JS.char. eauto.
Qed.

Lemma trimEnd_idem (s : string) : JS.trimEnd (JS.trimEnd s) = JS.trimEnd s.
Proof.
  induction s as [|c s IH]; [reflexivity|].
  change (JS.trimEnd (String c s))
    with (match JS.trimEnd s with
          | EmptyString => if JS.isSpace c then EmptyString else JS.char c
          | r => String c r
          end).
  destruct (JS.trimEnd s) as [|d r] eqn:Hr.
  - destruct (JS.isSpace c) eqn:Hc; [reflexivity|].
    unfold JS.char. simpl. rewrite Hc. reflexivity.
  - change (JS.trimEnd (String c (String d r)))
      with (match JS.trimEnd (String d r) with
            | EmptyString => if JS.isSpace c then EmptyString else JS.char c
            | r' => String c r'
            end).
    rewrite IH. reflexivity.
Qed.

(** Trimming a trimmed word changes nothing. *)
Lemma trim_idem (s : string) :
  JS.trimEnd (JS.trimStart (JS.trimEnd (JS.trimStart s))) = JS.trimEnd (JS.trimStart s).
Proof.
  assert (JS.trimStart (JS.trimEnd (JS.trimStart s)) = JS.trimEnd (JS.trimStart s)) as ->.
  { destruct (trimStart_head s) as [->|(c & r & -> & Hc)]; [reflexivity|].
    destruct (trimEnd_head c r Hc) as [r' ->]. simpl. rewrite Hc. reflexivity. }
  apply trimEnd_idem.
Qed.

End TrimFacts.

(** X14.  Before the dictionary is loaded every query throws "Dictionary
    not loaded." at the call and leaves the instance as it is. *)
Theorem queries_throw_when_not_loaded `{Builtins} (t : Typo) (word flag : string)
    (wordFlags : option (list string)) (limit : Z) :
  loaded t = false ->
  check word t = (Throw DictionaryNotLoaded, t)
  /\ checkExact word t = (Throw DictionaryNotLoaded, t)
  /\ hasFlag word flag wordFlags t = (Throw DictionaryNotLoaded, t)
  /\ suggest word limit t = (Throw DictionaryNotLoaded, t).
Proof.
  intros Hl. destruct (queries_throw_before_ready t word flag limit Hl)
    as (Hc & He & Hf & Hs).
  auto.
Qed.

(** Witness of X14: the instance without a dictionary *)
Lemma queries_throw_when_not_loaded_witness :
  check "the" (@unloaded Ascii7.builtins) = (Throw DictionaryNotLoaded, unloaded)
  /\ suggest "teh" 5 (@unloaded Ascii7.builtins) = (Throw DictionaryNotLoaded, unloaded).
Proof.
  destruct (@queries_throw_when_not_loaded Ascii7.builtins unloaded "the" "KEEPCASE" None 5)
    as (Hc & _); [reflexivity|].
  destruct (@queries_throw_when_not_loaded Ascii7.builtins unloaded "teh" "KEEPCASE" None 5)
    as (_ & _ & _ & Hs); [reflexivity|].
  split; assumption.
Defined.

(** X15.  [check] on a word that is an exact hit or is not entirely
    upper-case.  With a trimmed form that is not empty, [check] returns
    true when the trimmed word is an exact hit, and otherwise exactly when
    the variant with the first letter lowered differs from the word, is
    not tagged keep-case and is an exact hit.  No other variant is tried,
    and the instance stays Ready and keeps its data. *)
Theorem check_first_letter_variant `{Builtins} (t : Typo) (aWord : string) :
  let trimmedWord := JS.trimEnd (JS.trimStart aWord) in
  let uncapitalizedWord := toLowerCase (JS.take 1 trimmedWord) +:+ JS.drop 1 trimmedWord in
  Ready t ->
  trimmedWord <> "" ->
  exact t trimmedWord = true \/ toUpperCase trimmedWord <> trimmedWord ->
  Returns (check aWord) t
    (Ret (exact t trimmedWord
          || (negb (String.eqb uncapitalizedWord trimmedWord)
              && negb (flagged t uncapitalizedWord "KEEPCASE")
              && exact t uncapitalizedWord))).
Proof.
  intros trimmedWord uncapitalizedWord Hr Hne Hcase. unfold check.
  eapply (Returns_bind_at t); [apply sameData_refl|apply Returns_requireLoaded, Hr|].
  intros t1 Hs1 Hr1.
  destruct (String.eqb_spec aWord "") as [->|_].
  { exfalso. apply Hne. reflexivity. }
  fold trimmedWord.
  eapply (Returns_bind_at t); [exact Hs1|apply Returns_checkExact_at; eassumption|].
  intros t2 Hs2 Hr2.
  destruct (exact t trimmedWord) eqn:Hex; cbv beta iota; [apply Returns_ret, Hr2|].
  destruct Hcase as [Hcase|Hup]; [discriminate Hcase|].
  assert (String.eqb (toUpperCase trimmedWord) trimmedWord = false) as ->
    by (apply String.eqb_neq, Hup).
  eapply (Returns_bind_at t); [exact Hs2|apply Returns_ret, Hr2|].
  intros t3 Hs3 Hr3. cbv beta iota.
  destruct (JS.head trimmedWord) as [c|] eqn:Hhead.
  2:{ destruct trimmedWord; [congruence|discriminate]. }
  cbv beta iota zeta.
  assert (JS.take 1 trimmedWord = JS.char c) as Htake.
  { destruct trimmedWord as [|c' s]; [discriminate|]. injection Hhead as ->.
    destruct s; reflexivity. }
  assert (toLowerCase (JS.char c) +:+ JS.drop 1 trimmedWord = uncapitalizedWord) as ->.
  { unfold uncapitalizedWord. rewrite Htake. reflexivity. }
  destruct (negb (String.eqb uncapitalizedWord trimmedWord)); simpl;
    [|apply Returns_ret, Hr3].
  eapply (Returns_bind_at t); [exact Hs3|apply Returns_hasFlag_at; eassumption|].
  intros t4 Hs4 Hr4.
  destruct (flagged t uncapitalizedWord "KEEPCASE"); simpl; [apply Returns_ret, Hr4|].
  eapply (Returns_bind_at t); [exact Hs4|apply Returns_checkExact_at; eassumption|].
  intros t5 Hs5 Hr5.
  destruct (exact t uncapitalizedWord); apply Returns_ret, Hr5.
Qed.

(** Witness of X15: "The" is accepted through "the". *)
Lemma check_first_letter_variant_witness :
  Returns (check "The") Examples.plain (Ret true).
Proof.
  apply (@check_first_letter_variant Ascii7.builtins Examples.plain "The").
  - apply Ready_inMemory.
  - discriminate.
  - right. discriminate.
Defined.

(** X16.  [check] ignores white space around the word: when the trimmed
    word is not empty, [check] on the word and on the trimmed word run the
    same way, on every instance.  The empty word is rejected. *)
Theorem check_trims_the_word `{Builtins} (t : Typo) (aWord : string) :
  (JS.trimEnd (JS.trimStart aWord) <> "" ->
   check aWord t = check (JS.trimEnd (JS.trimStart aWord)) t)
  /\ (loaded t = true -> check "" t = (Ret false, t)).
Proof.
  split.
  - intros Hne. unfold check.
    destruct (String.eqb_spec aWord "") as [->|_].
    { exfalso. apply Hne. reflexivity. }
    destruct (String.eqb_spec (JS.trimEnd (JS.trimStart aWord)) "") as [He|_];
      [contradiction|].
    rewrite trim_idem. reflexivity.
  - intros Hl. unfold check.
    rewrite (run_bind _ _ _ _ _ (run_requireLoaded t Hl)). reflexivity.
Qed.

(** Witness of X16: the word between blanks *)
Lemma check_trims_the_word_witness :
  check "  the " Examples.plain = check "the" Examples.plain
  /\ check "" Examples.plain = (Ret false, Examples.plain).
Proof.
  destruct (@check_trims_the_word Ascii7.builtins Examples.plain "  the ") as [Htrim _].
  destruct (@check_trims_the_word Ascii7.builtins Examples.plain "") as [_ Hempty].
  split; [apply Htrim; discriminate|apply Hempty; reflexivity].
Defined.

(** ** [suggest]: what the list holds *)

Section SuggestMore.
Context `{Builtins}.
Implicit Types (t : Typo) (word : string).

(** The corrected word that the loop over the replacement table returns
    comes from an entry of the table and is accepted by [check]. *)
Lemma tryReplacements_found t0 word table :
  Ready t0 ->
  forall t correctedWord,
    sameData t0 t -> Ready t ->
    fst (tryReplacements word table t) = Ret (Some correctedWord) ->
    fst (check correctedWord t0) = Ret true
    /\ exists replacementEntry,
         In replacementEntry table
         /\ JS.includes (fst replacementEntry) word = true
         /\ correctedWord
            = JS.replace (fst replacementEntry) (snd replacementEntry) word.
Proof.
  intros Hr0. induction table as [|entry table IH]; intros t w Hs Hr; simpl.
  { unfold ret. simpl. discriminate. }
  assert (forall t1, sameData t0 t1 -> Ready t1 ->
            fst (tryReplacements word table t1) = Ret (Some w) ->
            fst (check w t0) = Ret true
            /\ exists replacementEntry,
                 In replacementEntry (entry :: table)
                 /\ JS.includes (fst replacementEntry) word = true
                 /\ w = JS.replace (fst replacementEntry) (snd replacementEntry) word)
    as Hrest.
  { intros t1 Hs1 Hr1 Hrun. destruct (IH t1 w Hs1 Hr1 Hrun) as (Hc & e & Hin & He).
    split; [exact Hc|]. exists e. split; [right; exact Hin|exact He]. }
  destruct (JS.includes (fst entry) word) eqn:Hinc; [|apply Hrest; assumption].
  set (c := JS.replace (fst entry) (snd entry) word).
  destruct (Stable_check c t0 t Hr0 Hr (sameData_sameDict _ _ Hs)) as (Hsame & _).
  destruct (Stable_check c t t Hr Hr (sameDict_refl t)) as (_ & Hr1 & Hs1).
  destruct (check c t) as [[[|]|e] t1] eqn:Hrun; simpl in Hsame, Hr1, Hs1.
  - rewrite (run_bind _ _ _ _ _ Hrun). unfold ret. simpl. intros [= <-].
    split; [exact Hsame|]. exists entry. split; [left; reflexivity|]. auto.
  - rewrite (run_bind _ _ _ _ _ Hrun). apply Hrest; [|exact Hr1].
    eapply sameData_trans; eassumption.
  - rewrite (run_bind_throw _ _ _ _ _ Hrun). simpl. discriminate.
Qed.

(** The candidates of the ranked list are words that [check] accepts. *)
Lemma sortedCorrections_known t word sorted_corrections :
  Ready t ->
  forallb (fun c => JS.spaceFree (JS.char c) && JS.spaceFree (toUpperCase (JS.char c)))
          (JS.chars (alphabet t)) = true ->
  JS.spaceFree word = true ->
  fst (sortedCorrections word t) = Ret sorted_corrections ->
  forall e, In e sorted_corrections -> fst (check (fst e) t) = Ret true.
Proof.
  intros Hr Ha Hw Hsc e Hin.
  destruct (Yields_weightedCorrections t word Hr Ha Hw t (sameData_refl t) Hr)
    as (wc & (t1 & Hrun & _) & Hknown & _).
  destruct (JS.objGet "hasOwnProperty" wc) as [x|] eqn:Hown.
  { unfold sortedCorrections in Hsc. rewrite (run_bind _ _ _ _ _ Hrun), Hown in Hsc.
    rewrite bool_decide_eq_true_2 in Hsc by eauto. discriminate Hsc. }
  rewrite (sortedCorrections_rank t word wc t1 Hr Hrun Hown) in Hsc.
  injection Hsc as <-.
  apply (Permutation_in _ (rank_permutation _)) in Hin.
  apply in_map_iff in Hin. destruct Hin as (e0 & <- & Hin0).
  apply forIn_In in Hin0. unfold knownKeys in Hknown.
  rewrite List.Forall_forall in Hknown. apply (Hknown e0 Hin0).
Qed.

End SuggestMore.

(** X17.  [suggest] returns a bounded list.  On a Ready instance with a
    sound memo that holds no entry "hasOwnProperty", for a word, an
    alphabet and a replacement table without white space, when [check]
    rejects the word "hasOwnProperty": [suggest] returns a list of at most
    [limit] suggestions (at most 5 for the limit 0), none of them twice. *)
Theorem suggest_returns_bounded_list `{Builtins} (t : Typo) (word : string) (limit : Z) :
  Ready t -> memoSound t -> 0 <= limit ->
  JS.spaceFree word = true ->
  spaceFreeAlphabet t = true -> spaceFreeReplacements t = true ->
  fst (check "hasOwnProperty" t) = Ret false ->
  memoized t !! "hasOwnProperty" = None ->
  exists suggestions,
    fst (suggest word limit t) = Ret suggestions
    /\ Z.of_nat (List.length suggestions) <= (if limit =? 0 then 5 else limit)
    /\ List.NoDup suggestions.
Proof.
  intros Hr Hm Hl Hw Ha Hrep Hcheck Hown.
  assert (forall k, 0 < k ->
            exists suggestions,
              fst (suggest word k t) = Ret suggestions
              /\ Z.of_nat (List.length suggestions) <= k /\ List.NoDup suggestions)
    as Hpos.
  { intros k Hk.
    destruct (suggest_returns t word k Hr Hw Ha Hrep Hcheck Hown) as (s & Hs).
    pose proof (suggest_bounded_nodup t word k Hr Hm Hk) as Hb.
    rewrite Hs in Hb. exists s. split; [exact Hs|exact Hb]. }
  destruct (Z.eqb_spec limit 0) as [->|Hne].
  - change (suggest word 0 t) with (suggest word 5 t). apply Hpos. lia.
  - apply Hpos. lia.
Qed.

(** Witness of X17: the suggestions for "teh" *)
Lemma suggest_returns_bounded_list_witness :
  exists suggestions,
    fst (suggest "teh" 0 Examples.plain) = Ret suggestions
    /\ Z.of_nat (List.length suggestions) <= 5 /\ List.NoDup suggestions.
Proof.
  apply (@suggest_returns_bounded_list Ascii7.builtins Examples.plain "teh" 0).
  - apply Ready_inMemory.
  - apply memoSound_empty. reflexivity.
  - lia.
  - reflexivity.
  - vm_compute. reflexivity.
  - reflexivity.
  - vm_compute. reflexivity.
  - reflexivity.
Defined.

(** X18.  A word that [check] accepts gets no suggestions: on a Ready
    instance with a sound memo that holds no entry "hasOwnProperty",
    [suggest] returns the empty list for it, for every limit. *)
Theorem suggest_nothing_for_known_word `{Builtins} (t : Typo) (word : string) (limit : Z) :
  Ready t -> memoSound t ->
  memoized t !! "hasOwnProperty" = None ->
  fst (check word t) = Ret true ->
  fst (suggest word limit t) = Ret [].
Proof.
  intros Hr Hm Hown Hcheck.
  assert (forall k, fst (suggestFresh word k t) = Ret []) as Hfresh.
  { intros k. unfold suggestFresh.
    destruct (check word t) as [r t1] eqn:Hrun. simpl in Hcheck. subst r.
    rewrite (run_bind _ _ _ _ _ Hrun). reflexivity. }
  unfold suggest.
  rewrite (run_bind _ _ _ _ _ (run_requireLoaded t (proj1 Hr))), run_this_bind.
  cbv beta zeta.
  rewrite Hown, bool_decide_eq_false_2 by (intros [x Hx]; discriminate Hx).
  destruct (memoized t !! word) as [[s lim]|] eqn:Hlook; [|apply Hfresh].
  destruct (_ || _); [|apply Hfresh].
  pose proof (Hm word s lim Hlook) as Hs. rewrite Hfresh in Hs. injection Hs as <-.
  unfold ret, JS.slice0. simpl. destruct (_ <? 0); rewrite firstn_nil; reflexivity.
Qed.

(** Witness of X18: "The" is accepted by [check]. *)
Lemma suggest_nothing_for_known_word_witness :
  fst (suggest "The" 5 Examples.plain) = Ret [].
Proof.
  apply (@suggest_nothing_for_known_word Ascii7.builtins Examples.plain "The" 5).
  - apply Ready_inMemory.
  - apply memoSound_empty. reflexivity.
  - reflexivity.
  - vm_compute. reflexivity.
Defined.

(** X19.  Asking twice.  On a Ready instance with a sound memo that holds
    no entry "hasOwnProperty", for a limit that is not negative and a word
    other than "hasOwnProperty": a call of [suggest] leaves the instance
    Ready with a sound memo, and a second call with the same word and limit
    gives the result of the first. *)
Theorem suggest_twice_same_result `{Builtins} (t : Typo) (word : string) (limit : Z) :
  Ready t -> memoSound t -> 0 <= limit ->
  memoized t !! "hasOwnProperty" = None ->
  word <> "hasOwnProperty" ->
  Ready (snd (suggest word limit t))
  /\ memoSound (snd (suggest word limit t))
  /\ fst (suggest word limit (snd (suggest word limit t))) = fst (suggest word limit t).
Proof.
  intros Hr Hm Hl Hown Hne.
  destruct (suggest_memo_transparent t word limit Hr Hm Hl Hown)
    as (Hr1 & Hm1 & _ & Hsecond).
  destruct (Hsecond Hne) as [_ Hsame]. auto.
Qed.

(** Witness of X19: "teh" asked twice *)
Lemma suggest_twice_same_result_witness :
  fst (suggest "teh" 5 (snd (suggest "teh" 5 Examples.plain)))
  = fst (suggest "teh" 5 Examples.plain).
Proof.
  apply (@suggest_twice_same_result Ascii7.builtins Examples.plain "teh" 5).
  - apply Ready_inMemory.
  - apply memoSound_empty. reflexivity.
  - lia.
  - reflexivity.
  - discriminate.
Defined.

(** X20.  The replacement table comes first.  On a Ready instance with a
    sound memo that holds no entry "hasOwnProperty", for a positive limit,
    when [check] rejects the word and the loop over the replacement table
    finds a corrected word: [suggest] returns that word alone; [check]
    accepts it, and it is what [word.replace(key, value)] gives for an entry
    of the table whose key occurs in the word: the first occurrence of the
    key is replaced by the value, in which the patterns [$$], [$&], [$`]
    and [$'] are expanded. *)
Theorem suggest_uses_replacement_table `{Builtins} (t : Typo) (word : string) (limit : Z)
    (correctedWord : string) :
  Ready t -> memoSound t -> 0 < limit ->
  memoized t !! "hasOwnProperty" = None ->
  fst (check word t) = Ret false ->
  fst (tryReplacements word (replacementTable t) t) = Ret (Some correctedWord) ->
  fst (suggest word limit t) = Ret [correctedWord]
  /\ fst (check correctedWord t) = Ret true
  /\ exists replacementEntry,
       In replacementEntry (replacementTable t)
       /\ JS.includes (fst replacementEntry) word = true
       /\ correctedWord = JS.replace (fst replacementEntry) (snd replacementEntry) word.
Proof.
  intros Hr Hm Hl Hown Hcheck Hrep. split.
  - rewrite (suggest_freshResult t word limit Hr Hm Hl Hown).
    unfold freshResult. rewrite Hcheck, Hrep. reflexivity.
  - apply (tryReplacements_found t word (replacementTable t) Hr t correctedWord);
      [apply sameData_refl|exact Hr|exact Hrep].
Qed.

(** Witness of X20: the pair ("x", "$&y") turns "cax" into "caxy". *)
Lemma suggest_uses_replacement_table_witness :
  JS.replace "x" "$&y" "cax" = "caxy"
  /\ fst (suggest "cax" 5 Examples.dollarPattern) = Ret ["caxy"]
  /\ fst (check "caxy" Examples.dollarPattern) = Ret true.
Proof.
  split; [reflexivity|].
  destruct (@suggest_uses_replacement_table Ascii7.builtins Examples.dollarPattern
              "cax" 5 "caxy")
    as (Hs & Hc & _).
  - apply Ready_inMemory.
  - apply memoSound_empty. reflexivity.
  - lia.
  - reflexivity.
  - vm_compute. reflexivity.
  - vm_compute. reflexivity.
  - split; assumption.
Defined.

(** X21.  Every suggestion is a known word.  On a Ready instance with a
    sound memo that holds no entry "hasOwnProperty", for a positive limit,
    a word without white space and an alphabet whose characters, as they
    are and in upper case, are no white space: every suggestion that
    [suggest] returns is a word that [check] accepts, or such a word recased
    to the capitalization of the word asked for. *)
Theorem suggestions_are_known_words `{Builtins} (t : Typo) (word : string) (limit : Z)
    (suggestions : list string) :
  Ready t -> memoSound t -> 0 < limit ->
  memoized t !! "hasOwnProperty" = None ->
  JS.spaceFree word = true -> spaceFreeAlphabet t = true ->
  fst (suggest word limit t) = Ret suggestions ->
  forall suggestion, In suggestion suggestions ->
    exists known,
      fst (check known t) = Ret true
      /\ (suggestion = known
          \/ suggestion = recase (capitalization_scheme word) known).
Proof.
  intros Hr Hm Hl Hown Hw Ha Hs s Hin.
  rewrite (suggest_freshResult t word limit Hr Hm Hl Hown) in Hs.
  unfold freshResult in Hs.
  destruct (fst (check word t)) as [[|]|e]; try discriminate.
  { injection Hs as <-. destruct Hin. }
  destruct (fst (tryReplacements word (replacementTable t) t)) as [[c|]|e] eqn:Hrep;
    try discriminate.
  { injection Hs as <-. destruct Hin as [<-|[]]. exists c. split; [|left; reflexivity].
    apply (tryReplacements_found t word (replacementTable t) Hr t c);
      [apply sameData_refl|exact Hr|exact Hrep]. }
  set (t1 := set_alphabet (effectiveAlphabet t) t) in *.
  destruct (fst (sortedCorrections word t1)) as [sc|e] eqn:Hsc; try discriminate.
  injection Hs as <-.
  assert (In s (accepted t (capitalization_scheme word) sc [])) as Hacc.
  { revert Hin. generalize (accepted t (capitalization_scheme word) sc []).
    generalize (Z.to_nat limit). intros n l. revert n.
    induction l as [|x l IH]; intros [|n]; simpl; try tauto.
    intros [->|Hin]; [left; reflexivity|right; eapply IH; exact Hin]. }
  pose proof (accepted_sublist t (capitalization_scheme word) sc []) as Hsub.
  apply list_elem_of_In in Hacc.
  pose proof (sublist_submseteq _ _ Hsub) as Hsubm.
  apply (elem_of_submseteq _ _ _ Hacc) in Hsubm.
  apply list_elem_of_In, in_map_iff in Hsubm. destruct Hsubm as (e & <- & He).
  exists (fst e). split; [|right; reflexivity].
  assert (Ready t1) as Hr1 by apply (Ready_set_alphabet _ _ Hr).
  pose proof (sortedCorrections_known t1 word sc Hr1 Ha Hw Hsc e He) as Hk.
  destruct (Stable_check (fst e) t t1 Hr Hr1 (sameDict_set_alphabet _ _)) as (-> & _).
  exact Hk.
Qed.

(** Witness of X21: the suggestions for "ct" *)
Lemma suggestions_are_known_words_witness :
  exists known,
    fst (check known Examples.plain) = Ret true
    /\ ("Cat" = known
        \/ "Cat" = @recase Ascii7.builtins (@capitalization_scheme Ascii7.builtins "ct") known).
Proof.
  apply (@suggestions_are_known_words Ascii7.builtins Examples.plain "ct" 5 ["cat"; "Cat"]).
  - apply Ready_inMemory.
  - apply memoSound_empty. reflexivity.
  - lia.
  - reflexivity.
  - reflexivity.
  - vm_compute. reflexivity.
  - vm_compute. reflexivity.
  - right. left. reflexivity.
Defined.

(** ** Reading the dictionary: rule codes and the table *)

Section TextSplit.

Lemma chars_append (a b : string) : JS.chars (a +:+ b) = JS.chars a ++ JS.chars b.
Proof.
  induction a as [|c a IH]; [reflexivity|].
  change (JS.chars (String c (a +:+ b)) = c :: (JS.chars a ++ JS.chars b)).
  change (JS.chars (String c (a +:+ b))) with (c :: JS.chars (a +:+ b)).
  rewrite IH. reflexivity.
Qed.

Lemma join_cons (sep x y : string) (a : list string) :
  JSText.join sep (x :: y :: a) = x +:+ sep +:+ JSText.join sep (y :: a).
Proof. reflexivity. Qed.

Lemma split_cons (sep c : ascii) (s : string) :
  JSText.split sep (String c s)
  = if Ascii.eqb c sep then EmptyString :: JSText.split sep s
    else match JSText.split sep s with
         | piece :: pieces => String c piece :: pieces
         | [] => [String c EmptyString]
         end.
Proof. reflexivity. Qed.

Lemma split_not_nil (sep : ascii) (s : string) : JSText.split sep s <> [].
Proof.
  induction s as [|c s IH]; [discriminate|]. rewrite split_cons.
  destruct (Ascii.eqb c sep); [discriminate|].
  destruct (JSText.split sep s); discriminate.
Qed.

(** Joining the pieces with the separator gives the text back. *)
Lemma join_split (sep : ascii) (s : string) :
  JSText.join (JS.char sep) (JSText.split sep s) = s.
Proof.
  induction s as [|c s IH]; [reflexivity|]. rewrite split_cons.
  pose proof (split_not_nil sep s) as Hne.
  destruct (JSText.split sep s) as [|piece pieces]; [contradiction|].
  destruct (Ascii.eqb_spec c sep) as [->|_].
  - rewrite join_cons, IH. reflexivity.
  - destruct pieces as [|q pieces].
    + cbn in IH |- *. rewrite IH. reflexivity.
    + rewrite join_cons in IH |- *. cbn. rewrite <- IH. reflexivity.
Qed.

(** No piece holds the separator. *)
Lemma split_pieces (sep : ascii) (s : string) :
  List.Forall (fun piece => ~ In sep (JS.chars piece)) (JSText.split sep s).
Proof.
  induction s as [|c s IH]; [repeat constructor; intros []|]. rewrite split_cons.
  destruct (Ascii.eqb_spec c sep) as [->|Hne].
  - constructor; [intros []|exact IH].
  - destruct (JSText.split sep s) as [|piece pieces].
    + repeat constructor. intros [Hc|[]]. congruence.
    + inversion IH as [|? ? Hp Hps]; subst. constructor; [|exact Hps].
      intros [Hc|Hin]; [congruence|contradiction].
Qed.

Lemma pairs_cons (a b : ascii) (s : string) :
  JSText.pairs (String a (String b s))
  = String a (String b EmptyString) :: JSText.pairs s.
Proof. reflexivity. Qed.

Lemma join_pairs (s : string) : JSText.join "" (JSText.pairs s) = s.
Proof.
  assert (forall n s, (String.length s <= n)%nat -> JSText.join "" (JSText.pairs s) = s)
    as Hgen.
  { clear s. induction n as [|n IH]; intros s Hl.
    - destruct s; [reflexivity|simpl in Hl; lia].
    - destruct s as [|a [|b s]]; [reflexivity|reflexivity|].
      rewrite pairs_cons. simpl in Hl.
      assert (JSText.join "" (JSText.pairs s) = s) as Hs by (apply IH; lia).
      destruct (JSText.pairs s) as [|p ps] eqn:Hp.
      + cbn in Hs |- *. rewrite <- Hs. reflexivity.
      + rewrite join_cons, Hs. reflexivity. }
  apply (Hgen (String.length s)). lia.
Qed.

Lemma length_pairs (s : string) :
  List.Forall (fun code => (1 <= String.length code <= 2)%nat) (JSText.pairs s).
Proof.
  assert (forall n s, (String.length s <= n)%nat ->
            List.Forall (fun code => (1 <= String.length code <= 2)%nat) (JSText.pairs s))
    as Hgen.
  { clear s. induction n as [|n IH]; intros s Hl.
    - destruct s; [constructor|simpl in Hl; lia].
    - destruct s as [|a [|b s]]; [constructor| |].
      + constructor; [simpl; lia|constructor].
      + rewrite pairs_cons. simpl in Hl.
        constructor; [simpl; lia|apply IH; lia]. }
  apply (Hgen (String.length s)). lia.
Qed.

(** The piece of index [i] is [textCodes.substr(2 * i, 2)]. *)
Lemma lookup_pairs (s : string) (i : nat) :
  (i < List.length (JSText.pairs s))%nat ->
  JSText.pairs s !! i = Some (JS.take 2 (JS.drop (2 * i) s)).
Proof.
  assert (forall n s i, (String.length s <= n)%nat ->
            (i < List.length (JSText.pairs s))%nat ->
            JSText.pairs s !! i = Some (JS.take 2 (JS.drop (2 * i) s))) as Hgen.
  { clear s i. induction n as [|n IH]; intros s i Hl Hi.
    - destruct s; [simpl in Hi; lia|simpl in Hl; lia].
    - destruct s as [|a [|b s]]; [simpl in Hi; lia| |].
      + simpl in Hi. assert (i = 0%nat) as -> by lia. reflexivity.
      + rewrite pairs_cons in Hi |- *. destruct i as [|i]; [reflexivity|].
        simpl in Hi, Hl. replace (2 * S i)%nat with (S (S (2 * i))) by lia.
        change (JS.drop (S (S (2 * i))) (String a (String b s)))
          with (JS.drop (2 * i) s).
        change ((String a (String b EmptyString) :: JSText.pairs s) !! S i)
          with (JSText.pairs s !! i).
        apply IH; lia. }
  apply (Hgen (String.length s)). lia.
Qed.

(** The number of pieces: half the length, rounded up. *)
Lemma count_pairs (s : string) :
  List.length (JSText.pairs s) = ((String.length s + 1) / 2)%nat.
Proof.
  assert (forall n s, (String.length s <= n)%nat ->
            List.length (JSText.pairs s) = ((String.length s + 1) / 2)%nat) as Hgen.
  { clear s. induction n as [|n IH]; intros s Hl.
    - destruct s; [reflexivity|simpl in Hl; lia].
    - destruct s as [|a [|b s]]; [reflexivity|reflexivity|].
      rewrite pairs_cons. simpl in Hl. simpl List.length. rewrite IH by lia.
      simpl String.length.
      replace (S (S (String.length s)) + 1)%nat with ((String.length s + 1) + 1 * 2)%nat
        by lia.
      rewrite Nat.div_add by lia. lia. }
  apply (Hgen (String.length s)). lia.
Qed.

Lemma join_chars (s : string) : JSText.join "" (map JS.char (JS.chars s)) = s.
Proof.
  induction s as [|c s IH]; [reflexivity|].
  change (JS.chars (String c s)) with (c :: JS.chars s). rewrite map_cons.
  destruct s as [|d s]; [reflexivity|].
  change (JS.chars (String d s)) with (d :: JS.chars s) in *. rewrite map_cons in *.
  rewrite join_cons, IH. reflexivity.
Qed.

Lemma length_chars (s : string) :
  List.Forall (fun code => String.length code = 1%nat) (map JS.char (JS.chars s)).
Proof. induction s as [|c s IH]; simpl; constructor; [reflexivity|exact IH]. Qed.

End TextSplit.

(** X22.  [parseRuleCodes] cuts the text into codes and loses nothing.
    With [FLAG num] the codes are the pieces between the commas, and joined
    with commas they give the text back; with [FLAG long] the code of index
    [i] is the piece of two characters from position [2 * i] on (the last
    one has one character when the length is odd), and there are half as
    many codes as characters, rounded up; in every other case the codes are
    single characters; concatenated they give the text back.  A missing or
    empty text has no codes. *)
Theorem parseRuleCodes_cuts_the_text `{Builtins} (t : Typo) (textCodes : string) :
  parseRuleCodes t None = []
  /\ parseRuleCodes t (Some "") = []
  /\ if bool_decide (flags t !! "FLAG" = Some (Some "num")) then
       JSText.join "," (parseRuleCodes t (Some textCodes)) = textCodes
       /\ List.Forall (fun code => ~ In ","%char (JS.chars code))
                      (parseRuleCodes t (Some textCodes))
     else if bool_decide (flags t !! "FLAG" = Some (Some "long")) then
       JSText.join "" (parseRuleCodes t (Some textCodes)) = textCodes
       /\ List.Forall (fun code => (1 <= String.length code <= 2)%nat)
                      (parseRuleCodes t (Some textCodes))
       /\ List.length (parseRuleCodes t (Some textCodes))
          = ((String.length textCodes + 1) / 2)%nat
       /\ (forall i : nat,
              (i < List.length (parseRuleCodes t (Some textCodes)))%nat ->
              parseRuleCodes t (Some textCodes) !! i
              = Some (JS.take 2 (JS.drop (2 * i) textCodes)))
     else
       JSText.join "" (parseRuleCodes t (Some textCodes)) = textCodes
       /\ List.Forall (fun code => String.length code = 1%nat)
                      (parseRuleCodes t (Some textCodes)).
Proof.
  split; [reflexivity|]. split; [reflexivity|].
  destruct textCodes as [|c s].
  { repeat case_bool_decide; repeat split;
      solve [reflexivity|constructor|simpl; intros; lia]. }
  unfold parseRuleCodes.
  destruct (flags t !! "FLAG") as [value|] eqn:Hflag.
  - destruct (decide (value = Some "num")) as [->|Hnum].
    + rewrite (bool_decide_eq_true_2 (Some (Some "num") = Some (Some "num"))) by reflexivity.
      rewrite (bool_decide_eq_false_2 (Some "num" = Some "long")) by discriminate.
      rewrite (bool_decide_eq_true_2 (Some "num" = Some "num")) by reflexivity.
      split; [apply (join_split ","%char)|apply split_pieces].
    + rewrite (bool_decide_eq_false_2 (Some value = Some (Some "num"))) by congruence.
      destruct (decide (value = Some "long")) as [->|Hlong].
      * rewrite (bool_decide_eq_true_2 (Some (Some "long") = Some (Some "long")))
          by reflexivity.
        rewrite (bool_decide_eq_true_2 (Some "long" = Some "long")) by reflexivity.
        split; [apply join_pairs|]. split; [apply length_pairs|].
        split; [apply count_pairs|apply lookup_pairs].
      * rewrite (bool_decide_eq_false_2 (Some value = Some (Some "long"))) by congruence.
        rewrite (bool_decide_eq_false_2 (value = Some "long")) by exact Hlong.
        rewrite (bool_decide_eq_false_2 (value = Some "num")) by exact Hnum.
        destruct (bool_decide (value = Some "UTF-8"));
          (split; [apply join_chars|apply length_chars]).
  - rewrite (bool_decide_eq_false_2 (None = Some (Some "num"))) by discriminate.
    rewrite (bool_decide_eq_false_2 (None = Some (Some "long"))) by discriminate.
    split; [apply join_chars|apply length_chars].
Qed.

Section TableFacts.
Implicit Types (table : Table.t) (word : string) (rules : list string).





End TableFacts.





(** ** The alphabet of the edits *)

Section AlphabetFacts.

Lemma objSet_keys_In {V} (key k : string) (v : V) (o : JS.Obj V) :
  In k (map fst (JS.objSet key v o)) <-> k = key \/ In k (map fst o).
Proof.
  induction o as [|[k0 v0] o IH]; simpl.
  - split; [intros [<-|[]]; left; reflexivity|intros [->|[]]; left; reflexivity].
  - destruct (String.eqb_spec k0 key) as [->|Hne]; simpl.
    + split; [intros [<-|Hin]; auto|intros [->|[<-|Hin]]; auto].
    + rewrite IH. split; [intros [<-|[->|Hin]]; auto|intros [->|[<-|Hin]]; auto].
Qed.

Lemma objSet_keys_NoDup {V} (key : string) (v : V) (o : JS.Obj V) :
  List.NoDup (map fst o) -> List.NoDup (map fst (JS.objSet key v o)).
Proof.
  induction o as [|[k0 v0] o IH]; simpl; intros Hnd.
  - constructor; [intros []|constructor].
  - apply List.NoDup_cons_iff in Hnd. destruct Hnd as [Hk Hnd].
    destruct (String.eqb_spec k0 key) as [->|Hne]; simpl.
    + constructor; assumption.
    + constructor; [|apply IH, Hnd].
      rewrite objSet_keys_In. intros [->|Hin]; [congruence|contradiction].
Qed.

(** The keys of [alphaHash]: the characters of the array, each once *)
Lemma alphaHash_keys (alphaArray : list ascii) (acc : JS.Obj bool) :
  List.NoDup (map fst acc) ->
  List.NoDup (map fst (fold_left (fun h c => JS.objSet (JS.char c) true h) alphaArray acc))
  /\ forall k,
       In k (map fst (fold_left (fun h c => JS.objSet (JS.char c) true h) alphaArray acc))
       <-> In k (map fst acc) \/ exists c, In c alphaArray /\ k = JS.char c.
Proof.
  revert acc. induction alphaArray as [|c l IH]; intros acc Hnd; simpl.
  - split; [exact Hnd|]. intros k. split; [auto|intros [Hin|(c & [] & _)]; exact Hin].
  - destruct (IH (JS.objSet (JS.char c) true acc) (objSet_keys_NoDup _ _ _ Hnd))
      as [Hnd' Hin']. split; [exact Hnd'|].
    intros k. rewrite Hin', objSet_keys_In. split.
    + intros [[->|Hin]|(c' & Hc' & ->)]; eauto.
    + intros [Hin|(c' & [<-|Hc'] & ->)]; eauto.
Qed.

Lemma filter_split_perm {A} (f : A -> bool) (l : list A) :
  Permutation (List.filter f l ++ List.filter (fun x => negb (f x)) l) l.
Proof.
  induction l as [|x l IH]; simpl; [constructor|].
  destruct (f x); simpl.
  - constructor. exact IH.
  - apply Permutation_sym, Permutation_cons_app, Permutation_sym, IH.
Qed.

(** [for (k in o)] visits every own property once. *)
Lemma forIn_perm {V} (o : JS.Obj V) : Permutation (JS.forIn o) o.
Proof.
  unfold JS.forIn.
  rewrite (sort_perm JS.indexOrder). apply filter_split_perm.
Qed.

Lemma chars_concat_keys (l : list (string * bool)) (acc : string) :
  List.Forall (fun e => exists c, fst e = JS.char c) l ->
  map JS.char (JS.chars (fold_left (fun a e => a +:+ fst e) l acc))
  = map JS.char (JS.chars acc) ++ map fst l.
Proof.
  revert acc. induction l as [|e l IH]; intros acc Hall; simpl.
  - rewrite app_nil_r. reflexivity.
  - inversion Hall as [|? ? (c & Hc) Hl]; subst.
    rewrite (IH _ Hl), chars_append, map_app, Hc, <- app_assoc. reflexivity.
Qed.

Lemma char_inj (a b : ascii) : JS.char a = JS.char b -> a = b.
Proof. unfold JS.char. congruence. Qed.

End AlphabetFacts.

(** X25.  The alphabet that [suggest] builds holds every character of the
    default alphabet and of the TRY and WORDCHARS flags, and each of them
    once. *)
Theorem initAlphabet_each_character_once `{Builtins} (t : Typo) :
  List.NoDup (JS.chars (initAlphabet t))
  /\ forall c, In c (JS.chars (initAlphabet t)) <-> In c (JS.chars (rawAlphabet t)).
Proof.
  unfold initAlphabet.
  set (alphaArray := JS.sort (fun a b => JS.charCode a - JS.charCode b)
                       (JS.chars (rawAlphabet t))).
  set (alphaHash := fold_left (fun h c => JS.objSet (JS.char c) true h) alphaArray []).
  destruct (alphaHash_keys alphaArray [] ltac:(constructor)) as [Hnd Hin].
  fold alphaHash in Hnd, Hin.
  assert (forall k, In k (map fst (JS.forIn alphaHash))
                    <-> exists c, In c (JS.chars (rawAlphabet t)) /\ k = JS.char c) as Hkeys.
  { intros k.
    assert (In k (map fst (JS.forIn alphaHash)) <-> In k (map fst alphaHash)) as ->.
    { split; apply Permutation_in, Permutation_map;
        [|apply Permutation_sym]; apply forIn_perm. }
    rewrite Hin. split.
    - intros [[]|(c & Hc & ->)]. exists c. split; [|reflexivity].
      apply (sort_In (fun a b => JS.charCode a - JS.charCode b)), Hc.
    - intros (c & Hc & ->). right. exists c. split; [|reflexivity].
      apply (sort_In (fun a b => JS.charCode a - JS.charCode b)), Hc. }
  assert (map JS.char
            (JS.chars (fold_left (fun a e => a +:+ fst e) (JS.forIn alphaHash) ""))
          = map fst (JS.forIn alphaHash)) as Hchars.
  { rewrite chars_concat_keys; [reflexivity|].
    rewrite List.Forall_forall. intros e He.
    destruct (proj1 (Hkeys (fst e)) (in_map fst _ _ He)) as (c & _ & Hc). eauto. }
  split.
  - apply (NoDup_map_inv JS.char). rewrite Hchars.
    apply (Permutation_NoDup (l := map fst alphaHash)); [|exact Hnd].
    apply Permutation_map, Permutation_sym, forIn_perm.
  - intros c. split.
    + intros Hc. apply (in_map JS.char) in Hc. rewrite Hchars in Hc.
      apply Hkeys in Hc. destruct Hc as (c' & Hc' & Heq).
      apply char_inj in Heq. subst c'. exact Hc'.
    + intros Hc.
      assert (In (JS.char c) (map JS.char
                (JS.chars (fold_left (fun a e => a +:+ fst e) (JS.forIn alphaHash) ""))))
        as Hin'.
      { rewrite Hchars. apply Hkeys. eauto. }
      apply in_map_iff in Hin'. destruct Hin' as (c' & Heq & Hc').
      apply char_inj in Heq. subst c'. exact Hc'.
Qed.

(** X26.  A filter without bits.  In a filter of size zero, as the export
    of an empty table builds it, the bit index of every probe is NaN:
    [add] changes nothing, and [mightContain] answers false for every word,
    the added ones included. *)
Theorem bloom_without_bits_rejects (numHashes : Z) (words : list string) (word : string) :
  0 <= numHashes ->
  fold_left BloomFilter.add words (BloomFilter.new 0 numHashes) = BloomFilter.new 0 numHashes
  /\ BloomFilter.mightContain
       (fold_left BloomFilter.add words (BloomFilter.new 0 numHashes)) word = false.
Proof.
  intros Hn.
  assert (forall f w, BloomFilter.size f = 0 -> BloomFilter.add f w = f) as Hadd.
  { intros f w Hs. unfold BloomFilter.add. generalize (BloomFilter.probes f).
    intros l. induction l as [|i l IH]; [reflexivity|]. simpl.
    unfold BloomFilter.addProbe at 2. rewrite Hs. exact IH. }
  assert (fold_left BloomFilter.add words (BloomFilter.new 0 numHashes)
          = BloomFilter.new 0 numHashes) as Hsame.
  { induction words as [|w words IH]; [reflexivity|]. simpl.
    rewrite Hadd by reflexivity. exact IH. }
  split; [exact Hsame|]. rewrite Hsame.
  unfold BloomFilter.mightContain, BloomFilter.probes.
  set (k := BloomFilter.numHashes (BloomFilter.new 0 numHashes)).
  assert (0 < k) as Hk.
  { subst k. simpl. destruct (Z.eqb_spec numHashes 0); lia. }
  destruct (Z.to_nat k) as [|n] eqn:Hkn; [lia|]. reflexivity.
Qed.

(** Witness of X26: the filter of an empty export *)
Lemma bloom_without_bits_rejects_witness :
  BloomFilter.mightContain
    (fold_left BloomFilter.add ["cat"] (BloomFilter.new 0 3)) "cat" = false.
Proof. apply (bloom_without_bits_rejects 3 ["cat"] "cat"). lia. Defined.

Section SuggestRanking.
Context `{Builtins}.

(** A candidate that the loop of [correct] pushes is not tagged
    NOSUGGEST. *)
Lemma accepted_nosuggest (t : Typo) scheme (rest : list (string * Weight)) :
  forall rv c, In c (accepted t scheme rest rv) -> flagged t c "NOSUGGEST" = false.
Proof.
  induction rest as [|e rest IH]; intros rv c; simpl; [intros []|].
  destruct (flagged t (recase scheme (fst e)) "NOSUGGEST") eqn:Hflag; simpl.
  - apply IH.
  - destruct (bool_decide (recase scheme (fst e) ∈ rv)); simpl; [apply IH|].
    intros [<-|Hin]; [exact Hflag|eapply IH; exact Hin].
Qed.

Lemma In_firstn {A} (n : nat) (l : list A) (x : A) : In x (List.firstn n l) -> In x l.
Proof.
  revert n. induction l as [|y l IH]; intros [|n]; simpl; try tauto.
  intros [->|Hin]; [left; reflexivity|right; eapply IH; exact Hin].
Qed.

End SuggestRanking.

(** X27.  Suggestions from the ranking skip the texts tagged NOSUGGEST.
    On a Ready instance with a sound memo that holds no entry
    "hasOwnProperty", for a positive limit, when [check] rejects the word
    and the replacement table gives no corrected word: no suggestion that
    [suggest] returns is, as it is spelled in the list, a word tagged
    NOSUGGEST.  The flag is looked up under the candidate after recasing:
    a variant in another case of a tagged word, which the table does not
    hold, can be suggested. *)
Theorem ranked_suggestions_skip_nosuggest `{Builtins} (t : Typo) (word : string)
    (limit : Z) (suggestions : list string) :
  Ready t -> memoSound t -> 0 < limit ->
  memoized t !! "hasOwnProperty" = None ->
  fst (check word t) = Ret false ->
  fst (tryReplacements word (replacementTable t) t) = Ret None ->
  fst (suggest word limit t) = Ret suggestions ->
  forall suggestion, In suggestion suggestions ->
    flagged t suggestion "NOSUGGEST" = false.
Proof.
  intros Hr Hm Hl Hown Hcheck Hrep Hs s Hin.
  rewrite (suggest_freshResult t word limit Hr Hm Hl Hown) in Hs.
  unfold freshResult in Hs. rewrite Hcheck, Hrep in Hs.
  destruct (fst (sortedCorrections word _)) as [sc|e]; [|discriminate].
  injection Hs as <-. apply In_firstn in Hin.
  apply (accepted_nosuggest t _ sc [] s Hin).
Qed.

(** Witness of X27: "bat" is tagged NOSUGGEST and "cat" is not.  The
    suggestions for "xat" leave out "bat" and hold "Bat", which the table
    does not hold and which [check] accepts as a variant of "bat". *)
Lemma ranked_suggestions_skip_nosuggest_witness :
  flagged Examples.noSuggest "bat" "NOSUGGEST" = true
  /\ fst (suggest "xat" 5 Examples.noSuggest) = Ret ["Bat"; "Cat"; "cat"]
  /\ flagged Examples.noSuggest "Bat" "NOSUGGEST" = false
  /\ flagged Examples.noSuggest "cat" "NOSUGGEST" = false.
Proof.
  split; [vm_compute; reflexivity|]. split; [vm_compute; reflexivity|].
  assert (forall suggestion, In suggestion ["Bat"; "Cat"; "cat"] ->
            flagged Examples.noSuggest suggestion "NOSUGGEST" = false) as Hskip.
  { apply (@ranked_suggestions_skip_nosuggest Ascii7.builtins Examples.noSuggest "xat" 5
             ["Bat"; "Cat"; "cat"]).
    - apply Ready_inMemory.
    - apply memoSound_empty. reflexivity.
    - lia.
    - reflexivity.
    - vm_compute. reflexivity.
    - vm_compute. reflexivity.
    - vm_compute. reflexivity. }
  split; apply Hskip; simpl; auto.
Defined.

(** X28.  A smaller limit gives a prefix.  On a Ready instance with a
    sound memo that holds no entry "hasOwnProperty": when [suggest] returns
    a list for a limit, it returns for every smaller positive limit the
    first suggestions of that list. *)
Theorem suggest_smaller_limit_prefix `{Builtins} (t : Typo) (word : string)
    (limit smaller : Z) (suggestions : list string) :
  Ready t -> memoSound t ->
  memoized t !! "hasOwnProperty" = None ->
  0 < smaller -> smaller <= limit ->
  fst (suggest word limit t) = Ret suggestions ->
  fst (suggest word smaller t) = Ret (List.firstn (Z.to_nat smaller) suggestions).
Proof.
  intros Hr Hm Hown Hk Hle Hs.
  rewrite (suggest_freshResult t word limit Hr Hm ltac:(lia) Hown) in Hs.
  rewrite (suggest_freshResult t word smaller Hr Hm Hk Hown).
  rewrite (freshResult_prefix t word smaller limit suggestions Hs Hk (or_introl Hle)).
  unfold JS.slice0. destruct (Z.ltb_spec smaller 0) as [?|_]; [lia|reflexivity].
Qed.

(** Witness of X28: one suggestion for "xat" instead of five *)
Lemma suggest_smaller_limit_prefix_witness :
  fst (suggest "xat" 1 Examples.batCat) = Ret ["Bat"].
Proof.
  apply (@suggest_smaller_limit_prefix Ascii7.builtins Examples.batCat "xat" 5 1
           ["Bat"; "Cat"; "bat"; "cat"]).
  - apply Ready_inMemory.
  - apply memoSound_empty. reflexivity.
  - reflexivity.
  - lia.
  - lia.
  - vm_compute. reflexivity.
Defined.
